(** * WhatsAppExplorer: the transcript parser and the archive/media manager

    A shallow embedding of [src/messageParser.js] (class [MessageParser]), of
    [src/zipHandler.js] (classes [LRUCache] and [ZipHandler], the file the
    tests import under that name), of the part of [src/mediaHandler.js] that
    chooses the element for a file, and of [src/stateManager.js] without its
    use of [localStorage], with the properties of the specification and
    further properties of the code stated over it.

    Conventions of the embedding:
    - a JavaScript string is the list of its UTF-16 code units ([list N]);
    - [null] and [undefined] are [None];
    - a method that mutates [this] takes the object and returns the new one;
    - calls into the browser ([URL.createObjectURL], [URL.revokeObjectURL],
      [window.alert], [console.warn]) are recorded, in order, in a trace. *)

From Stdlib Require Import ZArith NArith QArith.QArith_base Ascii String.
From stdpp Require Import gmap list fin_maps strings pretty sorting.

Local Open Scope N_scope.

(** ** JavaScript strings *)

Abbreviation jsstring := (list N).

(** An ASCII literal as a JavaScript string. *)
Definition js (s : string) : jsstring :=
  map N_of_ascii (list_ascii_of_string s).

Module Char.

Definition between (lo hi c : N) : bool := (lo <=? c) && (c <=? hi).

(** [\d] *)
Definition digit (c : N) : bool := between 48 57 c.

Definition upper (c : N) : bool := between 65 90 c.
Definition lower (c : N) : bool := between 97 122 c.

(** [\w], without the [u] and [i] flags: [A-Za-z0-9_]. *)
Definition word (c : N) : bool := upper c || lower c || digit c || (c =? 95).

(** ECMAScript LineTerminator: LF, CR, U+2028, U+2029. *)
Definition lineTerminator (c : N) : bool :=
  (c =? 10) || (c =? 13) || (c =? 8232) || (c =? 8233).

(** [\s], and what [String.prototype.trim] strips: WhiteSpace (TAB, VT, FF,
    SP, NBSP, ZWNBSP and the Unicode space separators) and LineTerminator. *)
Definition space (c : N) : bool :=
  between 9 13 c || (c =? 32) || (c =? 160) || (c =? 5760)
  || between 8192 8202 c || (c =? 8232) || (c =? 8233) || (c =? 8239)
  || (c =? 8287) || (c =? 12288) || (c =? 65279).

(** [.] without the [s] flag. *)
Definition dot (c : N) : bool := negb (lineTerminator c).

Definition lit (a : ascii) (c : N) : bool := c =? N_of_ascii a.
Definition isnt (a : ascii) (c : N) : bool := negb (lit a c).
Definition oneOf (s : string) (c : N) : bool := bool_decide (c ∈ js s).

(** Canonicalize of a regular expression with the [i] flag and without the
    [u] flag: the code unit's upper case, except that a code unit outside
    ASCII is never mapped into ASCII.  The patterns below are ASCII, so only
    the ASCII part of the mapping can make two code units meet. *)
Definition canonicalize (c : N) : N := if lower c then c - 32 else c.

(** A pattern character under the [i] flag. *)
Definition ci (a : ascii) (c : N) : bool :=
  canonicalize c =? canonicalize (N_of_ascii a).

(** The code units of [String.prototype.toLowerCase] of one code unit. The
    results are only ever compared with ASCII table keys; besides [A-Z] the
    code units whose lower case meets ASCII are U+212A KELVIN SIGN (k) and
    U+0130 (i followed by U+0307).  Every other code unit outside ASCII
    lowers to code units outside ASCII and is kept as it is. *)
Definition toLower (c : N) : jsstring :=
  if upper c then [c + 32]
  else if c =? 8490 then [107]
  else if c =? 304 then [105; 775]
  else [c].

End Char.

Module Str.

Fixpoint dropWhile (p : N → bool) (s : jsstring) : jsstring :=
  match s with
  | c :: s' => if p c then dropWhile p s' else s
  | [] => []
  end.

Definition trimStart (s : jsstring) : jsstring := dropWhile Char.space s.
Definition trimEnd (s : jsstring) : jsstring :=
  rev (dropWhile Char.space (rev s)).

(** [s.trim()] *)
Definition trim (s : jsstring) : jsstring := trimEnd (trimStart s).

(** [s.split(sep)] for a separator matching exactly one code unit, given as a
    class: [split('\n')], [split('.')], [split('/')] and [split(/[/.]/)].
    The result is never empty: [''.split(sep)] is [['']]. *)
Fixpoint split (sep : N → bool) (s : jsstring) : list jsstring :=
  match s with
  | [] => [[]]
  | c :: s' =>
      if sep c then [] :: split sep s'
      else match split sep s' with
           | piece :: rest => (c :: piece) :: rest
           | [] => [[c]]
           end
  end.

(** [parts.pop()] read as a value: the last element, [undefined] on []. *)
Definition pop (parts : list jsstring) : option jsstring := last parts.

(** [s.toLowerCase()] *)
Definition toLowerCase (s : jsstring) : jsstring := s ≫= Char.toLower.

(** [s.includes(c)] for a one-character needle. *)
Definition includes (a : ascii) (s : jsstring) : bool :=
  existsb (Char.lit a) s.

Fixpoint startsWith (p s : jsstring) : bool :=
  match p, s with
  | [], _ => true
  | a :: p', b :: s' => (a =? b) && startsWith p' s'
  | _ :: _, [] => false
  end.

(** [s.endsWith(p)] *)
Definition endsWith (p s : jsstring) : bool := startsWith (rev p) (rev s).

(** [s.substring(n)] for [0 <= n]. *)
Definition substring (n : nat) (s : jsstring) : jsstring := drop n s.

(** Truthiness of a string: [!s] is [true] exactly on the empty string. *)
Definition truthy (s : jsstring) : bool :=
  match s with [] => false | _ => true end.

(** [a < b] on strings: the order of the code units, a proper prefix being
    smaller. *)
Fixpoint ltb (a b : jsstring) : bool :=
  match a, b with
  | _, [] => false
  | [], _ :: _ => true
  | x :: a', y :: b' => (x <? y) || ((x =? y) && ltb a' b')
  end.

(** [a <= b] on strings. *)
Definition le (a b : jsstring) : Prop := ltb b a = false.

#[global] Instance le_dec (a b : jsstring) : Decision (le a b).
Proof. unfold le. apply _. Defined.

(** [array.sort()] of an array of strings, without a comparator: ascending
    in the order of the code units.  On strings that order is total and
    antisymmetric, so the sorted array is unique, whatever the algorithm. *)
Definition sort (l : list jsstring) : list jsstring := merge_sort le l.

(** [s.includes(needle)] *)
Fixpoint includesStr (needle s : jsstring) : bool :=
  startsWith needle s
  || match s with
     | [] => false
     | _ :: s' => includesStr needle s'
     end.

End Str.

(** ** Regular expressions

    A backtracking matcher with the semantics of ECMAScript's pattern
    matching for the constructs the source's literals use: character
    classes, sequence, ordered alternation, greedy and lazy bounded or
    unbounded quantifiers, capturing groups, [^] and [$] (no [m] flag).
    A matcher takes the state and a continuation; failure of the
    continuation backtracks into the matcher. *)

Module Regex.

Inductive regex : Type :=
| Class (p : N → bool)
| Empty
| Seq (r1 r2 : regex)
| Alt (r1 r2 : regex)
| Repeat (greedy : bool) (min : nat) (max : option nat) (r : regex)
| Group (i : nat) (r : regex)
| Bol
| Eol.

(** Position in the input, the input from there on, and the captures. *)
Record mstate : Type := MState {
  pos : nat;
  rest : jsstring;
  caps : gmap nat jsstring
}.

Definition continuation : Type := mstate → option mstate.

Fixpoint groups (r : regex) : list nat :=
  match r with
  | Seq a b | Alt a b => groups a ++ groups b
  | Repeat _ _ _ a => groups a
  | Group i a => i :: groups a
  | Class _ | Empty | Bol | Eol => []
  end.

(** RepeatMatcher: the captures of the body are reset on every iteration,
    and an iteration of the optional part that consumes nothing fails. Every
    other iteration consumes a code unit or one of the [min] mandatory
    rounds, so [min + length rest + 1] rounds of [fuel] are never used up. *)
Fixpoint loop (fuel : nat) (body : mstate → continuation → option mstate)
    (ids : list nat) (greedy : bool) (min : nat) (max : option nat)
    (st : mstate) (k : continuation) : option mstate :=
  match fuel with
  | O => None
  | S fuel' =>
      if bool_decide (max = Some O) then k st
      else
        let st0 := MState (pos st) (rest st) (foldr delete (caps st) ids) in
        let iterate (_ : unit) :=
          body st0 (λ st',
            if bool_decide (min = O) && bool_decide (pos st' = pos st)
            then None
            else loop fuel' body ids greedy (pred min) (pred <$> max) st' k) in
        if bool_decide (min ≠ O) then iterate tt
        else if greedy then
          match iterate tt with Some r => Some r | None => k st end
        else
          match k st with Some r => Some r | None => iterate tt end
  end.

Definition capture (i : nat) (from to : mstate) : mstate :=
  MState (pos to) (rest to)
         (<[i := take (pos to - pos from)%nat (rest from)]> (caps to)).

Fixpoint run (r : regex) (st : mstate) (k : continuation) : option mstate :=
  match r with
  | Class p =>
      match rest st with
      | c :: s => if p c then k (MState (S (pos st)) s (caps st)) else None
      | [] => None
      end
  | Empty => k st
  | Seq a b => run a st (λ st', run b st' k)
  | Alt a b =>
      match run a st k with Some r => Some r | None => run b st k end
  | Repeat greedy min max a =>
      loop (min + length (rest st) + 1) (run a) (groups a) greedy min max st k
  | Group i a => run a st (λ st', k (capture i st st'))
  | Bol => if bool_decide (pos st = O) then k st else None
  | Eol => match rest st with [] => k st | _ :: _ => None end
  end.

(** What [RegExp.prototype.exec] returns on success: the index of the
    match, the matched text and the groups that took part. *)
Record matched : Type := Matched {
  index : nat;
  full : jsstring;
  captures : gmap nat jsstring
}.

(** The leftmost position from which the pattern matches. *)
Fixpoint search (r : regex) (i : nat) (s : jsstring) : option matched :=
  match run r (MState i s ∅) Some with
  | Some st => Some (Matched i (take (pos st - i)%nat s) (caps st))
  | None =>
      match s with
      | [] => None
      | _ :: s' => search r (S i) s'
      end
  end.

(** [s.match(r)] and [r.exec(s)] for a pattern without the [g] flag. *)
Definition exec (r : regex) (s : jsstring) : option matched := search r O s.

(** [r.test(s)] *)
Definition test (r : regex) (s : jsstring) : bool :=
  bool_decide (is_Some (exec r s)).

(** [m[i]] for a group: [undefined] when the group took no part. *)
Definition group (m : matched) (i : nat) : option jsstring := captures m !! i.

(** [s.replace(r, '')] for a pattern without the [g] flag: the first match
    is cut out. *)
Definition remove (r : regex) (s : jsstring) : jsstring :=
  match exec r s with
  | Some m => take (index m) s ++ drop (index m + length (full m)) s
  | None => s
  end.

(** *** Notation for writing the literals down *)

Definition lit (a : ascii) : regex := Class (Char.lit a).
Definition seqs (rs : list regex) : regex := foldr Seq Empty rs.
Definition alts (rs : list regex) : regex :=
  match rs with
  | [] => Empty
  | r :: rs' => foldl Alt r rs'
  end.
(** A literal run of characters, case-sensitive or under the [i] flag. *)
Definition text (s : string) : regex :=
  seqs (map lit (list_ascii_of_string s)).
Definition texti (s : string) : regex :=
  seqs (map (λ a, Class (Char.ci a)) (list_ascii_of_string s)).
Definition opt (r : regex) : regex := Repeat true 0 (Some 1%nat) r.
Definition star (r : regex) : regex := Repeat true 0 None r.
Definition plus (r : regex) : regex := Repeat true 1 None r.
Definition plusLazy (r : regex) : regex := Repeat false 1 None r.
Definition times (lo hi : nat) (r : regex) : regex :=
  Repeat true lo (Some hi) r.

(** *** Notions the properties of the matcher are stated with *)

Local Open Scope nat_scope.

(** [st'] is a state a matcher started in [st] can hand to its
    continuation: further on in the same input. *)
Definition extends (st st' : mstate) : Prop :=
  pos st ≤ pos st' ∧ length (rest st') + pos st' = length (rest st) + pos st.

(** A matcher is local when it consults its continuation only on states
    further on in the input. *)
Definition local (m : mstate → continuation → option mstate) : Prop :=
  ∀ st k k', (∀ st', extends st st' → k st' = k' st') → m st k = m st k'.

(** Groups outside of alternatives and quantifiers. *)
Fixpoint sure (r : regex) : list nat :=
  match r with
  | Group i a => i :: sure a
  | Seq a b => sure a ++ sure b
  | Class _ | Empty | Alt _ _ | Repeat _ _ _ _ | Bol | Eol => []
  end.

(** The captures of [st] outside of [ids] are still there in [st']. *)
Definition keeps (ids : list nat) (st st' : mstate) : Prop :=
  ∀ i, i ∉ ids → is_Some (caps st !! i) → is_Some (caps st' !! i).

(** Every code unit the pattern can consume satisfies [P]. *)
Fixpoint within (P : N → bool) (r : regex) : Prop :=
  match r with
  | Class p => ∀ c, p c = true → P c = true
  | Seq a b | Alt a b => within P a ∧ within P b
  | Repeat _ _ _ a | Group _ a => within P a
  | Empty | Bol | Eol => True
  end.

(** Every group [i] of the pattern consumes code units satisfying [Φ i]
    only. *)
Fixpoint groupsWithin (Φ : nat → N → bool) (r : regex) : Prop :=
  match r with
  | Group i a => within (Φ i) a ∧ groupsWithin Φ a
  | Seq a b | Alt a b => groupsWithin Φ a ∧ groupsWithin Φ b
  | Repeat _ _ _ a => groupsWithin Φ a
  | Class _ | Empty | Bol | Eol => True
  end.

(** The text captured for a group [i] consists of code units satisfying
    [Φ i]. *)
Definition capsWithin (Φ : nat → N → bool) (caps : gmap nat jsstring) : Prop :=
  ∀ i g, caps !! i = Some g → ∀ c, c ∈ g → Φ i c = true.

(** [st'] is [st] after [n] more code units. *)
Definition ahead (n : nat) (st st' : mstate) : Prop :=
  pos st' = pos st + n ∧ rest st' = drop n (rest st) ∧ n ≤ length (rest st).

End Regex.

(** ** Numbers and dates *)

Local Open Scope Z_scope.

(** [parseInt(s, 10)]: leading white space is skipped, a sign is read, then
    the longest run of decimal digits; [NaN] ([None]) when there is none.
    Whatever follows the digits is ignored. *)
Module ParseInt.

Fixpoint digits (acc : option Z) (s : jsstring) : option Z :=
  match s with
  | c :: s' =>
      if Char.digit c
      then digits (Some (10 * default 0 acc + (Z.of_N c - 48))) s'
      else acc
  | [] => acc
  end.

Definition parseInt (s : jsstring) : option Z :=
  match Str.trimStart s with
  | 45%N :: s' => Z.opp <$> digits None s'
  | 43%N :: s' => digits None s'
  | s' => digits None s'
  end.

End ParseInt.

(** The [Date] of a host whose local time has a constant offset from UTC: a
    date is represented by its local time value, in milliseconds since the
    local epoch, which is what the constructor builds from local components
    and what the [get...] methods read.  Daylight-saving transitions are not
    modelled.  The day arithmetic is ECMAScript's MakeDay, MakeTime, MakeDate
    and TimeClip over exact integers. *)
Module JSDate.

Definition msPerDay : Z := 86400000.

Definition DayFromYear (y : Z) : Z :=
  365 * (y - 1970) + (y - 1969) / 4 - (y - 1901) / 100 + (y - 1601) / 400.

Definition InLeapYear (y : Z) : bool :=
  ((y mod 4 =? 0) && negb (y mod 100 =? 0)) || (y mod 400 =? 0).

(** Days of the year before month [m] (0 is January). *)
Definition daysBefore (leap : bool) (m : Z) : Z :=
  let l := if leap then 1 else 0 in
  match m with
  | 0 => 0 | 1 => 31 | 2 => 59 + l | 3 => 90 + l | 4 => 120 + l
  | 5 => 151 + l | 6 => 181 + l | 7 => 212 + l | 8 => 243 + l
  | 9 => 273 + l | 10 => 304 + l | _ => 334 + l
  end.

Definition MakeDay (year month date : Z) : Z :=
  let ym := year + month / 12 in
  let mn := month mod 12 in
  DayFromYear ym + daysBefore (InLeapYear ym) mn + date - 1.

Definition MakeTime (hour min sec ms : Z) : Z :=
  hour * 3600000 + min * 60000 + sec * 1000 + ms.

Definition MakeDate (day time : Z) : Z := day * msPerDay + time.

Definition TimeClip (t : Z) : option Z :=
  if Z.abs t <=? 8640000000000000 then Some t else None.

(** [new Date(year, monthIndex, day, hours, minutes, seconds)]; [None] is an
    invalid date (its time value is [NaN]).  A [NaN] argument makes the
    date invalid; a year from 0 to 99 means 1900 + year. *)
Definition make (year monthIndex day hours minutes seconds : option Z)
    : option Z :=
  y ← year; m ← monthIndex; d ← day;
  h ← hours; mi ← minutes; s ← seconds;
  let yr := if (0 <=? y) && (y <=? 99) then 1900 + y else y in
  TimeClip (MakeDate (MakeDay yr m d) (MakeTime h mi s 0)).

Definition Day (t : Z) : Z := t / msPerDay.

(** Year, month index and day of the month of a day number: the inverse of
    [MakeDay] on the proleptic Gregorian calendar. *)
Definition civil (day : Z) : Z * Z * Z :=
  let z := day + 719468 in
  let era := z / 146097 in
  let doe := z - era * 146097 in
  let yoe := (doe - doe / 1460 + doe / 36524 - doe / 146096) / 365 in
  let doy := doe - (365 * yoe + yoe / 4 - yoe / 100) in
  let mp := (5 * doy + 2) / 153 in
  let d := doy - (153 * mp + 2) / 5 + 1 in
  let m := if mp <? 10 then mp + 3 else mp - 9 in
  let y := yoe + era * 400 + (if m <=? 2 then 1 else 0) in
  (y, m - 1, d).

Definition getFullYear (t : Z) : Z := (civil (Day t)).1.1.
Definition getMonth (t : Z) : Z := (civil (Day t)).1.2.
Definition getDate (t : Z) : Z := (civil (Day t)).2.
Definition getHours (t : Z) : Z := (t / 3600000) mod 24.
Definition getMinutes (t : Z) : Z := (t / 60000) mod 60.
Definition getSeconds (t : Z) : Z := (t / 1000) mod 60.

(** The components of a date, as the [get...] methods read them. *)
Definition components (t : Z) : Z * Z * Z * Z * Z * Z :=
  (getFullYear t, getMonth t, getDate t, getHours t, getMinutes t, getSeconds t).

End JSDate.

(** ** MessageParser ([src/messageParser.js]) *)

Module MessageParser.
Import Regex.

(** *** [this.patterns] and the literals local to the methods *)

Definition d (lo hi : nat) : regex := times lo hi (Class Char.digit).
Definition ws : regex := Class Char.space.

(** [\d{1,2}[/.]\d{1,2}[/.]\d{2,4}] *)
Definition datePart : regex :=
  seqs [d 1 2; Class (Char.oneOf "/."); d 1 2; Class (Char.oneOf "/."); d 2 4].

(** [\d{1,2}:\d{2}(?::\d{2})?(?:\s*[AP]M)?] *)
Definition timePart : regex :=
  seqs [d 1 2; lit ":"; d 2 2; opt (seqs [lit ":"; d 2 2]);
        opt (seqs [star ws; Class (Char.oneOf "AP"); lit "M"])].

(** [^(date),?\s+(time)], the common head of the three line patterns. *)
Definition stamp : list regex :=
  [Group 1 datePart; opt (lit ","); plus ws; Group 2 timePart].

(** [/^\[(date),?\s+(time)\]\s+([^:]+?):\s*(.* )/] *)
Definition bracket : regex :=
  seqs ([Bol; lit "["] ++ stamp ++
        [lit "]"; plus ws; Group 3 (plusLazy (Class (Char.isnt ":")));
         lit ":"; star ws; Group 4 (star (Class Char.dot))]).

(** [/^(date),?\s+(time)\s*-\s*([^:]+?):\s*(.* )/] *)
Definition dash : regex :=
  seqs ([Bol] ++ stamp ++
        [star ws; lit "-"; star ws;
         Group 3 (plusLazy (Class (Char.isnt ":")));
         lit ":"; star ws; Group 4 (star (Class Char.dot))]).

(** [/^(date),?\s+(time)\s*-\s*(.* )/] *)
Definition systemDash : regex :=
  seqs ([Bol] ++ stamp ++
        [star ws; lit "-"; star ws; Group 3 (star (Class Char.dot))]).

(** [/<attached:\s*([^>]+)>/] *)
Definition attachment : regex :=
  seqs [text "<attached:"; star ws;
        Group 1 (plus (Class (Char.isnt ">"))); lit ">"].

(** [/(<Media omitted>|image omitted|video omitted|audio omitted|document
    omitted|Contact card omitted|Location: https:\/\/maps\.google\.com)/i] *)
Definition omittedPhrases : list string :=
  ["<Media omitted>"; "image omitted"; "video omitted"; "audio omitted";
   "document omitted"; "Contact card omitted";
   "Location: https://maps.google.com"]%string.

Definition mediaOmitted : regex := Group 1 (alts (map texti omittedPhrases)).

(** [/(\d{1,2}):(\d{2})(?::(\d{2}))?(?:\s*([AP]M))?/] in [parseDate] *)
Definition timeParts : regex :=
  seqs [Group 1 (d 1 2); lit ":"; Group 2 (d 2 2);
        opt (seqs [lit ":"; Group 3 (d 2 2)]);
        opt (seqs [star ws; Group 4 (seqs [Class (Char.oneOf "AP"); lit "M"])])].

Definition extensions : list string :=
  ["jpg"; "jpeg"; "png"; "gif"; "webp"; "mp4"; "3gp"; "mov"; "avi"; "mkv";
   "webm"; "opus"; "mp3"; "aac"; "m4a"; "wav"; "pdf"; "doc"; "docx"; "xls";
   "xlsx"; "ppt"; "pptx"; "txt"; "vcf"]%string.

(** [/\.(jpg|jpeg|...|vcf)$/i] in [extractMediaInfo] *)
Definition mediaExtensions : regex :=
  seqs [lit "."; Group 1 (alts (map texti extensions)); Eol].

(** [/^([\w\-]+(?:\s+[\w\-]+)*\.\w{2,4})(?:\s|$)/] in [extractMediaInfo] *)
Definition nameChar : regex := Class (λ c, Char.word c || Char.lit "-" c).
Definition filenamePattern : regex :=
  seqs [Bol;
        Group 1 (seqs [plus nameChar; star (seqs [plus ws; plus nameChar]);
                       lit "."; times 2 4 (Class Char.word)]);
        Alt ws Eol].

(** *** [parseDate] *)

(** [null] and [undefined] arguments are [None]: calling [split] or [match]
    on them throws, and the [catch] turns that into [null]. *)
Definition parseDate (dateStr timeStr : option jsstring) : option Z :=
  dateStr ← dateStr;
  timeStr ← timeStr;
  let dateParts := Str.split (Char.oneOf "/.") dateStr in
  match exec timeParts timeStr with
  | None => None
  | Some tp =>
      if bool_decide (length dateParts < 3)%nat then None
      else
        let nums := map ParseInt.parseInt dateParts in
        let day := mjoin (nums !! 0%nat) in
        let month := mjoin (nums !! 1%nat) in
        let year := mjoin (nums !! 2%nat) in
        (* Handle 2-digit years; comparisons with NaN are false *)
        let year :=
          (λ y, if y <? 100 then y + (if y <? 50 then 2000 else 1900) else y)
            <$> year in
        let hours := group tp 1 ≫= ParseInt.parseInt in
        let minutes := group tp 2 ≫= ParseInt.parseInt in
        let seconds :=
          match group tp 3 with
          | Some s => if Str.truthy s then ParseInt.parseInt s else Some 0
          | None => Some 0
          end in
        let period := group tp 4 in
        (* Handle 12-hour format *)
        let hours :=
          if bool_decide (period = Some (js "PM"))
          then (λ h, if bool_decide (h ≠ 12) then h + 12 else h) <$> hours
          else hours in
        let hours :=
          if bool_decide (period = Some (js "AM"))
          then (λ h, if bool_decide (h = 12) then 0 else h) <$> hours
          else hours in
        let date :=
          JSDate.make year ((λ m, m - 1) <$> month) day hours minutes seconds in
        (* Check if date is valid and components match (no rollover) *)
        match date, year, month, day with
        | Some t, Some y, Some m, Some dd =>
            if bool_decide (JSDate.getFullYear t ≠ y)
               || bool_decide (JSDate.getMonth t ≠ m - 1)
               || bool_decide (JSDate.getDate t ≠ dd)
            then None else Some t
        | _, _, _, _ => None
        end
  end.

(** *** [getMediaType] *)

(** The values of the [types] table, ['omitted'] and ['file'].  The table
    is an object literal, so a look-up also finds what [Object.prototype]
    provides: of its property names only [constructor] and [__proto__] are
    their own lower case, and for these the look-up yields a truthy object
    that is no media type name ([inherited]). *)
Inductive mediaType : Type :=
| image | video | audio | document | contact | omitted | file
| inherited (key : jsstring).

#[global] Instance mediaType_eq_dec : EqDecision mediaType.
Proof. solve_decision. Defined.

Definition types : list (string * mediaType) :=
  [("jpg", image); ("jpeg", image); ("png", image); ("gif", image);
   ("webp", image);
   ("mp4", video); ("3gp", video); ("mov", video); ("avi", video);
   ("mkv", video); ("webm", video);
   ("opus", audio); ("mp3", audio); ("aac", audio); ("m4a", audio);
   ("wav", audio);
   ("pdf", document); ("doc", document); ("docx", document);
   ("xls", document); ("xlsx", document); ("ppt", document);
   ("pptx", document); ("txt", document);
   ("vcf", contact)]%string.

(** [types[ext]] *)
Definition typesLookup (ext : jsstring) : option mediaType :=
  match list_find (λ kv, js kv.1 = ext) types with
  | Some (_, kv) => Some kv.2
  | None =>
      if bool_decide (ext = js "constructor") || bool_decide (ext = js "__proto__")
      then Some (inherited ext)
      else None
  end.

(** The values of the [types] table. *)
Definition kinds : list mediaType := [image; video; audio; document; contact].

Definition getMediaType (filename : jsstring) : mediaType :=
  if negb (Str.truthy filename) then omitted
  else
    let ext := Str.toLowerCase (default [] (Str.pop (Str.split (Char.lit ".") filename))) in
    default file (typesLookup ext).

(** *** [extractMediaInfo] *)

Module MediaInfo.
Record t : Type := Build {
  hasMedia : bool;
  filename : option jsstring;
  type : option mediaType;
  text : jsstring
}.
End MediaInfo.

(** [match && mediaExtensions.test(match[1])], giving [match[1]]: the file
    name the text starts with, when its extension is a known one. *)
Definition leadingFilename (text : jsstring) : option jsstring :=
  m ← exec filenamePattern text;
  name ← group m 1;
  if test mediaExtensions name then Some name else None.

Definition extractMediaInfo (text : jsstring) : MediaInfo.t :=
  (* Check for explicit attachment tag *)
  match exec attachment text with
  | Some attachmentMatch =>
      let filename := Str.trim (default [] (group attachmentMatch 1)) in
      MediaInfo.Build true (Some filename) (Some (getMediaType filename))
                      (Str.trim (remove attachment text))
  | None =>
      (* Check for filename at start of message *)
      match leadingFilename text with
      | Some name =>
          MediaInfo.Build true (Some name) (Some (getMediaType name))
                          (Str.trim (Str.substring (length name) text))
      | None =>
          (* Check for omitted media *)
          if test mediaOmitted text
          then MediaInfo.Build true None (Some omitted) text
          else MediaInfo.Build false None None text
      end
  end.

(** *** [parseLine] *)

(** The two values of [reason]. *)
Inductive reason : Type := InvalidDate | NoPatternMatch.

Definition reasonText (r : reason) : jsstring :=
  match r with
  | InvalidDate => js "Invalid date format"
  | NoPatternMatch => js "No matching pattern"
  end.

Module Message.
Record t : Type := Build {
  date : Z;
  sender : jsstring;
  text : jsstring;
  isSystem : bool;
  hasMedia : bool;
  mediaType : option mediaType;
  mediaFilename : option jsstring;
  raw : jsstring
}.
End Message.

(** What [parseLine] returns when it does not return [null]: the object
    with [failed: true], or a message. *)
Inductive parsed : Type :=
| Failed (lineNumber : nat) (line : jsstring) (reason : reason)
| Parsed (msg : Message.t).

(** The message built from a match of [bracket] or [dash].  Groups 3 and 4
    are defined in every such match ([line_groups_defined] below), so the
    [default] is never taken. *)
Definition userMessage (date : Z) (m : matched) (line : jsstring) : Message.t :=
  let mediaInfo := extractMediaInfo (default [] (group m 4)) in
  Message.Build date (Str.trim (default [] (group m 3)))
                (MediaInfo.text mediaInfo) false
                (MediaInfo.hasMedia mediaInfo) (MediaInfo.type mediaInfo)
                (MediaInfo.filename mediaInfo) line.

Definition parseLine (line : jsstring) (lineNumber : nat) : option parsed :=
  let line := Str.trim line in
  if negb (Str.truthy line) then None
  else
    (* Try bracket format first *)
    match exec bracket line with
    | Some m =>
        match parseDate (group m 1) (group m 2) with
        | None => Some (Failed lineNumber line InvalidDate)
        | Some date => Some (Parsed (userMessage date m line))
        end
    | None =>
        (* Try dash format *)
        match exec dash line with
        | Some m =>
            match parseDate (group m 1) (group m 2) with
            | None => Some (Failed lineNumber line InvalidDate)
            | Some date => Some (Parsed (userMessage date m line))
            end
        | None =>
            (* Try system message format *)
            let noMatch := Some (Failed lineNumber line NoPatternMatch) in
            match exec systemDash line with
            | Some m =>
                let body := default [] (group m 3) in
                if negb (Str.includes ":" body) then
                  match parseDate (group m 1) (group m 2) with
                  | None => Some (Failed lineNumber line InvalidDate)
                  | Some date =>
                      Some (Parsed (Message.Build date (js "System")
                                      (Str.trim body) true false None None line))
                  end
                else noMatch
            | None => noMatch
            end
        end
    end.

(** *** [parse] and [getFailedLines] *)

Module FailedLine.
Record t : Type := Build {
  lineNumber : nat;
  content : jsstring;
  reason : reason
}.
End FailedLine.

Module Stats.
Record t : Type := Build {
  totalLines : nat;
  parsedMessages : nat;
  failedLines : nat;
  emptyLines : nat;
  mediaMessages : nat;
  systemMessages : nat
}.
End Stats.

Module Result.
Record t : Type := Build {
  messages : list Message.t;
  failedLines : list FailedLine.t;
  stats : Stats.t
}.
End Result.

(** The parser object: [this.failedLines] ([this.patterns] is constant). *)
Record parser : Type := Parser { failedLines : list FailedLine.t }.

(** [new MessageParser()] *)
Definition new : parser := Parser [].

Definition countEmpty (st : Stats.t) : Stats.t :=
  let '(Stats.Build t p f e m s) := st in Stats.Build t p f (S e) m s.

Definition countFailed (st : Stats.t) : Stats.t :=
  let '(Stats.Build t p f e m s) := st in Stats.Build t p (S f) e m s.

Definition countParsed (msg : Message.t) (st : Stats.t) : Stats.t :=
  let '(Stats.Build t p f e m s) := st in
  Stats.Build t (S p) f e
    (if Message.hasMedia msg then S m else m)
    (if Message.isSystem msg then S s else s).

(** The body of the [for] loop over [lines], from index [i] on. *)
Fixpoint parseLines (lines : list jsstring) (i : nat) (this : parser)
    (messages : list Message.t) (stats : Stats.t)
    : parser * list Message.t * Stats.t :=
  match lines with
  | [] => (this, messages, stats)
  | l :: lines' =>
      let line := Str.trim l in
      (* Skip empty lines *)
      if negb (Str.truthy line)
      then parseLines lines' (S i) this messages (countEmpty stats)
      else
        match parseLine line (i + 1) with
        | None => parseLines lines' (S i) this messages (countEmpty stats)
        | Some (Failed lineNumber line' reason) =>
            parseLines lines' (S i)
              (Parser (failedLines this
                       ++ [FailedLine.Build lineNumber line' reason]))
              messages (countFailed stats)
        | Some (Parsed msg) =>
            parseLines lines' (S i) this (messages ++ [msg])
                       (countParsed msg stats)
        end
  end.

(** [parse(content)]: the returned object and the parser afterwards. The
    returned [failedLines] is the array [this.failedLines] refers to. *)
Definition parse (this : parser) (content : jsstring) : Result.t * parser :=
  let lines := Str.split (Char.lit "010") content in
  let this := Parser [] in
  let stats := Stats.Build (length lines) 0 0 0 0 0 in
  let '(this, messages, stats) := parseLines lines 0 this [] stats in
  (Result.Build messages (failedLines this) stats, this).

Definition getFailedLines (this : parser) : list FailedLine.t :=
  failedLines this.

(** *** What one line contributes to the result of [parse] *)

(** The event of a line, when it has one. *)
Definition lineEvent (l : jsstring) : option Message.t :=
  match parseLine l 0 with
  | Some (Parsed msg) => Some msg
  | _ => None
  end.

(** The diagnostic of the line with number [n], when it has one. *)
Definition lineDiagnostic (n : nat) (l : jsstring) : option FailedLine.t :=
  match parseLine l n with
  | Some (Failed lineNumber line reason) =>
      Some (FailedLine.Build lineNumber line reason)
  | _ => None
  end.

(** The diagnostic [f] moved down by [k] lines. *)
Definition shiftLine (k : nat) (f : FailedLine.t) : FailedLine.t :=
  FailedLine.Build (k + FailedLine.lineNumber f) (FailedLine.content f)
                   (FailedLine.reason f).

(** *** [getParticipants] and [getDateRange] *)

(** [set.add(x)] on a [Set] of strings, kept in insertion order. *)
Definition setAdd (set : list jsstring) (x : jsstring) : list jsstring :=
  if bool_decide (x ∈ set) then set else set ++ [x].

Definition getParticipants (messages : list Message.t) : list jsstring :=
  let participants :=
    foldl (λ participants msg,
             if negb (Message.isSystem msg)
                && negb (bool_decide (Message.sender msg = js "System"))
             then setAdd participants (Message.sender msg)
             else participants)
          [] messages in
  Str.sort participants.

(** The senders [getParticipants] collects. *)
Definition participant (msg : Message.t) : Prop :=
  Message.isSystem msg = false ∧ Message.sender msg ≠ js "System".

(** The body of the [forEach] of [getDateRange].  The [date] of a message is
    a [Date] object, which is truthy. *)
Definition rangeStep : Z * Z → Message.t → Z * Z :=
  λ '(start, end_) msg,
    let start :=
      if (Message.date msg <? start)%Z then Message.date msg else start in
    let end_ :=
      if (end_ <? Message.date msg)%Z then Message.date msg else end_ in
    (start, end_).

(** [getDateRange(messages)]: [start] and [end], [null] on an empty array. *)
Definition getDateRange (messages : list Message.t) : option Z * option Z :=
  match messages with
  | [] => (None, None)
  | first :: _ =>
      let '(start, end_) :=
        foldl rangeStep (Message.date first, Message.date first) messages in
      (Some start, Some end_)
  end.

(** A line is blank when nothing is left of it after trimming: the lines the
    loop of [parse] skips. *)
Definition blank (l : jsstring) : bool := negb (Str.truthy (Str.trim l)).

(** *** A phrase occurring in a text, whatever the case of its letters

    Written from the words of the specification, to compare the pattern
    [mediaOmitted] with: the text has a run of code units that equals the
    phrase once the ASCII letters of both are put in one case. *)

Fixpoint prefixCI (phrase s : jsstring) : bool :=
  match phrase, s with
  | [], _ => true
  | a :: phrase', c :: s' =>
      (Char.canonicalize c =? Char.canonicalize a)%N && prefixCI phrase' s'
  | _ :: _, [] => false
  end.

Fixpoint occursCI (phrase s : jsstring) : bool :=
  prefixCI phrase s
  || match s with
     | [] => false
     | _ :: s' => occursCI phrase s'
     end.

End MessageParser.

(** ** The browser interfaces the archive manager calls *)

Local Open Scope nat_scope.

Abbreviation bytes := (list N).

(** A blob URL: the browser mints a new one at every [URL.createObjectURL];
    the n-th URL minted is [n].  A URL is a non-empty string, hence truthy. *)
Abbreviation url := nat.

(** [new TextDecoder('utf-8').decode(data)]: the WHATWG UTF-8 decoder without
    the [fatal] flag (a malformed sequence gives U+FFFD), a leading byte order
    mark removed, the code points written as UTF-16 code units. *)
Module TextDecoder.
Local Open Scope N_scope.

(** A sequence in progress: code point so far, bytes still needed, and
    the bounds the next byte has to respect. *)
Definition pending : Type := N * nat * N * N.

(** A byte read when no sequence is in progress. *)
Definition lead (b : N) : list N * option pending :=
  if b <=? 127 then ([b], None)
  else if Char.between 194 223 b then ([], Some (N.land b 31, 1%nat, 128, 191))
  else if Char.between 224 239 b then
    ([], Some (N.land b 15, 2%nat,
               if b =? 224 then 160 else 128, if b =? 237 then 159 else 191))
  else if Char.between 240 244 b then
    ([], Some (N.land b 7, 3%nat,
               if b =? 240 then 144 else 128, if b =? 244 then 143 else 191))
  else ([65533], None).

Fixpoint codePoints (p : option pending) (data : bytes) : list N :=
  match data with
  | [] => match p with Some _ => [65533] | None => [] end
  | b :: data' =>
      match p with
      | None => let '(out, p') := lead b in out ++ codePoints p' data'
      | Some (cp, needed, lo, hi) =>
          if Char.between lo hi b then
            let cp' := N.lor (N.shiftl cp 6) (N.land b 63) in
            match needed with
            | S (S n) => codePoints (Some (cp', S n, 128, 191)) data'
            | _ => cp' :: codePoints None data'
            end
          else
            (* the byte is put back and read again from the initial state *)
            let '(out, p') := lead b in 65533 :: out ++ codePoints p' data'
      end
  end.

Definition codeUnits (cp : N) : jsstring :=
  if cp <? 65536 then [cp]
  else [55296 + (cp - 65536) / 1024; 56320 + (cp - 65536) mod 1024].

Definition decode (data : bytes) : jsstring :=
  let data :=
    match data with
    | 239 :: 187 :: 191 :: data' => data'
    | _ => data
    end in
  codePoints None data ≫= codeUnits.

End TextDecoder.

Module Browser.

(** The [type] option given to [new Blob]: a string of the [mimeTypes]
    table or the fallback, or what the look-up inherits from
    [Object.prototype] (see [MessageParser.mediaType]). *)
Inductive mimeType : Type :=
| mime (s : string)
| inheritedMime (key : jsstring).

Record blob : Type := Blob { parts : bytes; type : mimeType }.

(** A call into the browser, with what it returned. *)
Inductive call : Type :=
| createObjectURL (b : blob) (result : url)
| revokeObjectURL (u : option url)
| alert (message : jsstring)
| warn (message : jsstring).

(** The number of URLs minted so far and the calls made, oldest first. *)
Record t : Type := Build { minted : nat; calls : list call }.

Definition start : t := Build 0 [].

Definition create (b : blob) (w : t) : url * t :=
  (minted w, Build (S (minted w)) (calls w ++ [createObjectURL b (minted w)])).

Definition revoke (u : option url) (w : t) : t :=
  Build (minted w) (calls w ++ [revokeObjectURL u]).

(** The display handles that are live after a sequence of calls: created
    and not revoked since. *)
Definition step (l : gset url) (c : call) : gset url :=
  match c with
  | createObjectURL _ u => l ∪ {[u]}
  | revokeObjectURL (Some u) => l ∖ {[u]}
  | revokeObjectURL None | alert _ | warn _ => l
  end.

Definition live (cs : list call) : gset url := foldl step ∅ cs.

Definition isAlert (c : call) : bool :=
  match c with alert _ => true | _ => false end.

Definition isWarn (c : call) : bool :=
  match c with warn _ => true | _ => false end.

Definition isCreate (c : call) : bool :=
  match c with createObjectURL _ _ => true | _ => false end.

Definition revokes (u : url) (c : call) : bool :=
  match c with revokeObjectURL (Some v) => bool_decide (u = v) | _ => false end.

End Browser.

(** ** LRUCache ([src/zipHandler.js]) *)

Module LRUCache.

Record t : Type := Build {
  maxSize : nat;
  cache : gmap jsstring url;
  accessOrder : list jsstring
}.

(** [constructor(maxSize = 50)] *)
Definition new (maxSize : option nat) : t := Build (default 50 maxSize) ∅ [].

Definition has (this : t) (key : jsstring) : bool :=
  bool_decide (is_Some (cache this !! key)).

Definition size (this : t) : nat := base.size (cache this).

Definition get (this : t) (key : jsstring) : option url * t :=
  if negb (has this key) then (None, this)
  else
    (* Move to end (most recently used) *)
    (cache this !! key,
     Build (maxSize this) (cache this)
           (filter (λ k, k ≠ key) (accessOrder this) ++ [key])).

(** The [onEvict] argument: a function of the key and the value, called
    for its effect on the browser. *)
Definition callback : Type := option jsstring → option url → Browser.t → Browser.t.

Definition set (this : t) (key : jsstring) (value : url)
    (onEvict : option callback) (w : Browser.t) : t * Browser.t :=
  (* If already exists, just update *)
  if has this key then
    let this := Build (maxSize this) (<[key := value]> (cache this))
                      (accessOrder this) in
    ((get this key).2, w)
  else
    (* Check if we need to evict *)
    let '(this, w) :=
      if bool_decide (maxSize this ≤ size this) then
        (* shift() of an empty array and get() of a missing key are undefined *)
        let lru := head (accessOrder this) in
        let evicted := lru ≫= (λ k, cache this !! k) in
        let this' :=
          Build (maxSize this)
                (match lru with Some k => delete k (cache this) | None => cache this end)
                (tail (accessOrder this)) in
        (this', match onEvict with Some f => f lru evicted w | None => w end)
      else (this, w) in
    (Build (maxSize this) (<[key := value]> (cache this))
           (accessOrder this ++ [key]), w).

(** [clear(onEvict)].  The source visits the entries in insertion order;
    here they are visited in the order of [map_to_list]. *)
Definition clear (this : t) (onEvict : option callback) (w : Browser.t)
    : t * Browser.t :=
  let w :=
    match onEvict with
    | Some f => foldl (λ w kv, f (Some kv.1) (Some kv.2) w) w (map_to_list (cache this))
    | None => w
    end in
  (Build (maxSize this) ∅ [], w).

End LRUCache.

(** ** ZipHandler ([src/zipHandler.js]) *)

Module ZipHandler.

Record t : Type := Build {
  maxCacheSize : nat;
  urlCache : LRUCache.t;
  mediaFiles : gmap jsstring bytes;
  chatContent : option jsstring;
  chatFilename : option jsstring;
  isLoaded : bool
}.

(** [new ZipHandler(options)], given [options.maxCacheSize]: a missing or
    zero size is falsy and replaced by 50. *)
Definition new (maxCacheSize : option nat) : t :=
  let maxCacheSize :=
    match maxCacheSize with
    | Some (S n) => S n
    | Some O | None => 50
    end in
  Build maxCacheSize (LRUCache.new (Some maxCacheSize)) ∅ None None false.

Definition withCache (this : t) (c : LRUCache.t) : t :=
  Build (maxCacheSize this) c (mediaFiles this) (chatContent this)
        (chatFilename this) (isLoaded this).

Definition mediaExtensions : list string :=
  ["jpg"; "jpeg"; "png"; "gif"; "webp";
   "mp4"; "3gp"; "mov"; "avi"; "mkv"; "webm";
   "opus"; "mp3"; "aac"; "m4a"; "wav";
   "pdf"; "doc"; "docx"; "xls"; "xlsx"; "ppt"; "pptx"; "txt"; "vcf"]%string.

(** [filename.split('.').pop().toLowerCase()] *)
Definition extension (filename : jsstring) : jsstring :=
  Str.toLowerCase (default [] (Str.pop (Str.split (Char.lit ".") filename))).

Definition isMediaFile (filename : jsstring) : bool :=
  if negb (Str.truthy filename) then false
  else bool_decide (extension filename ∈ map js mediaExtensions).

Definition mimeTypes : list (string * string) :=
  [("jpg", "image/jpeg"); ("jpeg", "image/jpeg"); ("png", "image/png");
   ("gif", "image/gif"); ("webp", "image/webp");
   ("mp4", "video/mp4"); ("3gp", "video/3gpp"); ("mov", "video/quicktime");
   ("avi", "video/x-msvideo"); ("mkv", "video/x-matroska");
   ("webm", "video/webm");
   ("opus", "audio/ogg"); ("mp3", "audio/mpeg"); ("aac", "audio/aac");
   ("m4a", "audio/mp4"); ("wav", "audio/wav");
   ("pdf", "application/pdf"); ("doc", "application/msword");
   ("docx", "application/vnd.openxmlformats-officedocument.wordprocessingml.document");
   ("xls", "application/vnd.ms-excel");
   ("xlsx", "application/vnd.openxmlformats-officedocument.spreadsheetml.sheet");
   ("ppt", "application/vnd.ms-powerpoint");
   ("pptx", "application/vnd.openxmlformats-officedocument.presentationml.presentation");
   ("txt", "text/plain"); ("vcf", "text/vcard")]%string.

Definition getMimeType (filename : jsstring) : Browser.mimeType :=
  let ext := extension filename in
  match list_find (λ kv, js kv.1 = ext) mimeTypes with
  | Some (_, kv) => Browser.mime kv.2
  | None =>
      if bool_decide (ext = js "constructor") || bool_decide (ext = js "__proto__")
      then Browser.inheritedMime ext
      else Browser.mime "application/octet-stream"
  end.

Definition hasMedia (this : t) (filename : jsstring) : bool :=
  bool_decide (is_Some (mediaFiles this !! filename)).

(** The eviction callback of [getMediaURL] and of [clear]:
    [URL.revokeObjectURL(evictedUrl)]. *)
Definition revokeEvicted : LRUCache.callback :=
  λ _ evictedUrl w, Browser.revoke evictedUrl w.

(** [getMediaURL(filename)]: the result, the handler and the browser
    afterwards. *)
Definition getMediaURL (this : t) (filename : jsstring) (w : Browser.t)
    : option url * t * Browser.t :=
  if negb (Str.truthy filename) || negb (hasMedia this filename)
  then (None, this, w)
  else
    (* Check cache first *)
    let '(cached, c) := LRUCache.get (urlCache this) filename in
    let this := withCache this c in
    match cached with
    | Some u => (Some u, this, w)
    | None =>
        (* Create new blob URL *)
        let data := default [] (mediaFiles this !! filename) in
        let mimeType := getMimeType filename in
        let '(u, w) := Browser.create (Browser.Blob data mimeType) w in
        (* Store in cache with eviction callback *)
        let '(c, w) :=
          LRUCache.set (urlCache this) filename u (Some revokeEvicted) w in
        (Some u, withCache this c, w)
    end.

(** One entry of the array [preloadMedia] returns. *)
Record preloaded : Type := Preloaded {
  filename : jsstring;
  preloadedUrl : option url;
  cached : bool
}.

Fixpoint preloadMedia (this : t) (filenames : list jsstring) (w : Browser.t)
    : list preloaded * t * Browser.t :=
  match filenames with
  | [] => ([], this, w)
  | f :: fs =>
      let '(u, this, w) := getMediaURL this f w in
      let '(results, this, w) := preloadMedia this fs w in
      (Preloaded f u (bool_decide (is_Some u)) :: results, this, w)
  end.

(** A JavaScript number that is a ratio of counts. *)
Inductive number : Type :=
| Num (q : Q)
| Infinity
| NaN.

(** [getCacheStats()]: the properties of the returned object literal, in the
    order they are written.  [cacheUtilization] is given exactly; the source
    computes it in floating point. *)
Definition getCacheStats (this : t) : list (string * number) :=
  let size := LRUCache.size (urlCache this) in
  [("cacheSize", Num (inject_Z (Z.of_nat size)));
   ("maxCacheSize", Num (inject_Z (Z.of_nat (maxCacheSize this))));
   ("totalMedia", Num (inject_Z (Z.of_nat (base.size (mediaFiles this)))));
   ("cacheUtilization",
     match maxCacheSize this, size with
     | O, O => NaN
     | O, S _ => Infinity
     | S _, _ =>
         Num (Qmult (Qmake (Z.of_nat size) (Pos.of_nat (maxCacheSize this)))
                    (inject_Z 100))
     end)]%string.

(** [stats.name]: [undefined] when the object has no such property. *)
Definition property (obj : list (string * number)) (name : string)
    : option number :=
  (λ found, found.2.2) <$> list_find (λ kv, kv.1 = name) obj.

Definition evictFromCache (this : t) (filename : jsstring) (w : Browser.t)
    : t * Browser.t :=
  let '(u, c) := LRUCache.get (urlCache this) filename in
  match u with
  | Some u =>
      (withCache this
         (LRUCache.Build (LRUCache.maxSize c)
            (delete filename (LRUCache.cache c))
            (filter (λ k, k ≠ filename) (LRUCache.accessOrder c))),
       Browser.revoke (Some u) w)
  | None => (withCache this c, w)
  end.

(** [clear()] *)
Definition clear (this : t) (w : Browser.t) : t * Browser.t :=
  (* Revoke all cached URLs *)
  let '(c, w) := LRUCache.clear (urlCache this) (Some revokeEvicted) w in
  (* Clear all data *)
  (Build (maxCacheSize this) c ∅ None None false, w).

(** *** [loadZip] *)

(** What [loadZip] is given, as far as the handler can tell: something that
    is no [Blob], or a [Blob] on which decompression is unavailable, throws,
    or returns the entries of the archive ([Object.entries(unzipped)]: path
    and content, in the order the loop visits them). *)
Inductive file : Type :=
| NotABlob
| NoFflate
| Corrupt (message : jsstring)
| Unzipped (entries : list (jsstring * bytes)).

Record loaded : Type := Loaded {
  success : bool;
  chatFound : bool;
  loadedChatFilename : option jsstring;
  mediaCount : nat;
  (** [Array.from(this.mediaFiles.keys())], as a set *)
  loadedMediaFiles : gset jsstring
}.

(** [path.split('/').pop()]: the last segment of a path. *)
Definition basename (path : jsstring) : jsstring :=
  default [] (Str.pop (Str.split (Char.lit "/") path)).

(** The body of the loop over the entries. *)
Definition processEntry (this : t) (entry : jsstring * bytes) : t :=
  let '(path, data) := entry in
  let filename := basename path in
  (* Check if it's the chat file *)
  if Str.endsWith (js ".txt") filename
     && negb (from_option Str.truthy false (chatContent this))
  then
    Build (maxCacheSize this) (urlCache this) (mediaFiles this)
          (Some (TextDecoder.decode data)) (Some filename) (isLoaded this)
  (* Store media files as compressed data (not decoded yet) *)
  else if isMediaFile filename then
    Build (maxCacheSize this) (urlCache this)
          (<[filename := data]> (mediaFiles this))
          (chatContent this) (chatFilename this) (isLoaded this)
  else this.

(** [loadZip(file)]: the error thrown or the object returned, the handler
    and the browser afterwards. *)
Definition loadZip (this : t) (f : file) (w : Browser.t)
    : (jsstring + loaded) * t * Browser.t :=
  match f with
  | NotABlob => (inl (js "Invalid file provided"), this, w)
  | NoFflate =>
      (inl (js "Failed to load ZIP: fflate library not loaded"), this, w)
  | Corrupt message => (inl (js "Failed to load ZIP: " ++ message), this, w)
  | Unzipped entries =>
      (* Clear previous data *)
      let '(this, w) := clear this w in
      (* Process extracted files *)
      let this := foldl processEntry this entries in
      let this :=
        Build (maxCacheSize this) (urlCache this) (mediaFiles this)
              (chatContent this) (chatFilename this) true in
      (inr (Loaded true (from_option Str.truthy false (chatContent this))
                   (chatFilename this) (base.size (mediaFiles this))
                   (dom (mediaFiles this))),
       this, w)
  end.

(** What the loop does with an entry that is not taken as the transcript:
    it is stored under its last path segment when that names a media file. *)
Definition storeMedia (m : gmap jsstring bytes) (entry : jsstring * bytes)
    : gmap jsstring bytes :=
  if isMediaFile (basename entry.1) then <[basename entry.1 := entry.2]> m
  else m.

(** *** Runs of the handler *)

(** The calls a consumer makes on a handler. *)
Inductive op : Type :=
| GetMediaURL (filename : jsstring)
| EvictFromCache (filename : jsstring)
| Clear
| LoadZip (f : file).

Definition exec (st : t * Browser.t) (o : op) : t * Browser.t :=
  let '(this, w) := st in
  match o with
  | GetMediaURL filename =>
      let '(_, this, w) := getMediaURL this filename w in (this, w)
  | EvictFromCache filename => evictFromCache this filename w
  | Clear => clear this w
  | LoadZip f => let '(_, this, w) := loadZip this f w in (this, w)
  end.

Definition run (st : t * Browser.t) (ops : list op) : t * Browser.t :=
  foldl exec st ops.

(** *** Handlers, archives and notions the properties are stated with *)

(** The archive of the repository's tests of missing files: a transcript
    and two photos. *)
Definition photos : file :=
  Unzipped [(js "chat.txt", [67; 104; 97; 116]%N);
            (js "photo1.jpg", [1; 2; 3]%N);
            (js "photo2.jpg", [4; 5; 6]%N)].

(** The names of the repository's test "should only alert once":
    [missing0.jpg], [missing1.jpg], ... *)
Definition missingNames (n : nat) : list jsstring :=
  (λ i : nat, js ("missing" +:+ pretty i +:+ ".jpg")) <$> seq 0 n.

(** An archive with a transcript in a folder, a photo, and a second text
    file next to the transcript. *)
Definition twoTexts : list (jsstring * bytes) :=
  [(js "WhatsApp/photo.jpg", [1; 2; 3]%N);
   (js "WhatsApp/chat.txt", [72; 105]%N);
   (js "WhatsApp/notes.txt", [79; 75]%N)].

(** The handler of the repository's test "should evict least recently used
    items": [new ZipHandler({ maxCacheSize: 3 })] with [mediaFiles] filled
    directly. *)
Definition three (media : gmap jsstring bytes) : t :=
  Build 3 (LRUCache.new (Some 3)) media None None false.

(** At every point of a sequence of calls, at most [n] handles are live. *)
Definition bounded (n : nat) (cs : list Browser.call) : Prop :=
  ∀ k, size (Browser.live (take k cs)) ≤ n.

(** The cache and the browser agree: the order of use lists the cached
    names once each, the cached URLs were minted by the browser, no two
    names share one, and they are exactly the live handles. *)
Definition consistent (st : t * Browser.t) : Prop :=
  let c := urlCache st.1 in
  NoDup (LRUCache.accessOrder c)
  ∧ (∀ k, k ∈ LRUCache.accessOrder c ↔ is_Some (LRUCache.cache c !! k))
  ∧ (∀ k u, LRUCache.cache c !! k = Some u → u < Browser.minted st.2)
  ∧ (∀ k1 k2 u, LRUCache.cache c !! k1 = Some u →
                LRUCache.cache c !! k2 = Some u → k1 = k2)
  ∧ Browser.live (Browser.calls st.2) = map_img (LRUCache.cache c)
  ∧ LRUCache.size c ≤ LRUCache.maxSize c
  ∧ 1 ≤ LRUCache.maxSize c
  ∧ LRUCache.maxSize c = maxCacheSize st.1.

(** What a run preserves: the cache and the browser agree, and at every
    point so far at most one handle more than the cache may hold was live. *)
Definition safe (st : t * Browser.t) : Prop :=
  consistent st ∧ bounded (maxCacheSize st.1 + 1) (Browser.calls st.2).

(** An archive with two photos, for a handler whose cache holds one URL. *)
Definition twoPhotos : file :=
  Unzipped [(js "a.jpg", [1%N]); (js "b.jpg", [2%N])].

(** What the handler holds comes from an archive: every stored name is a
    media file name, and every cached name is a stored name. *)
Definition stocked (this : t) : Prop :=
  (∀ k, is_Some (mediaFiles this !! k) → isMediaFile k = true)
  ∧ (∀ k, is_Some (LRUCache.cache (urlCache this) !! k) →
          is_Some (mediaFiles this !! k)).

(** A call into the browser that, if it creates a URL, does so for a blob
    whose type is a value of the [mimeTypes] table. *)
Definition fromTable (c : Browser.call) : Prop :=
  match c with
  | Browser.createObjectURL b _ =>
      ∃ s, Browser.type b = Browser.mime s ∧ s ∈ mimeTypes.*2
  | _ => True
  end.

(** The calls of a consumer that concern the cache only. *)
Definition isCacheCall (o : op) : bool :=
  match o with
  | GetMediaURL _ | EvictFromCache _ => true
  | Clear | LoadZip _ => false
  end.

(** [getMemoryEstimate()], in bytes. *)
Definition getMemoryEstimate (this : t) : nat :=
  let totalSize := 0 in
  (* Estimate chat content size *)
  let totalSize :=
    match chatContent this with
    | Some content =>
        if Str.truthy content then totalSize + length content * 2
        else totalSize
    | None => totalSize
    end in
  (* Estimate compressed media size *)
  foldl (λ totalSize data, totalSize + length data) totalSize
        (map_to_list (mediaFiles this)).*2.

End ZipHandler.

(** ** MediaHandler ([src/mediaHandler.js]) *)

Module MediaHandler.

(** The strings [getMediaType] returns. *)
Inductive mediaType : Type :=
| image | video | audio | document | file | unknown.

(** The [types] table, in the order [Object.entries] visits it. *)
Definition types : list (mediaType * list string) :=
  [(image, ["jpg"; "jpeg"; "png"; "gif"; "webp"; "bmp"]);
   (video, ["mp4"; "mov"; "avi"; "wmv"; "3gp"; "mkv"; "webm"]);
   (audio, ["mp3"; "wav"; "aac"; "m4a"; "opus"; "ogg"; "wma"]);
   (document, ["pdf"; "doc"; "docx"; "xls"; "xlsx"; "ppt"; "pptx"; "txt";
               "vcf"])]%string.

Definition getMediaType (filename : jsstring) : mediaType :=
  if negb (Str.truthy filename) then unknown
  else
    let ext :=
      default [] (Str.pop (Str.split (Char.lit ".") (Str.toLowerCase filename))) in
    match list_find (λ entry, ext ∈ map js entry.2) types with
    | Some (_, entry) => entry.1
    | None => file
    end.

(** The element [createMediaElement] returns, given by the method that
    builds it and the arguments the method is called with. *)
Inductive element : Type :=
| createMissingElement (filename : jsstring)
| createImageElement (url : option url) (filename : jsstring)
| createVideoElement (url : option url) (filename : jsstring)
| createAudioElement (url : option url) (filename : jsstring)
| createDocumentElement (url : option url) (filename : jsstring)
                        (type : mediaType).

(** [createMediaElement(filename)] of a handler made from [zipHandler]: the
    element, the archive manager and the browser afterwards. *)
Definition createMediaElement (zipHandler : ZipHandler.t)
    (filename : jsstring) (w : Browser.t)
    : element * ZipHandler.t * Browser.t :=
  (* Check if media exists *)
  if negb (ZipHandler.hasMedia zipHandler filename)
  then (createMissingElement filename, zipHandler, w)
  else
    (* Get blob URL *)
    let '(url, zipHandler, w) := ZipHandler.getMediaURL zipHandler filename w in
    (* Create element based on type *)
    let type := getMediaType filename in
    (match type with
     | image => createImageElement url filename
     | video => createVideoElement url filename
     | audio => createAudioElement url filename
     | document => createDocumentElement url filename type
     | file | unknown => createDocumentElement url filename file
     end, zipHandler, w).

(** The type the parser gives a file name, as the viewer shows it: a contact
    card is shown as a document. *)
Definition shown (type : MessageParser.mediaType) : option mediaType :=
  match type with
  | MessageParser.image => Some image
  | MessageParser.video => Some video
  | MessageParser.audio => Some audio
  | MessageParser.document | MessageParser.contact => Some document
  | MessageParser.file => Some file
  | MessageParser.omitted | MessageParser.inherited _ => None
  end.

End MediaHandler.

(** ** StateManager ([src/stateManager.js])

    The state and the observers.  A subscriber is known by a number; what
    [emit] hands to the subscribers is recorded, in order, in [delivered].
    Subscribers are taken not to call back into the manager, and
    [saveToStorage] and [loadFromStorage] are left out. *)

Module StateManager.

Module Filter.
Record t : Type := Build {
  text : jsstring;
  type : jsstring;
  dateRange : option (Z * Z)
}.
End Filter.

(** The argument of [applyFilter]: an object with some of the properties of
    a filter. *)
Module Change.
Record t : Type := Build {
  text : option jsstring;
  type : option jsstring;
  dateRange : option (option (Z * Z))
}.
End Change.

Module Stats.
Record t : Type := Build {
  totalMessages : nat;
  mediaCount : nat;
  documentCount : nat;
  participants : list jsstring;
  dateRange : option Z * option Z
}.
End Stats.

Record state : Type := State {
  messages : list MessageParser.Message.t;
  filteredMessages : list MessageParser.Message.t;
  filter : Filter.t;
  stats : Stats.t
}.

(** The data of an event. *)
Inductive data : Type :=
| MessagesChanged (messages : list MessageParser.Message.t) (stats : Stats.t)
                  (totalCount filteredCount : nat)
| FilterApplied (messages : list MessageParser.Message.t) (filter : Filter.t)
                (totalCount filteredCount : nat)
| StateCleared.

(** [this.subscribers] maps an event name to the set of its callbacks, kept
    in the order they were added. *)
Record t : Type := Build {
  getState : state;
  subscribers : gmap jsstring (list nat);
  delivered : list (nat * jsstring * data)
}.

Definition initialFilter : Filter.t := Filter.Build [] (js "all") None.

Definition initialState : state :=
  State [] [] initialFilter (Stats.Build 0 0 0 [] (None, None)).

(** [new StateManager()] *)
Definition new : t := Build initialState ∅ [].

(** [subscribe(event, callback)]; the function it returns is
    [unsubscribe event callback]. *)
Definition subscribe (this : t) (event : jsstring) (callback : nat) : t :=
  let callbacks := default [] (subscribers this !! event) in
  let callbacks :=
    if bool_decide (callback ∈ callbacks) then callbacks
    else callbacks ++ [callback] in
  Build (getState this) (<[event := callbacks]> (subscribers this))
        (delivered this).

Definition unsubscribe (this : t) (event : jsstring) (callback : nat) : t :=
  match subscribers this !! event with
  | Some callbacks =>
      let callbacks := base.filter (λ c, c ≠ callback) callbacks in
      let subscribers :=
        if bool_decide (length callbacks = 0%nat)
        then delete event (subscribers this)
        else <[event := callbacks]> (subscribers this) in
      Build (getState this) subscribers (delivered this)
  | None => this
  end.

(** [emit(event, data)] *)
Definition emit (this : t) (event : jsstring) (d : data) : t :=
  match subscribers this !! event with
  | Some callbacks =>
      Build (getState this) (subscribers this)
            (delivered this ++ ((λ callback, (callback, event, d)) <$> callbacks))
  | None => this
  end.

(** [types.includes(msg.mediaType)] *)
Definition includesType (types : list MessageParser.mediaType)
    (type : option MessageParser.mediaType) : bool :=
  match type with
  | Some type => bool_decide (type ∈ types)
  | None => false
  end.

Definition isMedia (msg : MessageParser.Message.t) : bool :=
  MessageParser.Message.hasMedia msg
  && includesType [MessageParser.image; MessageParser.video; MessageParser.audio]
                  (MessageParser.Message.mediaType msg).

Definition isDocument (msg : MessageParser.Message.t) : bool :=
  MessageParser.Message.hasMedia msg
  && includesType [MessageParser.document; MessageParser.file]
                  (MessageParser.Message.mediaType msg).

Section WithLowerCase.

(** [String.prototype.toLowerCase], over all of Unicode: the text filter
    compares texts of any script, so nothing is assumed of it. *)
Variable toLowerCase : jsstring → jsstring.

(** The three tests of [filterMessages]. *)
Definition matchesText (searchText : jsstring) (msg : MessageParser.Message.t)
    : bool :=
  Str.includesStr searchText (toLowerCase (MessageParser.Message.text msg))
  || Str.includesStr searchText (toLowerCase (MessageParser.Message.sender msg)).

Definition inRange (range : Z * Z) (msg : MessageParser.Message.t) : bool :=
  let '(start, end_) := range in
  (* the date of a message is a [Date], which is truthy *)
  (start <=? MessageParser.Message.date msg)%Z
  && (MessageParser.Message.date msg <=? end_)%Z.

Definition filterMessages (messages : list MessageParser.Message.t)
    (filter : Filter.t) : list MessageParser.Message.t :=
  let filtered := messages in
  (* Text filter *)
  let filtered :=
    if Str.truthy (Filter.text filter) then
      let searchText := toLowerCase (Filter.text filter) in
      List.filter (matchesText searchText) filtered
    else filtered in
  (* Type filter *)
  let filtered :=
    if bool_decide (Filter.type filter ≠ js "all") then
      if bool_decide (Filter.type filter = js "media")
      then List.filter isMedia filtered
      else if bool_decide (Filter.type filter = js "documents")
      then List.filter isDocument filtered
      else filtered
    else filtered in
  (* Date range filter *)
  match Filter.dateRange filter with
  | Some range => List.filter (inRange range) filtered
  | None => filtered
  end.

(** The body of the loop of [calculateStats]; [participants] is the [Set],
    in insertion order. *)
Definition statsStep (stats : Stats.t) (msg : MessageParser.Message.t)
    : Stats.t :=
  let '(Stats.Build total mediaCount documentCount participants (start, end_)) :=
    stats in
  (* Count media types *)
  let '(mediaCount, documentCount) :=
    if MessageParser.Message.hasMedia msg then
      if includesType [MessageParser.image; MessageParser.video; MessageParser.audio]
                      (MessageParser.Message.mediaType msg)
      then (S mediaCount, documentCount)
      else if includesType [MessageParser.document; MessageParser.file]
                           (MessageParser.Message.mediaType msg)
      then (mediaCount, S documentCount)
      else (mediaCount, documentCount)
    else (mediaCount, documentCount) in
  (* Collect participants *)
  let participants :=
    if negb (MessageParser.Message.isSystem msg)
       && negb (bool_decide (MessageParser.Message.sender msg = js "System"))
    then MessageParser.setAdd participants (MessageParser.Message.sender msg)
    else participants in
  (* Track date range *)
  let date := MessageParser.Message.date msg in
  let start :=
    match start with
    | Some s => if (date <? s)%Z then Some date else Some s
    | None => Some date
    end in
  let end_ :=
    match end_ with
    | Some e => if (e <? date)%Z then Some date else Some e
    | None => Some date
    end in
  Stats.Build total mediaCount documentCount participants (start, end_).

Definition calculateStats (messages : list MessageParser.Message.t) : Stats.t :=
  let stats := Stats.Build (length messages) 0 0 [] (None, None) in
  let stats := foldl statsStep stats messages in
  (* Convert Set to sorted array *)
  Stats.Build (Stats.totalMessages stats) (Stats.mediaCount stats)
              (Stats.documentCount stats) (Str.sort (Stats.participants stats))
              (Stats.dateRange stats).

Definition setMessages (this : t) (messages : list MessageParser.Message.t) : t :=
  (* Calculate stats once *)
  let stats := calculateStats messages in
  (* Apply current filter *)
  let filter := filter (getState this) in
  let filteredMessages := filterMessages messages filter in
  (* Emit single event with all needed data *)
  emit (Build (State messages filteredMessages filter stats)
              (subscribers this) (delivered this))
       (js "messages:changed")
       (MessagesChanged filteredMessages stats (length messages)
                        (length filteredMessages)).

(** [{ ...this.state.filter, ...filter }] *)
Definition merge (filter : Filter.t) (change : Change.t) : Filter.t :=
  Filter.Build (default (Filter.text filter) (Change.text change))
               (default (Filter.type filter) (Change.type change))
               (default (Filter.dateRange filter) (Change.dateRange change)).

Definition applyFilter (this : t) (change : Change.t) : t :=
  let st := getState this in
  (* Update filter state *)
  let filter := merge (filter st) change in
  (* Filter messages *)
  let filteredMessages := filterMessages (messages st) filter in
  (* Emit filter applied event *)
  emit (Build (State (messages st) filteredMessages filter (stats st))
              (subscribers this) (delivered this))
       (js "filter:applied")
       (FilterApplied filteredMessages filter (length (messages st))
                      (length filteredMessages)).

Definition clearFilter (this : t) (filterType : jsstring) : t :=
  if bool_decide (filterType = js "text")
  then applyFilter this (Change.Build (Some []) None None)
  else if bool_decide (filterType = js "type")
  then applyFilter this (Change.Build None (Some (js "all")) None)
  else if bool_decide (filterType = js "dateRange")
  then applyFilter this (Change.Build None None (Some None))
  else
    (* Clear all filters *)
    applyFilter this (Change.Build (Some []) (Some (js "all")) (Some None)).

(** [clear()] *)
Definition clear (this : t) : t :=
  emit (Build initialState (subscribers this) (delivered this))
       (js "state:cleared") StateCleared.

(** The calls that change the manager. *)
Inductive op : Type :=
| SetMessages (messages : list MessageParser.Message.t)
| ApplyFilter (change : Change.t)
| ClearFilter (filterType : jsstring)
| Clear
| Subscribe (event : jsstring) (callback : nat)
| Unsubscribe (event : jsstring) (callback : nat).

Definition exec (this : t) (o : op) : t :=
  match o with
  | SetMessages messages => setMessages this messages
  | ApplyFilter change => applyFilter this change
  | ClearFilter filterType => clearFilter this filterType
  | Clear => clear this
  | Subscribe event callback => subscribe this event callback
  | Unsubscribe event callback => unsubscribe this event callback
  end.

Definition run (this : t) (ops : list op) : t := foldl exec this ops.

(** The counts an event carries are those of the messages it carries. *)
Definition counted (d : data) : Prop :=
  match d with
  | MessagesChanged messages _ totalCount filteredCount
  | FilterApplied messages _ totalCount filteredCount =>
      filteredCount = length messages ∧ filteredCount ≤ totalCount
  | StateCleared => True
  end.

(** The three tests of [filterMessages] as one: what a message has to pass
    to be kept. *)
Definition passes (filter : Filter.t) (msg : MessageParser.Message.t) : bool :=
  (if Str.truthy (Filter.text filter)
   then matchesText (toLowerCase (Filter.text filter)) msg
   else true)
  && (if bool_decide (Filter.type filter = js "media") then isMedia msg
      else if bool_decide (Filter.type filter = js "documents")
      then isDocument msg
      else true)
  && match Filter.dateRange filter with
     | Some range => inRange range msg
     | None => true
     end.

(** No event has an empty set of callbacks, and no set lists a callback
    twice. *)
Definition tidy (this : t) : Prop :=
  ∀ event callbacks, subscribers this !! event = Some callbacks →
                     callbacks ≠ [] ∧ NoDup callbacks.

End WithLowerCase.

End StateManager.

(** * Properties *)

(** ** Strings *)

Section StrFacts.

Lemma dropWhile_head p c s : p c = false → Str.dropWhile p (c :: s) = c :: s.
Proof. intros H. simpl. by rewrite H. Qed.

Lemma dropWhile_idem p s : Str.dropWhile p (Str.dropWhile p s) = Str.dropWhile p s.
Proof.
  induction s as [|c s IH]; [done|]. simpl.
  destruct (p c) eqn:E; [done|]. simpl. by rewrite E.
Qed.

Lemma dropWhile_snoc p s c :
  p c = false → Str.dropWhile p (s ++ [c]) = Str.dropWhile p s ++ [c].
Proof.
  intros H. induction s as [|a s IH]; simpl; [by rewrite H|].
  by destruct (p a).
Qed.

(** What [trim] returns is empty, or starts and ends with a code unit that
    is no white space. *)
Lemma trim_shape s :
  Str.trim s = [] ∨
  ∃ c w, Str.trim s = c :: rev (Str.dropWhile Char.space w) ∧ Char.space c = false.
Proof.
  unfold Str.trim, Str.trimEnd, Str.trimStart.
  induction s as [|a s IH]; simpl; [by left|].
  destruct (Char.space a) eqn:E; [done|]. right.
  exists a, (rev s). simpl. by rewrite dropWhile_snoc, rev_app_distr.
Qed.

Lemma trim_idem s : Str.trim (Str.trim s) = Str.trim s.
Proof.
  destruct (trim_shape s) as [->|(c & w & -> & Hc)]; [done|].
  unfold Str.trim, Str.trimEnd, Str.trimStart.
  rewrite dropWhile_head by done. simpl. rewrite rev_involutive.
  rewrite dropWhile_snoc by done.
  by rewrite dropWhile_idem, rev_app_distr.
Qed.

Lemma truthy_nil s : Str.truthy s = false ↔ s = [].
Proof. by destruct s. Qed.

Lemma split_nonempty p s : Str.split p s ≠ [].
Proof.
  destruct s as [|c s]; simpl; [done|].
  destruct (p c); [done|]. by destruct (Str.split p s).
Qed.

End StrFacts.

(** ** The matcher never runs out of fuel *)

Section RegexFacts.
Import Regex.

Lemma extends_refl st : extends st st.
Proof. by split. Qed.

Lemma extends_trans st1 st2 st3 :
  extends st1 st2 → extends st2 st3 → extends st1 st3.
Proof. unfold extends. lia. Qed.

Lemma loop_local body ids greedy :
  local body → ∀ fuel min max, local (loop fuel body ids greedy min max).
Proof.
  intros Hbody fuel.
  induction fuel as [|fuel IH]; intros min max st k k' Hk; simpl; [done|].
  rewrite (Hk st (extends_refl st)).
  set (st0 := MState (pos st) (rest st) (foldr delete (caps st) ids)).
  assert (∀ j j', (∀ st', extends st st' → j st' = j' st') →
    body st0 (λ st', if bool_decide (min = 0) && bool_decide (pos st' = pos st)
                     then None else j st')
    = body st0 (λ st', if bool_decide (min = 0) && bool_decide (pos st' = pos st)
                       then None else j' st')) as Hiter.
  { intros j j' Hj. apply Hbody. intros st' Hst'.
    destruct (_ && _); [done|]. by apply Hj. }
  rewrite (Hiter (λ st', loop fuel body ids greedy (pred min) (pred <$> max) st' k)
                 (λ st', loop fuel body ids greedy (pred min) (pred <$> max) st' k'));
    [done|].
  intros st' Hst'. apply IH. intros st'' Hst''. apply Hk.
  by eapply extends_trans.
Qed.

Lemma run_local r : local (run r).
Proof.
  induction r as [p| |a IHa b IHb|a IHa b IHb|greedy min max a IHa|i a IHa| |];
    intros st k k' Hk; simpl.
  - destruct (rest st) as [|c s] eqn:E; [done|]. destruct (p c); [|done].
    apply Hk. unfold extends. simpl. rewrite E. simpl. lia.
  - apply Hk, extends_refl.
  - apply IHa. intros st' Hst'. apply IHb. intros st'' Hst''.
    apply Hk. by eapply extends_trans.
  - by rewrite (IHa st k k' Hk), (IHb st k k' Hk).
  - by apply loop_local.
  - apply IHa. intros st' Hst'. apply Hk. exact Hst'.
  - destruct (bool_decide _); [|done]. apply Hk, extends_refl.
  - destruct (rest st); [|done]. apply Hk, extends_refl.
Qed.

(** More fuel than [min + length rest + 1] changes nothing: that bound is
    never used up, and [None] always means that the pattern does not match. *)
Lemma loop_fuel body ids greedy : local body →
  ∀ fuel fuel' min max st k,
    min + length (rest st) + 1 ≤ fuel → min + length (rest st) + 1 ≤ fuel' →
    loop fuel body ids greedy min max st k
    = loop fuel' body ids greedy min max st k.
Proof.
  intros Hbody fuel.
  induction fuel as [|fuel IH]; intros fuel' min max st k Hf Hf'; [lia|].
  destruct fuel' as [|fuel']; [lia|]. simpl.
  set (st0 := MState (pos st) (rest st) (foldr delete (caps st) ids)).
  assert (body st0 (λ st',
            if bool_decide (min = 0) && bool_decide (pos st' = pos st) then None
            else loop fuel body ids greedy (pred min) (pred <$> max) st' k)
          = body st0 (λ st',
            if bool_decide (min = 0) && bool_decide (pos st' = pos st) then None
            else loop fuel' body ids greedy (pred min) (pred <$> max) st' k))
    as ->; [|done].
  apply Hbody. intros st' [Hpos Hlen]. simpl in Hpos, Hlen.
  destruct (bool_decide (min = 0)) eqn:Hmin; simpl.
  - apply bool_decide_eq_true in Hmin as ->.
    case_bool_decide as Hsame; [done|]. apply IH; simpl; lia.
  - apply bool_decide_eq_false in Hmin. apply IH; lia.
Qed.

Lemma run_Repeat_fuel greedy min max a st k fuel :
  min + length (rest st) + 1 ≤ fuel →
  loop fuel (run a) (groups a) greedy min max st k
  = run (Repeat greedy min max a) st k.
Proof. intros H. simpl. by apply loop_fuel; [apply run_local|..]. Qed.

(** *** The groups a match is sure to set *)

Lemma sure_groups r i : i ∈ sure r → i ∈ groups r.
Proof.
  induction r; simpl; try by intros ?%elem_of_nil.
  - rewrite !elem_of_app. naive_solver.
  - rewrite !elem_of_cons. naive_solver.
Qed.

Lemma keeps_reset ids st :
  keeps ids st (MState (pos st) (rest st) (foldr delete (caps st) ids)).
Proof.
  intros i Hi. simpl. induction ids as [|j ids IH]; simpl; [done|].
  apply not_elem_of_cons in Hi as [Hij Hi].
  rewrite lookup_delete_ne by done. by apply IH.
Qed.

Lemma loop_keeps body ids greedy :
  (∀ st k res, body st k = Some res →
     ∃ st', k st' = Some res ∧ keeps ids st st') →
  ∀ fuel min max st k res,
    loop fuel body ids greedy min max st k = Some res →
    ∃ st', k st' = Some res ∧ keeps ids st st'.
Proof.
  intros Hbody fuel.
  induction fuel as [|fuel IH]; intros min max st k res; simpl; [done|].
  set (st0 := MState (pos st) (rest st) (foldr delete (caps st) ids)).
  assert (∀ res,
    body st0 (λ st', if bool_decide (min = 0) && bool_decide (pos st' = pos st)
                     then None
                     else loop fuel body ids greedy (pred min) (pred <$> max) st' k)
    = Some res → ∃ st', k st' = Some res ∧ keeps ids st st') as Hiter.
  { intros res' (st1 & H1 & Hk1)%Hbody.
    destruct (_ && _); [done|]. apply IH in H1 as (st' & H' & Hk').
    exists st'. split; [done|]. intros i Hi Hs.
    by apply Hk', Hk1, (keeps_reset ids st). }
  assert (∀ res, k st = Some res → ∃ st', k st' = Some res ∧ keeps ids st st')
    as Hstop.
  { intros res' H'. exists st. split; [done|]. by intros i _ Hs. }
  destruct (bool_decide (max = Some 0)); [by apply Hstop|].
  destruct (bool_decide (min ≠ 0)); [by apply Hiter|].
  destruct greedy.
  - destruct (body st0 _) eqn:E; [intros [= <-]; by apply Hiter|by apply Hstop].
  - destruct (k st) eqn:E; [intros [= <-]; by apply Hstop|by apply Hiter].
Qed.

Lemma run_sets r : NoDup (groups r) → ∀ st k res,
  run r st k = Some res →
  ∃ st', k st' = Some res
         ∧ (∀ i, i ∈ sure r → is_Some (caps st' !! i))
         ∧ keeps (groups r) st st'.
Proof.
  assert (∀ st (k : continuation) res, k st = Some res →
    ∃ st', k st' = Some res
           ∧ (∀ i : nat, i ∈ @nil nat → is_Some (caps st' !! i))
           ∧ keeps [] st st') as Hstay.
  { intros st k res H. exists st. split; [done|].
    split; [by intros i ?%elem_of_nil|by intros i _ ?]. }
  induction r as [p| |a IHa b IHb|a IHa b IHb|greedy min max a IHa|i a IHa| |];
    intros Hnd st k res; simpl.
  - destruct (rest st) as [|c s]; [done|]. destruct (p c); [|done].
    intros H. exists (MState (S (pos st)) s (caps st)). split; [done|].
    split; [by intros i ?%elem_of_nil|by intros i _ ?].
  - apply Hstay.
  - apply NoDup_app in Hnd as (Ha & Hab & Hb).
    intros (st1 & H1 & Hs1 & Hk1)%IHa; [|done].
    apply IHb in H1 as (st2 & H2 & Hs2 & Hk2); [|done].
    exists st2. split; [done|]. split.
    + intros i [Hi|Hi]%elem_of_app; [|by apply Hs2].
      apply Hk2; [|by apply Hs1]. by apply Hab, sure_groups.
    + intros i Hi Hs. apply not_elem_of_app in Hi as [Hia Hib].
      by apply Hk2, Hk1.
  - apply NoDup_app in Hnd as (Ha & Hab & Hb).
    destruct (run a st k) eqn:E.
    + intros [= <-]. apply IHa in E as (st' & H' & _ & Hk'); [|done].
      exists st'. split; [done|]. split; [by intros i ?%elem_of_nil|].
      intros i Hi. apply Hk'. by apply not_elem_of_app in Hi as [? ?].
    + intros (st' & H' & _ & Hk')%IHb; [|done].
      exists st'. split; [done|]. split; [by intros i ?%elem_of_nil|].
      intros i Hi. apply Hk'. by apply not_elem_of_app in Hi as [? ?].
  - intros (st' & H' & Hk')%loop_keeps.
    + exists st'. split; [done|]. split; [by intros i ?%elem_of_nil|done].
    + intros st1 k1 res1 (st' & H' & _ & Hk')%IHa; [eauto|done].
  - apply NoDup_cons in Hnd as [Hi Hnd].
    intros (st1 & H1 & Hs1 & Hk1)%IHa; [|done].
    exists (capture i st st1). split; [done|]. split.
    + intros j. simpl. rewrite lookup_insert. case_decide; [eauto|].
      intros [?|Hj]%elem_of_cons; [congruence|]. by apply Hs1.
    + intros j Hj Hs. apply not_elem_of_cons in Hj as [Hji Hj]. simpl.
      rewrite lookup_insert_ne by done. by apply Hk1.
  - case_bool_decide; [|done]. apply Hstay.
  - destruct (rest st); [|done]. apply Hstay.
Qed.

(** In a successful [exec], every group outside of alternatives and
    quantifiers is defined. *)
Lemma exec_sets r s m i :
  NoDup (groups r) → exec r s = Some m → i ∈ sure r → is_Some (group m i).
Proof.
  intros Hnd. unfold exec. generalize 0.
  induction s as [|c s IH]; intros n; simpl.
  - destruct (run r _ Some) as [st|] eqn:E; [|done].
    intros [= <-] Hi. apply (run_sets r Hnd) in E as (st' & [= <-] & Hs & _).
    by apply Hs.
  - destruct (run r _ Some) as [st|] eqn:E; [|by apply IH].
    intros [= <-] Hi. apply (run_sets r Hnd) in E as (st' & [= <-] & Hs & _).
    by apply Hs.
Qed.

End RegexFacts.

(** ** The parse pass *)

Section ParseFacts.
Import MessageParser.

(** [parseLine] returns [null] on blank lines only. *)
Lemma parseLine_null line n : parseLine line n = None ↔ blank line = true.
Proof.
  unfold parseLine, blank.
  destruct (negb (Str.truthy (Str.trim line))); [done|].
  split; [|done].
  repeat (match goal with
          | |- context [match ?x with _ => _ end] => destruct x
          end; try done).
Qed.

Lemma blank_trim line : blank (Str.trim line) = blank line.
Proof. unfold blank. by rewrite trim_idem. Qed.

(** What one round of the loop does to the counters and to the two
    arrays, for the whole rest of the input. *)
Lemma parseLines_counts lines : ∀ i this messages st this' messages' st',
  parseLines lines i this messages st = (this', messages', st') →
  Stats.totalLines st' = Stats.totalLines st
  ∧ Stats.parsedMessages st' + Stats.failedLines st' + Stats.emptyLines st'
    = Stats.parsedMessages st + Stats.failedLines st + Stats.emptyLines st
      + length lines
  ∧ length messages' + Stats.parsedMessages st
    = length messages + Stats.parsedMessages st'
  ∧ length (failedLines this') + Stats.failedLines st
    = length (failedLines this) + Stats.failedLines st'
  ∧ Stats.emptyLines st'
    = Stats.emptyLines st + length (filter (λ l, blank l = true) lines).
Proof.
  induction lines as [|l lines IH]; intros i this messages st this' messages' st'.
  { simpl. intros [= <- <- <-]. simpl. lia. }
  simpl. rewrite filter_cons. fold (blank l).
  destruct (blank l) eqn:Hb.
  - rewrite decide_True by done.
    intros H%IH. destruct st; simpl in *. lia.
  - rewrite decide_False by done.
    destruct (parseLine (Str.trim l) (i + 1)) as [[n l' r|msg]|] eqn:Hp.
    + intros H%IH. destruct st; simpl in *. rewrite length_app in H. simpl in H. lia.
    + intros H%IH. destruct st; simpl in *. rewrite length_app in H. simpl in H. lia.
    + apply parseLine_null in Hp. rewrite blank_trim in Hp. congruence.
Qed.

(** C1.  For every input text the counters returned by [parse] satisfy
    [parsedMessages + failedLines + emptyLines = totalLines], where
    [totalLines] is the number of newline-separated lines; [messages] has
    [parsedMessages] elements, [failedLines] has as many diagnostics as the
    counter of the same name says, and [emptyLines] counts exactly the
    blank lines: a line that is not blank becomes one event or one
    diagnostic, a blank line neither. *)
Theorem parse_counters (this : parser) (content : jsstring) :
  let r := (parse this content).1 in
  let s := Result.stats r in
  let lines := Str.split (Char.lit "010") content in
  Stats.parsedMessages s + Stats.failedLines s + Stats.emptyLines s
    = Stats.totalLines s
  ∧ Stats.totalLines s = length lines
  ∧ length (Result.messages r) = Stats.parsedMessages s
  ∧ length (Result.failedLines r) = Stats.failedLines s
  ∧ Stats.emptyLines s = length (filter (λ l, blank l = true) lines).
Proof.
  unfold parse. cbv zeta.
  destruct (parseLines _ 0 _ _ _) as [[this' messages'] st'] eqn:H.
  apply parseLines_counts in H. simpl in *. lia.
Qed.

(** C10.  [parse] starts by replacing [this.failedLines] with a new empty
    array, so what it returns, and the parser it leaves behind, are a
    function of [content] alone: the same as on a parser just constructed,
    whatever was parsed before.  Afterwards [getFailedLines()] is the
    [failedLines] of this very result, with nothing of earlier calls. *)
Theorem parse_forgets_earlier_calls (this : parser) (content : jsstring) :
  parse this content = parse new content
  ∧ getFailedLines (parse this content).2
    = Result.failedLines (parse new content).1.
Proof.
  split; [done|]. unfold parse, getFailedLines. cbv zeta.
  by destruct (parseLines _ 0 _ _ _) as [[this' messages'] st'].
Qed.

(** *** The groups the methods read

    [parseLine] and [extractMediaInfo] call string methods on groups of a
    match; those groups are defined in every match, so no such call is made
    on [undefined] and the embedding's [default []] is never used. *)

Lemma line_groups_defined l m i :
  Regex.exec bracket l = Some m ∨ Regex.exec dash l = Some m →
  i ∈ [1; 2; 3; 4] → is_Some (Regex.group m i).
Proof.
  intros [H|H] Hi; (eapply exec_sets; [|exact H|exact Hi]);
    apply (bool_decide_unpack _); by vm_compute.
Qed.

Lemma system_groups_defined l m i :
  Regex.exec systemDash l = Some m → i ∈ [1; 2; 3] → is_Some (Regex.group m i).
Proof.
  intros H Hi. eapply exec_sets; [|exact H|exact Hi].
  apply (bool_decide_unpack _); by vm_compute.
Qed.

Lemma media_groups_defined text m :
  Regex.exec attachment text = Some m ∨ Regex.exec filenamePattern text = Some m →
  is_Some (Regex.group m 1).
Proof.
  intros [H|H]; (eapply exec_sets; [|exact H|by left]);
    apply (bool_decide_unpack _); by vm_compute.
Qed.

(** *** The order of the line patterns *)

Lemma search_Bol r s : ∀ i, Regex.search (Regex.Seq Regex.Bol r) (S i) s = None.
Proof. induction s as [|c s IH]; intros i; simpl; [done|]. apply IH. Qed.

(** A line the bracketed pattern matches starts with an opening bracket. *)
Lemma bracket_head l m : Regex.exec bracket l = Some m → ∃ s, l = 91%N :: s.
Proof.
  unfold Regex.exec.
  change bracket with
    (Regex.Seq Regex.Bol (Regex.Seq (Regex.lit "[") (Regex.seqs (tail (tail
       ([Regex.Bol; Regex.lit "["] ++ stamp ++
        [Regex.lit "]"; Regex.plus ws;
         Regex.Group 3 (Regex.plusLazy (Regex.Class (Char.isnt ":")));
         Regex.lit ":"; Regex.star ws;
         Regex.Group 4 (Regex.star (Regex.Class Char.dot))])))))).
  destruct l as [|c s]; [done|].
  cbn [Regex.search Regex.run Regex.pos Regex.rest Regex.lit].
  rewrite bool_decide_true by done. unfold Char.lit at 1.
  destruct (N.eqb_spec c (N_of_ascii "[")) as [->|_]; [by eauto|].
  by rewrite search_Bol.
Qed.

(** A line the dashed pattern matches starts with a digit. *)
Lemma dash_head l m :
  Regex.exec dash l = Some m → ∃ c s, l = c :: s ∧ Char.digit c = true.
Proof.
  unfold Regex.exec.
  change dash with
    (Regex.Seq Regex.Bol (Regex.Seq (Regex.Group 1
       (Regex.Seq (Regex.Repeat true 1 (Some 2) (Regex.Class Char.digit))
          (Regex.seqs (tail [d 1 2; Regex.Class (Char.oneOf "/."); d 1 2;
                             Regex.Class (Char.oneOf "/."); d 2 4]))))
       (Regex.seqs (tail (tail ([Regex.Bol] ++ stamp ++
          [Regex.star ws; Regex.lit "-"; Regex.star ws;
           Regex.Group 3 (Regex.plusLazy (Regex.Class (Char.isnt ":")));
           Regex.lit ":"; Regex.star ws;
           Regex.Group 4 (Regex.star (Regex.Class Char.dot))])))))).
  destruct l as [|c s]; [done|].
  cbn [Regex.search Regex.run Regex.pos Regex.rest Regex.loop Regex.groups
       Nat.add length foldr Regex.caps].
  rewrite bool_decide_true by done.
  rewrite (bool_decide_false (Some 2 = Some 0)) by done.
  rewrite (bool_decide_true (1 ≠ 0)) by done.
  destruct (Char.digit c) eqn:Hc; [by eauto|].
  by rewrite search_Bol.
Qed.

Lemma bracket_excludes_dash l m :
  Regex.exec dash l = Some m → Regex.exec bracket l = None.
Proof.
  intros (c & s & -> & Hc)%dash_head.
  destruct (Regex.exec bracket (c :: s)) as [m'|] eqn:E; [|done].
  apply bracket_head in E as [s' [= -> _]]. done.
Qed.

(** C7.  For a line that is not blank the patterns are tried in the order
    bracketed, dashed, system, and the first that matches decides.  When the
    bracketed or the dashed pattern matches, a date and time that fail
    [parseDate] give the diagnostic [InvalidDate], and otherwise the message
    is the one read from that match: the line is never handed to a later
    pattern and never becomes [NoPatternMatch].  Only when neither matches is
    the system pattern consulted. *)
Theorem parseLine_first_match_decides (line : jsstring) (n : nat) :
  blank line = false →
  let l := Str.trim line in
  (∀ m, Regex.exec bracket l = Some m ∨ Regex.exec dash l = Some m →
     (parseDate (Regex.group m 1) (Regex.group m 2) = None →
        parseLine line n = Some (Failed n l InvalidDate))
     ∧ (∀ date, parseDate (Regex.group m 1) (Regex.group m 2) = Some date →
        parseLine line n = Some (Parsed (userMessage date m l))))
  ∧ (Regex.exec bracket l = None → Regex.exec dash l = None →
     parseLine line n =
       match Regex.exec systemDash l with
       | Some m =>
           let body := default [] (Regex.group m 3) in
           if Str.includes ":" body then Some (Failed n l NoPatternMatch)
           else
             match parseDate (Regex.group m 1) (Regex.group m 2) with
             | None => Some (Failed n l InvalidDate)
             | Some date =>
                 Some (Parsed (Message.Build date (js "System") (Str.trim body)
                                 true false None None l))
             end
       | None => Some (Failed n l NoPatternMatch)
       end).
Proof.
  intros Hb l. unfold blank in Hb. fold l in Hb.
  unfold parseLine. fold l. rewrite Hb.
  split.
  - intros m [Hm|Hm].
    + rewrite Hm. split; [by intros ->|by intros date ->].
    + rewrite (bracket_excludes_dash _ _ Hm), Hm.
      split; [by intros ->|by intros date ->].
  - intros -> ->. destruct (Regex.exec systemDash l) as [m|]; [|done].
    cbv zeta. by destruct (Str.includes ":" _).
Qed.

(** The line of the repository's test "should mark lines with unparseable
    dates as failed": it matches the bracketed pattern, day 32 of month 13
    is no date, and the outcome is [InvalidDate]. *)
Lemma parseLine_first_match_decides_witness :
  let line := js "[32/13/2024, 10:30 AM] Alice: Hello" in
  blank line = false
  ∧ parseLine line 5 = Some (Failed 5 line InvalidDate).
Proof.
  intros line. split; [reflexivity|].
  destruct (Regex.exec bracket (Str.trim line)) as [m|] eqn:E;
    [|by vm_compute in E].
  destruct (parseLine_first_match_decides line 5 eq_refl) as [H _].
  destruct (H m (or_introl E)) as [Hbad _].
  rewrite Hbad; [reflexivity|].
  vm_compute in E. injection E as <-. vm_compute. reflexivity.
Defined.

(** The transcript of section 8 of the specification: three events, two
    diagnostics ([NoPatternMatch] for line 2, [InvalidDate] for line 4), and
    the last event carries the attached photo. *)
Lemma parse_end_to_end :
  let nl := String "010" EmptyString in
  let content := js ("[1/1/2024, 10:00 AM] Alice: Hello" +:+ nl +:+
                     "bad line" +:+ nl +:+
                     "1/1/2024, 10:01 AM - Bob: Hi Alice!" +:+ nl +:+
                     "[32/13/2024, 10:02 AM] C: x" +:+ nl +:+
                     "[1/1/2024, 10:03 AM] Alice: <attached: photo.jpg> look") in
  let r := (parse new content).1 in
  length (Result.messages r) = 3
  ∧ (λ f, (FailedLine.lineNumber f, FailedLine.content f, FailedLine.reason f))
      <$> Result.failedLines r
    = [(2, js "bad line", NoPatternMatch);
       (4, js "[32/13/2024, 10:02 AM] C: x", InvalidDate)]
  ∧ (λ m, (Message.mediaFilename m, Message.mediaType m, Message.text m))
      <$> last (Result.messages r)
    = Some (Some (js "photo.jpg"), Some image, js "look").
Proof. by vm_compute. Qed.

End ParseFacts.

(** ** Dates and media *)

Section MediaFacts.
Import MessageParser.
Import Regex.

(** The matcher of a literal under the [i] flag compares a prefix. *)
Lemma run_texti (l : list ascii) : ∀ st k,
  run (seqs (map (λ a, Class (Char.ci a)) l)) st k
  = if prefixCI (map N_of_ascii l) (rest st)
    then k (MState (pos st + length l) (drop (length l) (rest st)) (caps st))
    else None.
Proof.
  induction l as [|a l IH]; intros [i s c] k; simpl.
  { by rewrite Nat.add_0_r. }
  destruct s as [|x s]; [done|]. unfold Char.ci at 1.
  destruct (Char.canonicalize x =? Char.canonicalize (N_of_ascii a))%N; [|done].
  simpl. unfold seqs in IH. rewrite IH. simpl.
  by rewrite Nat.add_succ_r.
Qed.

Lemma run_foldl_Alt rs : ∀ r st k,
  is_Some (run (foldl Alt r rs) st k)
  ↔ is_Some (run r st k) ∨ ∃ x, x ∈ rs ∧ is_Some (run x st k).
Proof.
  induction rs as [|y rs IH]; intros r st k; simpl.
  { split; [by left|]. intros [?|(x & Hx & _)]; [done|]. by apply elem_of_nil in Hx. }
  rewrite IH. simpl. split.
  - intros [H|(x & Hx & H)].
    + destruct (run r st k); [left; eauto|]. right. exists y. split; [left|done].
    + right. exists x. split; [by right|done].
  - intros [H|(x & Hx & H)].
    + left. destruct (run r st k); [eauto|]. by destruct H.
    + apply elem_of_cons in Hx as [->|Hx].
      * left. destruct (run r st k); [eauto|done].
      * right. eauto.
Qed.

Lemma search_is_Some r s : ∀ i,
  is_Some (search r i s)
  ↔ ∃ j, j ≤ length s ∧ is_Some (run r (MState (i + j) (drop j s) ∅) Some).
Proof.
  induction s as [|c s IH]; intros i; simpl.
  - split.
    + intros H. exists 0. rewrite Nat.add_0_r. split; [done|].
      destruct (run r _ Some); [eauto|]. by destruct H.
    + intros (j & Hj & H). assert (j = 0) as -> by lia.
      rewrite Nat.add_0_r in H. simpl in H. destruct (run r _ Some); [eauto|done].
  - split.
    + destruct (run r (MState i (c :: s) ∅) Some) eqn:E.
      * intros _. exists 0. rewrite Nat.add_0_r. simpl. rewrite E. split; [lia|eauto].
      * intros (j & Hj & H)%IH. exists (S j). simpl.
        replace (i + S j) with (S i + j) by lia. split; [lia|done].
    + intros ([|j] & Hj & H).
      * rewrite Nat.add_0_r in H. simpl in H.
        destruct (run r (MState i (c :: s) ∅) Some); [eauto|done].
      * destruct (run r (MState i (c :: s) ∅) Some); [eauto|].
        apply IH. exists j. simpl in H.
        replace (S i + j) with (i + S j) by lia. split; [lia|done].
Qed.

Lemma occursCI_drop phrase s :
  occursCI phrase s = true ↔ ∃ j, j ≤ length s ∧ prefixCI phrase (drop j s) = true.
Proof.
  induction s as [|c s IH]; simpl.
  - rewrite orb_false_r. split; [by exists 0|].
    intros (j & Hj & H). by assert (j = 0) as -> by lia.
  - rewrite orb_true_iff, IH. split.
    + intros [H|(j & Hj & H)]; [exists 0; split; [lia|done]|].
      exists (S j). split; [lia|done].
    + intros ([|j] & Hj & H); [by left|]. right. exists j. split; [lia|done].
Qed.

(** The pattern [mediaOmitted] finds a match exactly when one of its seven
    phrases occurs in the text, whatever the case of the ASCII letters. *)
Lemma mediaOmitted_occurs (body : jsstring) :
  test mediaOmitted body = existsb (λ p, occursCI (js p) body) omittedPhrases.
Proof.
  apply eq_true_iff_eq. unfold test, exec.
  rewrite bool_decide_eq_true, search_is_Some, existsb_exists.
  setoid_rewrite occursCI_drop.
  assert (∀ st,
    is_Some (run mediaOmitted st Some)
    ↔ ∃ p, p ∈ omittedPhrases ∧ prefixCI (js p) (rest st) = true) as Hrun.
  { intros st. unfold mediaOmitted. cbn [run].
    change (alts (map texti omittedPhrases))
      with (foldl Alt (texti "<Media omitted>") (map texti (tail omittedPhrases))).
    rewrite run_foldl_Alt. unfold texti at 1. rewrite run_texti.
    split.
    - intros [H|(x & Hx & H)].
      + exists "<Media omitted>"%string. split; [by left|].
        unfold js. by destruct (prefixCI _ _); [|destruct H].
      + apply list_elem_of_fmap in Hx as (p & -> & Hp).
        exists p. split; [by right|].
        unfold texti in H. rewrite run_texti in H.
        unfold js. by destruct (prefixCI _ _); [|destruct H].
    - intros (p & Hp & H). apply elem_of_cons in Hp as [->|Hp].
      + left. unfold js in H. rewrite H. eauto.
      + right. exists (texti p). split; [by apply list_elem_of_fmap_2|].
        unfold texti. rewrite run_texti. unfold js in H. rewrite H. eauto. }
  split.
  - intros (j & Hj & (p & Hp & H)%Hrun). exists p. simpl in H.
    split; [by apply list_elem_of_In|eauto].
  - intros (p & Hp & j & Hj & H). exists j. split; [done|].
    apply Hrun. exists p. split; [by apply list_elem_of_In|done].
Qed.

(** C8, as the source has it.  [extractMediaInfo] applies exactly one of
    four cases, tried in this order: (a) the text has an [<attached: NAME>]
    marker; (b) it starts with a file name whose extension is a known one;
    (c) one of the seven phrases of [mediaOmitted] occurs in it, whatever the
    case of the letters, the first of them being [<Media omitted>] with its
    angle brackets: then the type is [omitted], there is no file name and the
    text is kept; (d) none of these: no media. *)
Theorem extractMediaInfo_order (body : jsstring) :
  let r := extractMediaInfo body in
  match exec attachment body, leadingFilename body with
  | Some m, _ =>
      let name := Str.trim (default [] (group m 1)) in
      r = MediaInfo.Build true (Some name) (Some (getMediaType name))
                          (Str.trim (remove attachment body))
  | None, Some name =>
      r = MediaInfo.Build true (Some name) (Some (getMediaType name))
                          (Str.trim (drop (length name) body))
  | None, None =>
      r = if existsb (λ p, occursCI (js p) body) omittedPhrases
          then MediaInfo.Build true None (Some omitted) body
          else MediaInfo.Build false None None body
  end.
Proof.
  unfold extractMediaInfo. rewrite mediaOmitted_occurs.
  destruct (exec attachment body); [done|].
  by destruct (leadingFilename body).
Qed.

(** C8, as stated, fails: the phrase "media omitted" occurs in this text,
    and the text is not marked as omitted media. *)
Lemma media_omitted_needs_its_brackets :
  let body := js "media omitted" in
  occursCI (js "media omitted") body = true
  ∧ extractMediaInfo body = MediaInfo.Build false None None body.
Proof. by vm_compute. Qed.

(** With the angle brackets, in any case of the letters, it is. *)
Lemma media_omitted_with_brackets :
  let body := js "<MEDIA omitted>" in
  extractMediaInfo body = MediaInfo.Build true None (Some omitted) body.
Proof. by vm_compute. Qed.

(** *** [parseDate] *)

(** C6 fails on the source.  Minutes 99 are accepted and rolled into the
    hour: 10:99 is read as 11:39, also when it comes from a transcript line,
    whose pattern lets any two digits through; seconds 75 roll into the
    minute; and a day that is not a number beyond its first digit is read by
    its digits. *)
Theorem parseDate_adjusts_silently :
  JSDate.components <$> parseDate (Some (js "1/1/2024")) (Some (js "10:99"))
    = Some (2024, 0, 1, 11, 39, 0)%Z
  ∧ match parseLine (js "[1/1/2024, 10:99] Alice: hi") 1 with
    | Some (Parsed m) => Some (JSDate.components (Message.date m))
    | _ => None
    end = Some (2024, 0, 1, 11, 39, 0)%Z
  ∧ JSDate.components <$> parseDate (Some (js "1/1/2024")) (Some (js "10:30:75"))
    = Some (2024, 0, 1, 10, 31, 15)%Z
  ∧ JSDate.components <$> parseDate (Some (js "1x/1/2024")) (Some (js "10:30"))
    = Some (2024, 0, 1, 10, 30, 0)%Z.
Proof. by vm_compute. Qed.

(** A time that carries the date into the next day is refused, since then
    the day no longer matches. *)
Lemma parseDate_refuses_rollover_into_the_next_day :
  parseDate (Some (js "1/1/2024")) (Some (js "23:99")) = None
  ∧ parseDate (Some (js "1/1/2024")) (Some (js "11:30 PM")) ≠ None
  ∧ parseDate (Some (js "1/1/2024")) (Some (js "13:30 PM")) = None.
Proof. by vm_compute. Qed.

(** X7.  What the check after the construction does ensure: day, month and
    year of a date [parseDate] returns are the ones written in the text (the
    year moved into 1950 to 2049 when below 100). *)
Lemma parseDate_keeps_the_date (dateStr timeStr : jsstring) (t : Z) :
  parseDate (Some dateStr) (Some timeStr) = Some t →
  ∃ day month year : Z,
    take 3 (map ParseInt.parseInt (Str.split (Char.oneOf "/.") dateStr))
      = [Some day; Some month; Some year]
    ∧ JSDate.getDate t = day
    ∧ JSDate.getMonth t = (month - 1)%Z
    ∧ JSDate.getFullYear t
      = (if year <? 100 then year + (if year <? 50 then 2000 else 1900)
         else year)%Z.
Proof.
  unfold parseDate. simpl.
  destruct (exec timeParts timeStr) as [tp|]; [|done].
  case_bool_decide as Hlen; [done|].
  destruct (map ParseInt.parseInt _) as [|dd [|mm [|yy nums]]] eqn:E;
    try (apply (f_equal length) in E; rewrite length_map in E; simpl in E; lia).
  simpl. 
  destruct (JSDate.make _ _ _ _ _ _) as [t'|]; [|done].
  destruct yy as [yy|]; [|done]. destruct mm as [mm|]; [|done].
  destruct dd as [dd|]; [|done]. simpl.
  repeat case_bool_decide; simpl; try done.
  intros [= ->]. exists dd, mm, yy.
  repeat split; try done; lia.
Qed.

(** The fifth of March 2024, written with a year of two digits. *)
Lemma parseDate_keeps_the_date_witness :
  ∃ day month year : Z,
    take 3 (map ParseInt.parseInt (Str.split (Char.oneOf "/.") (js "5/3/24")))
      = [Some day; Some month; Some year]
    ∧ JSDate.getDate 1709677800000 = day
    ∧ JSDate.getMonth 1709677800000 = (month - 1)%Z
    ∧ JSDate.getFullYear 1709677800000
      = (if year <? 100 then year + (if year <? 50 then 2000 else 1900)
         else year)%Z.
Proof.
  apply (parseDate_keeps_the_date (js "5/3/24") (js "10:30 PM") 1709677800000).
  vm_compute. reflexivity.
Defined.

(** Day 31 of a month of 30 days, and day 32 of month 13, are refused. *)
Lemma parseDate_refuses_rollover_of_the_day :
  parseDate (Some (js "31/4/2024")) (Some (js "10:00")) = None
  ∧ parseDate (Some (js "32/13/2024")) (Some (js "10:00")) = None.
Proof. by vm_compute. Qed.

(** The cases of the repository's tests of [parseDate], and of section 8 of
    the specification. *)
Lemma parseDate_examples :
  JSDate.components <$> parseDate (Some (js "31/12/2023")) (Some (js "23:59:30"))
    = Some (2023, 11, 31, 23, 59, 30)%Z
  ∧ JSDate.components <$> parseDate (Some (js "31.12.2023")) (Some (js "23:59:30"))
    = Some (2023, 11, 31, 23, 59, 30)%Z
  ∧ JSDate.components <$> parseDate (Some (js "1/1/2024")) (Some (js "3:30 PM"))
    = Some (2024, 0, 1, 15, 30, 0)%Z
  ∧ JSDate.components <$> parseDate (Some (js "1/1/2024")) (Some (js "12:00 AM"))
    = Some (2024, 0, 1, 0, 0, 0)%Z
  ∧ JSDate.components <$> parseDate (Some (js "1/1/2024")) (Some (js "12:00 PM"))
    = Some (2024, 0, 1, 12, 0, 0)%Z
  ∧ JSDate.components <$> parseDate (Some (js "1/1/23")) (Some (js "12:00"))
    = Some (2023, 0, 1, 12, 0, 0)%Z
  ∧ JSDate.components <$> parseDate (Some (js "1/1/99")) (Some (js "12:00"))
    = Some (1999, 0, 1, 12, 0, 0)%Z
  ∧ parseDate (Some (js "invalid")) (Some (js "12:00")) = None
  ∧ parseDate (Some (js "1/1/2024")) (Some (js "invalid")) = None
  ∧ parseDate None None = None.
Proof. by vm_compute. Qed.

(** On every day from 1950 to 2049, [civil] reads back the year, month and
    day that [MakeDay] turns into that day. *)
Lemma civil_MakeDay_1950_2049 :
  fst (N.iter 36525
         (λ '(ok, day),
            let '(y, m, dd) := JSDate.civil day in
            (ok && (JSDate.MakeDay y m dd =? day)%Z
             && (1950 <=? y)%Z && (y <=? 2049)%Z && (0 <=? m)%Z && (m <=? 11)%Z
             && (1 <=? dd)%Z && (dd <=? 31)%Z,
             (day + 1)%Z))
         (true, JSDate.DayFromYear 1950)) = true.
Proof. vm_compute. reflexivity. Qed.

End MediaFacts.

(** ** The archive manager *)

Section ZipFacts.
Import ZipHandler.

(** *** Names that are not in the archive *)

Lemma getMediaURL_absent this f w :
  mediaFiles this !! f = None → getMediaURL this f w = (None, this, w).
Proof.
  intros H. unfold getMediaURL, hasMedia. rewrite H.
  rewrite (bool_decide_false (is_Some None)) by (by intros [? ?]).
  by rewrite orb_true_r.
Qed.

Lemma run_absent this w (names : list jsstring) :
  (∀ f, f ∈ names → mediaFiles this !! f = None) →
  run (this, w) (GetMediaURL <$> names) = (this, w).
Proof.
  induction names as [|f names IH]; intros H; [done|].
  unfold run in *. simpl. rewrite getMediaURL_absent.
  - apply IH. intros g Hg. apply H. by right.
  - apply H. by left.
Qed.

(** C2 fails on the source.  Resolving names that are not media entries
    returns [null] and leaves the handler and the browser exactly as they
    were: no set of missing names exists that could record them, the cache
    is untouched, and the object [getCacheStats] returns has no property
    [missingFiles] to report a count. *)
Theorem absent_names_leave_no_record this w (names : list jsstring) :
  (∀ f, f ∈ names → mediaFiles this !! f = None) →
  (∀ f, f ∈ names → (getMediaURL this f w).1.1 = None)
  ∧ run (this, w) (GetMediaURL <$> names) = (this, w)
  ∧ property (getCacheStats (run (this, w) (GetMediaURL <$> names)).1)
             "missingFiles" = None.
Proof.
  intros H. split; [|split].
  - intros f Hf. by rewrite getMediaURL_absent by auto.
  - by apply run_absent.
  - done.
Qed.

(** The repository's test "should provide cache statistics": one absent
    name is resolved, and [stats.missingFiles], expected to be 1, is
    [undefined]. *)
Lemma absent_names_leave_no_record_witness :
  let st := exec (new (Some 3), Browser.start) (LoadZip photos) in
  mediaFiles st.1 !! js "missing.jpg" = None
  ∧ (getMediaURL st.1 (js "missing.jpg") st.2).1.1 = None
  ∧ run st [GetMediaURL (js "missing.jpg")] = st
  ∧ property (getCacheStats (run st [GetMediaURL (js "missing.jpg")]).1)
             "missingFiles" = None.
Proof.
  intros st.
  assert (∀ f, f ∈ [js "missing.jpg"] → mediaFiles st.1 !! f = None) as H.
  { intros f ->%list_elem_of_singleton. by vm_compute. }
  destruct (absent_names_leave_no_record st.1 st.2 [js "missing.jpg"] H)
    as (H1 & H2 & H3).
  split; [by vm_compute|]. split; [apply H1; by left|].
  destruct st as [this w]. split; [exact H2|exact H3].
Defined.

(** *** The warning about too many missing files *)

Lemma filter_calls_revokes (p : Browser.call → bool) kvs : ∀ w,
  (∀ u, p (Browser.revokeObjectURL u) = false) →
  filter (λ c, p c = true)
    (Browser.calls (foldl (λ w (kv : jsstring * url),
                             revokeEvicted (Some kv.1) (Some kv.2) w) w kvs))
  = filter (λ c, p c = true) (Browser.calls w).
Proof.
  induction kvs as [|kv kvs IH]; intros w Hp; simpl; [done|].
  rewrite IH by done. unfold revokeEvicted, Browser.revoke. simpl.
  rewrite filter_app, filter_cons, decide_False, filter_nil, app_nil_r; [done|].
  by rewrite Hp.
Qed.

(** No method of the handler calls [alert] or [console.warn]: a class of
    calls that holds neither creations nor revocations is left as it is. *)
Lemma exec_calls_only_URL (p : Browser.call → bool) st o :
  (∀ b u, p (Browser.createObjectURL b u) = false) →
  (∀ u, p (Browser.revokeObjectURL u) = false) →
  filter (λ c, p c = true) (Browser.calls (exec st o).2)
  = filter (λ c, p c = true) (Browser.calls st.2).
Proof.
  intros Hc Hr. destruct st as [this w].
  assert (∀ cs c, p c = false →
    filter (λ c, p c = true) (cs ++ [c]) = filter (λ c, p c = true) cs) as Hsnoc.
  { intros cs c Hpc.
    rewrite filter_app, filter_cons, decide_False, filter_nil, app_nil_r; [done|].
    by rewrite Hpc. }
  assert (∀ this w, filter (λ c, p c = true) (Browser.calls (clear this w).2)
                    = filter (λ c, p c = true) (Browser.calls w)) as Hclear.
  { intros this' w'. unfold clear, LRUCache.clear. simpl.
    by rewrite filter_calls_revokes. }
  destruct o as [f|f| |f]; simpl.
  - unfold getMediaURL.
    destruct (negb (Str.truthy f) || negb (hasMedia this f)); [done|].
    unfold LRUCache.get.
    destruct (LRUCache.has (urlCache this) f) eqn:Hhas; simpl.
    + destruct (LRUCache.cache (urlCache this) !! f) eqn:E; [done|].
      unfold LRUCache.has in Hhas. rewrite E in Hhas.
      by apply bool_decide_eq_true in Hhas as [? ?].
    + unfold LRUCache.set. simpl. rewrite Hhas.
      case_bool_decide; simpl.
      * unfold revokeEvicted, Browser.revoke. simpl.
        by rewrite !Hsnoc by auto.
      * by rewrite Hsnoc by auto.
  - unfold evictFromCache, LRUCache.get.
    destruct (negb (LRUCache.has (urlCache this) f)); simpl; [done|].
    destruct (LRUCache.cache (urlCache this) !! f); simpl; [|done].
    unfold Browser.revoke. simpl. by rewrite Hsnoc by auto.
  - apply Hclear.
  - destruct f as [| |msg|entries]; simpl; try done.
    by apply filter_calls_revokes.
Qed.

Lemma run_calls_only_URL (p : Browser.call → bool) ops : ∀ st,
  (∀ b u, p (Browser.createObjectURL b u) = false) →
  (∀ u, p (Browser.revokeObjectURL u) = false) →
  filter (λ c, p c = true) (Browser.calls (run st ops).2)
  = filter (λ c, p c = true) (Browser.calls st.2).
Proof.
  induction ops as [|o ops IH]; intros st Hc Hr; [done|].
  unfold run in *. simpl. rewrite IH by done. by apply exec_calls_only_URL.
Qed.

Lemma js_app (a b : string) : js (a +:+ b) = js a ++ js b.
Proof. unfold js. induction a as [|c a IH]; simpl; [done|]. by f_equal. Qed.

Lemma js_inj (a b : string) : js a = js b → a = b.
Proof.
  revert b. unfold js.
  induction a as [|c a IH]; intros [|c' b]; simpl; try done.
  intros [= Hc Hab]. f_equal; [|by apply IH].
  apply (f_equal ascii_of_N) in Hc. by rewrite !ascii_N_embedding in Hc.
Qed.

Lemma missingNames_NoDup n : NoDup (missingNames n).
Proof.
  unfold missingNames. apply NoDup_fmap_2; [|apply NoDup_seq].
  intros i j H. rewrite !js_app in H.
  apply app_inv_head, app_inv_tail in H.
  by apply js_inj, (inj pretty) in H.
Qed.

Lemma photos_media :
  mediaFiles (exec (new (Some 3), Browser.start) (LoadZip photos)).1
  = <[js "photo1.jpg" := [1; 2; 3]%N]>
      (<[js "photo2.jpg" := [4; 5; 6]%N]> (∅ : gmap jsstring bytes)).
Proof. vm_compute. reflexivity. Qed.

Lemma missingNames_absent n f :
  f ∈ missingNames n →
  mediaFiles (exec (new (Some 3), Browser.start) (LoadZip photos)).1 !! f = None.
Proof.
  intros (i & -> & _)%list_elem_of_fmap.
  rewrite photos_media, js_app.
  by rewrite !lookup_insert_ne, lookup_empty.
Qed.

(** C3 fails on the source.  After the archive of the repository's test is
    loaded, 10,005 distinct names that are not in it are resolved: none of
    the calls made to the browser is an [alert] or a [console.warn], where
    the claim and the test "should only alert once" expect exactly one
    alert. *)
Theorem exhaustion_signal_never_fires :
  let names := missingNames 10005 in
  let loaded := exec (new (Some 3), Browser.start) (LoadZip photos) in
  let st := run loaded (GetMediaURL <$> names) in
  NoDup names
  ∧ length names = 10005
  ∧ (∀ f, f ∈ names → mediaFiles loaded.1 !! f = None)
  ∧ filter (λ c, Browser.isAlert c = true) (Browser.calls st.2) = []
  ∧ filter (λ c, Browser.isWarn c = true) (Browser.calls st.2) = [].
Proof.
  intros names loaded st.
  split; [apply missingNames_NoDup|].
  split; [unfold names, missingNames; by rewrite length_fmap, length_seq|].
  split; [apply missingNames_absent|].
  unfold st. rewrite !run_calls_only_URL by done.
  by vm_compute.
Qed.

(** *** Loading an archive *)

Lemma split_app_sep p a c b :
  p c = true → Str.split p (a ++ c :: b) = Str.split p a ++ Str.split p b.
Proof.
  intros Hc. induction a as [|x a IH]; simpl; [by rewrite Hc|].
  rewrite IH. destruct (p x); [done|].
  destruct (Str.split p a) eqn:E; [|done]. by apply split_nonempty in E.
Qed.

Lemma startsWith_app p s :
  Str.startsWith p s = true → ∃ s', s = p ++ s'.
Proof.
  revert s. induction p as [|a p IH]; intros s; simpl; [by eauto|].
  destruct s as [|b s]; [done|].
  intros [->%N.eqb_eq (s' & ->)%IH]%andb_true_iff. by eauto.
Qed.

(** A name that ends in [.txt] is a media file: [txt] is one of the
    document extensions. *)
Lemma endsWith_txt_isMediaFile f :
  Str.endsWith (js ".txt") f = true → isMediaFile f = true.
Proof.
  unfold Str.endsWith. intros (s' & H)%startsWith_app.
  apply (f_equal (@rev N)) in H. rewrite rev_involutive, rev_app_distr in H.
  subst f. rewrite rev_involutive.
  change (js ".txt") with ([46]%N ++ js "txt").
  unfold isMediaFile, extension, Str.pop.
  change ([46%N] ++ js "txt") with (46%N :: js "txt").
  rewrite split_app_sep by done. rewrite last_app.
  change (last (Str.split (Char.lit ".") (js "txt"))) with (Some (js "txt")).
  by destruct (rev s').
Qed.

Lemma processEntry_media this entry :
  from_option Str.truthy false (chatContent this) = true
  ∨ Str.endsWith (js ".txt") (basename entry.1) = false →
  processEntry this entry
  = Build (maxCacheSize this) (urlCache this)
          (storeMedia (mediaFiles this) entry)
          (chatContent this) (chatFilename this) (isLoaded this).
Proof.
  destruct entry as [path data]. unfold processEntry, storeMedia. simpl.
  intros [->| ->]; rewrite ?andb_false_r; simpl;
    destruct (isMediaFile (basename path)); by destruct this.
Qed.

Lemma foldl_processEntry_media entries : ∀ this,
  from_option Str.truthy false (chatContent this) = true
  ∨ (∀ e, e ∈ entries → Str.endsWith (js ".txt") (basename e.1) = false) →
  foldl processEntry this entries
  = Build (maxCacheSize this) (urlCache this)
          (foldl storeMedia (mediaFiles this) entries)
          (chatContent this) (chatFilename this) (isLoaded this).
Proof.
  induction entries as [|e entries IH]; intros this H; simpl.
  { by destruct this. }
  rewrite processEntry_media, IH; [done| |].
  - simpl. destruct H as [H|H]; [by left|]. right. intros e' He'. apply H. by right.
  - destruct H as [H|H]; [by left|]. right. apply H. by left.
Qed.

Lemma foldl_storeMedia_keeps entries : ∀ m k,
  is_Some (m !! k) → is_Some (foldl storeMedia m entries !! k).
Proof.
  induction entries as [|e entries IH]; intros m k H; simpl; [done|].
  apply IH. unfold storeMedia. destruct (isMediaFile _); [|done].
  rewrite lookup_insert. by case_decide.
Qed.

Lemma foldl_storeMedia_txt entries m p data :
  (p, data) ∈ entries → Str.endsWith (js ".txt") (basename p) = true →
  is_Some (foldl storeMedia m entries !! basename p).
Proof.
  revert m. induction entries as [|e entries IH]; intros m He Hp.
  { by apply elem_of_nil in He. }
  apply elem_of_cons in He as [<-|He]; simpl; [|by apply IH].
  apply foldl_storeMedia_keeps. unfold storeMedia. simpl.
  rewrite endsWith_txt_isMediaFile by done. rewrite lookup_insert_eq. by eauto.
Qed.

(** C9, as the source has it.  Only the last segment of a path is used.  The
    first entry whose name ends in [.txt] becomes the transcript (its text
    being not empty); every other entry, before or after it, is stored under
    its last path segment when that names a media file, and as [txt] is a
    document extension, the further [.txt] files are among the media
    entries rather than ignored. *)
Theorem loadZip_transcript_and_media this w
    (before after : list (jsstring * bytes)) (path : jsstring) (data : bytes) :
  (∀ e, e ∈ before → Str.endsWith (js ".txt") (basename e.1) = false) →
  Str.endsWith (js ".txt") (basename path) = true →
  TextDecoder.decode data ≠ [] →
  let this' := (loadZip this (Unzipped (before ++ (path, data) :: after)) w).1.2 in
  chatFilename this' = Some (basename path)
  ∧ chatContent this' = Some (TextDecoder.decode data)
  ∧ mediaFiles this' = foldl storeMedia ∅ (before ++ after)
  ∧ (∀ p d, (p, d) ∈ after → Str.endsWith (js ".txt") (basename p) = true →
       is_Some (mediaFiles this' !! basename p)).
Proof.
  intros Hbefore Hpath Hdata. unfold loadZip.
  destruct (clear this w) as [this0 w0] eqn:Hclear.
  assert (mediaFiles this0 = ∅ ∧ chatContent this0 = None) as [Hm Hc].
  { unfold clear in Hclear. destruct (LRUCache.clear _ _ _).
    by injection Hclear as <- _. }
  cbv zeta. cbn [fst snd].
  rewrite foldl_app. cbn [foldl].
  rewrite (foldl_processEntry_media before) by (by right).
  rewrite Hm, Hc.
  assert (∀ c f l m,
    processEntry (Build c f m None l false) (path, data)
    = Build c f m (Some (TextDecoder.decode data)) (Some (basename path)) false)
    as Hentry.
  { intros. unfold processEntry. cbn [chatContent]. by rewrite Hpath. }
  assert (isLoaded this0 = false) as ->.
  { unfold clear in Hclear. destruct (LRUCache.clear _ _ _).
    by injection Hclear as <- _. }
  rewrite Hentry.
  rewrite foldl_processEntry_media; last first.
  { left. cbn [chatContent from_option]. by destruct (TextDecoder.decode data). }
  cbn [chatFilename chatContent mediaFiles]. rewrite foldl_app.
  split; [done|]. split; [done|]. split; [done|].
  intros p d Hp Htxt. by eapply foldl_storeMedia_txt.
Qed.

Lemma loadZip_transcript_and_media_witness :
  let this' := (loadZip (new None) (Unzipped twoTexts) Browser.start).1.2 in
  chatFilename this' = Some (js "chat.txt")
  ∧ chatContent this' = Some (js "Hi")
  ∧ is_Some (mediaFiles this' !! js "notes.txt").
Proof.
  intros this'.
  destruct (loadZip_transcript_and_media (new None) Browser.start
              [(js "WhatsApp/photo.jpg", [1; 2; 3]%N)]
              [(js "WhatsApp/notes.txt", [79; 75]%N)]
              (js "WhatsApp/chat.txt") [72; 105]%N) as (H1 & H2 & _ & H4).
  - intros e ->%list_elem_of_singleton. by vm_compute.
  - by vm_compute.
  - by vm_compute.
  - split; [exact H1|]. split; [exact H2|].
    apply (H4 (js "WhatsApp/notes.txt") [79; 75]%N); [by left|by vm_compute].
Defined.

(** C9, as stated, fails: the second text file of the archive is retained as
    a media entry. *)
Lemma second_transcript_is_kept_as_media :
  let this' := (loadZip (new None) (Unzipped twoTexts) Browser.start).1.2 in
  chatFilename this' = Some (js "chat.txt")
  ∧ mediaFiles this' !! js "notes.txt" = Some [79; 75]%N.
Proof. by vm_compute. Qed.

(** *** The steps of [getMediaURL] *)

Lemma withCache_withCache this c c' :
  withCache (withCache this c) c' = withCache this c'.
Proof. done. Qed.

Lemma withCache_same this : withCache this (urlCache this) = this.
Proof. by destruct this. Qed.

(** A cache hit: the URL is returned, the name becomes the most recently
    used, and the browser is not called. *)
Lemma getMediaURL_hit this f w u :
  f ≠ [] → is_Some (mediaFiles this !! f) →
  LRUCache.cache (urlCache this) !! f = Some u →
  getMediaURL this f w
  = (Some u,
     withCache this
       (LRUCache.Build (LRUCache.maxSize (urlCache this))
          (LRUCache.cache (urlCache this))
          (filter (λ k, k ≠ f) (LRUCache.accessOrder (urlCache this)) ++ [f])),
     w).
Proof.
  intros Hf Hm Hc. unfold getMediaURL, hasMedia, LRUCache.get, LRUCache.has.
  rewrite (bool_decide_true _ Hm).
  rewrite bool_decide_true by (rewrite Hc; eauto).
  destruct f; [done|]. simpl. by rewrite Hc.
Qed.

(** A miss while the cache has room: a URL is created and stored. *)
Lemma getMediaURL_store this f w :
  f ≠ [] → is_Some (mediaFiles this !! f) →
  LRUCache.cache (urlCache this) !! f = None →
  LRUCache.size (urlCache this) < LRUCache.maxSize (urlCache this) →
  getMediaURL this f w
  = (Some (Browser.minted w),
     withCache this
       (LRUCache.Build (LRUCache.maxSize (urlCache this))
          (<[f := Browser.minted w]> (LRUCache.cache (urlCache this)))
          (LRUCache.accessOrder (urlCache this) ++ [f])),
     Browser.Build (S (Browser.minted w))
       (Browser.calls w ++
        [Browser.createObjectURL
           (Browser.Blob (default [] (mediaFiles this !! f)) (getMimeType f))
           (Browser.minted w)])).
Proof.
  intros Hf Hm Hc Hsize.
  unfold getMediaURL, hasMedia, LRUCache.get, LRUCache.set, LRUCache.has.
  rewrite (bool_decide_true _ Hm).
  rewrite bool_decide_false by (rewrite Hc; by intros [? ?]).
  destruct f; [done|]. simpl.
  rewrite bool_decide_false by (rewrite Hc; by intros [? ?]).
  rewrite bool_decide_false by lia. done.
Qed.

(** A miss while the cache is full: the URL is created first; then the least
    recently used entry is removed and its URL revoked; then the new URL is
    stored. *)
Lemma getMediaURL_evict this f w lru order :
  f ≠ [] → is_Some (mediaFiles this !! f) →
  LRUCache.cache (urlCache this) !! f = None →
  LRUCache.maxSize (urlCache this) ≤ LRUCache.size (urlCache this) →
  LRUCache.accessOrder (urlCache this) = lru :: order →
  getMediaURL this f w
  = (Some (Browser.minted w),
     withCache this
       (LRUCache.Build (LRUCache.maxSize (urlCache this))
          (<[f := Browser.minted w]> (delete lru (LRUCache.cache (urlCache this))))
          (order ++ [f])),
     Browser.Build (S (Browser.minted w))
       (Browser.calls w ++
        [Browser.createObjectURL
           (Browser.Blob (default [] (mediaFiles this !! f)) (getMimeType f))
           (Browser.minted w);
         Browser.revokeObjectURL (LRUCache.cache (urlCache this) !! lru)])).
Proof.
  intros Hf Hm Hc Hsize Horder.
  unfold getMediaURL, hasMedia, LRUCache.get, LRUCache.set, LRUCache.has.
  rewrite (bool_decide_true _ Hm).
  rewrite bool_decide_false by (rewrite Hc; by intros [? ?]).
  destruct f; [done|]. simpl.
  rewrite bool_decide_false by (rewrite Hc; by intros [? ?]).
  rewrite bool_decide_true by done. rewrite Horder. simpl.
  unfold revokeEvicted, Browser.revoke. simpl. by rewrite <-app_assoc.
Qed.

(** *** Eviction with a cache of three *)

(** The size of a cache written as insertions and deletions. *)
Ltac cache_size :=
  unfold LRUCache.size; cbn;
  repeat first
    [ rewrite map_size_empty
    | rewrite map_size_insert_None by (by simplify_map_eq)
    | rewrite map_size_delete_Some by (by simplify_map_eq) ];
  cbn; lia.

(** C5.  With a cache of three and four distinct known names resolved in
    the order f1, f2, f3, f4: resolving f4 removes f1, and nothing else, from
    the cache and revokes the URL f1 had, once; resolving f1 again finds
    no cached URL and creates a new one (evicting f2, by then the least
    recently used). *)
Theorem lru_evicts_the_first_of_four (media : gmap jsstring bytes)
    (f1 f2 f3 f4 : jsstring) :
  NoDup [f1; f2; f3; f4] →
  (∀ f, f ∈ [f1; f2; f3; f4] → f ≠ [] ∧ is_Some (media !! f)) →
  let blob f := Browser.Blob (default [] (media !! f)) (getMimeType f) in
  let st3 := run (three media, Browser.start)
                 [GetMediaURL f1; GetMediaURL f2; GetMediaURL f3] in
  let r4 := getMediaURL st3.1 f4 st3.2 in
  let r1 := getMediaURL r4.1.2 f1 r4.2 in
  let cache4 := LRUCache.cache (urlCache r4.1.2) in
  Browser.calls st3.2
    = [Browser.createObjectURL (blob f1) 0; Browser.createObjectURL (blob f2) 1;
       Browser.createObjectURL (blob f3) 2]
  ∧ r4.1.1 = Some 3
  ∧ Browser.calls r4.2
    = Browser.calls st3.2
      ++ [Browser.createObjectURL (blob f4) 3; Browser.revokeObjectURL (Some 0)]
  ∧ cache4 !! f1 = None ∧ cache4 !! f2 = Some 1
  ∧ cache4 !! f3 = Some 2 ∧ cache4 !! f4 = Some 3
  ∧ length (filter (λ c, Browser.revokes 0 c = true) (Browser.calls r4.2)) = 1
  ∧ r1.1.1 = Some 4
  ∧ Browser.calls r1.2
    = Browser.calls r4.2
      ++ [Browser.createObjectURL (blob f1) 4; Browser.revokeObjectURL (Some 1)].
Proof.
  intros Hnd Hknown blob.
  assert (f1 ≠ f2 ∧ f1 ≠ f3 ∧ f1 ≠ f4 ∧ f2 ≠ f3 ∧ f2 ≠ f4 ∧ f3 ≠ f4)
    as (H12 & H13 & H14 & H23 & H24 & H34).
  { repeat (apply NoDup_cons in Hnd as [? Hnd]). set_solver. }
  destruct (Hknown f1) as [N1 M1]; [set_solver|].
  destruct (Hknown f2) as [N2 M2]; [set_solver|].
  destruct (Hknown f3) as [N3 M3]; [set_solver|].
  destruct (Hknown f4) as [N4 M4]; [set_solver|].
  unfold run. cbn [foldl exec three].
  rewrite getMediaURL_store; cbn; [|done|done|done|cache_size].
  rewrite getMediaURL_store; cbn; [|done|done|by simplify_map_eq|cache_size].
  rewrite getMediaURL_store; cbn; [|done|done|by simplify_map_eq|cache_size].
  rewrite (getMediaURL_evict _ f4 _ f1 [f2; f3]); cbn;
    [|done|done|by simplify_map_eq|cache_size|done].
  rewrite (getMediaURL_evict _ f1 _ f2 [f3; f4]); cbn;
    [|done|done|by simplify_map_eq|cache_size|done].
  repeat split; by simplify_map_eq.
Qed.

Lemma lru_evicts_the_first_of_four_witness :
  let f i := js ("file" +:+ pretty (i : nat) +:+ ".jpg") in
  let media : gmap jsstring bytes :=
    list_to_map [(f 1, [1%N]); (f 2, [2%N]); (f 3, [3%N]); (f 4, [4%N])] in
  let st3 := run (three media, Browser.start)
                 [GetMediaURL (f 1); GetMediaURL (f 2); GetMediaURL (f 3)] in
  let r4 := getMediaURL st3.1 (f 4) st3.2 in
  LRUCache.has (urlCache r4.1.2) (f 1) = false
  ∧ LRUCache.has (urlCache r4.1.2) (f 4) = true
  ∧ (getMediaURL r4.1.2 (f 1) r4.2).1.1 = Some 4.
Proof.
  intros f media st3 r4.
  assert (NoDup [f 1; f 2; f 3; f 4]) as Hnd.
  { apply (bool_decide_unpack _). by vm_compute. }
  assert (∀ g, g ∈ [f 1; f 2; f 3; f 4] → g ≠ [] ∧ is_Some (media !! g)) as Hknown.
  { intros g Hg. repeat (apply elem_of_cons in Hg as [->|Hg]);
      [by vm_compute; split; eauto..|by apply elem_of_nil in Hg]. }
  pose proof (lru_evicts_the_first_of_four media (f 1) (f 2) (f 3) (f 4)
                Hnd Hknown) as H.
  cbv zeta in H. destruct H as (_ & _ & _ & H1 & _ & _ & H4 & _ & Hagain & _).
  unfold LRUCache.has. fold st3 in H1, H4, Hagain. fold r4 in H1, H4, Hagain.
  rewrite H1, H4. split; [done|]. split; [|exact Hagain].
  apply bool_decide_eq_true. eauto.
Defined.

(** *** The live display handles *)

Lemma live_snoc cs c :
  Browser.live (cs ++ [c]) = Browser.step (Browser.live cs) c.
Proof. unfold Browser.live. by rewrite foldl_snoc. Qed.

Lemma live_snoc2 cs a b :
  Browser.live (cs ++ [a; b])
  = Browser.step (Browser.step (Browser.live cs) a) b.
Proof. by rewrite (cons_middle a cs [b]), app_assoc, !live_snoc. Qed.

Lemma size_map_img (m : gmap jsstring url) :
  size (map_img m : gset url) ≤ size m.
Proof.
  induction m as [|k u m Hk _ IH] using map_first_key_ind.
  { rewrite map_img_empty_L, map_size_empty. by rewrite size_empty. }
  rewrite map_img_insert_notin_L by done.
  rewrite map_size_insert_None by done.
  rewrite size_union_alt, size_singleton.
  assert (size ((map_img m : gset url) ∖ {[u]}) ≤ size (map_img m : gset url)).
  { apply subseteq_size. set_solver. }
  lia.
Qed.

Lemma size_add_one (X : gset url) (u : url) : size (X ∪ {[u]}) ≤ size X + 1.
Proof.
  rewrite size_union_alt.
  assert (size ({[u]} ∖ X) ≤ size ({[u]} : gset url)) as H
    by (apply subseteq_size; set_solver).
  rewrite size_singleton in H. lia.
Qed.

Lemma bounded_nil n : bounded n [].
Proof.
  intros k. rewrite take_nil.
  change (Browser.live []) with (∅ : gset url). rewrite size_empty. lia.
Qed.

Lemma bounded_snoc n cs c :
  bounded n cs → size (Browser.live (cs ++ [c])) ≤ n → bounded n (cs ++ [c]).
Proof.
  intros Hcs Hc k. destruct (decide (k ≤ length cs)) as [Hk|Hk].
  - rewrite take_app_le by done. apply Hcs.
  - rewrite take_ge by (rewrite length_app; simpl; lia). done.
Qed.

Lemma bounded_weaken n m cs : n ≤ m → bounded n cs → bounded m cs.
Proof. intros Hnm H k. specialize (H k). lia. Qed.

Lemma bounded_all n cs : bounded n cs → size (Browser.live cs) ≤ n.
Proof. intros H. specialize (H (length cs)). by rewrite take_ge in H. Qed.

Lemma consistent_live_size st :
  consistent st → size (Browser.live (Browser.calls st.2)) ≤ maxCacheSize st.1.
Proof.
  intros (_ & _ & _ & _ & Hlive & Hsize & _ & Hmax).
  rewrite Hlive, <-Hmax. etrans; [apply size_map_img|done].
Qed.

Lemma safe_getMediaURL this w f :
  safe (this, w) →
  safe (exec (this, w) (GetMediaURL f))
  ∧ maxCacheSize (exec (this, w) (GetMediaURL f)).1 = maxCacheSize this.
Proof.
  intros Hsafe. pose proof Hsafe as [Hcons Hbound].
  pose proof (consistent_live_size _ Hcons) as Hlivesize.
  destruct Hcons as (Hnd & Hdom & Hmint & Hinj & Hlive & Hsize & Hpos & Hmax).
  cbn [fst snd] in *. cbn [exec].
  destruct (decide (f = [])) as [->|Hf].
  { change (getMediaURL this [] w) with (None : option url, this, w). done. }
  destruct (mediaFiles this !! f) as [data|] eqn:Hmedia; last first.
  { rewrite getMediaURL_absent by done. done. }
  clear Hsafe.
  destruct (LRUCache.cache (urlCache this) !! f) as [u|] eqn:Hc.
  - (* hit *)
    rewrite (getMediaURL_hit _ _ _ u) by (rewrite ?Hmedia; eauto).
    assert (f ∈ LRUCache.accessOrder (urlCache this)) as Hin.
    { apply Hdom. rewrite Hc. eauto. }
    split; [|done]. split; [|done]. unfold consistent. simpl.
    split; [|split; [|done]].
    + apply NoDup_app. split; [by apply NoDup_filter|]. split; [|apply NoDup_singleton].
      intros k [Hk _]%list_elem_of_filter ->%list_elem_of_singleton. done.
    + intros k. rewrite <-Hdom, elem_of_app, list_elem_of_filter, list_elem_of_singleton.
      destruct (decide (k = f)) as [->|]; naive_solver.
  - destruct (decide (LRUCache.size (urlCache this) < LRUCache.maxSize (urlCache this)))
      as [Hroom|Hfull].
    + (* a miss, with room *)
      rewrite getMediaURL_store by (rewrite ?Hmedia; eauto).
      assert (f ∉ LRUCache.accessOrder (urlCache this)) as Hnotin.
      { rewrite Hdom, Hc. by intros [? ?]. }
      split; [|done]. unfold safe, consistent. simpl. split.
      * split; [|split; [|split; [|split; [|split; [|split]]]]].
        -- apply NoDup_app. split; [done|]. split; [|apply NoDup_singleton].
           intros k Hk ->%list_elem_of_singleton. done.
        -- intros k. rewrite elem_of_app, list_elem_of_singleton, Hdom, lookup_insert.
           case_decide; naive_solver.
        -- intros k u. rewrite lookup_insert. case_decide.
           ++ intros [= <-]. lia.
           ++ intros ?%Hmint. lia.
        -- intros k1 k2 u.
           destruct (decide (k1 = f)) as [->|H1], (decide (k2 = f)) as [->|H2];
             rewrite ?lookup_insert_eq, ?lookup_insert_ne by done; try done.
           ++ intros [= <-] ?%Hmint. lia.
           ++ intros ?%Hmint [= <-]. lia.
           ++ apply Hinj.
        -- rewrite live_snoc. cbn. rewrite Hlive.
           rewrite map_img_insert_notin_L by done. set_solver.
        -- unfold LRUCache.size in *. cbn. rewrite map_size_insert_None by done. lia.
        -- done.
      * apply bounded_snoc; [done|]. rewrite live_snoc. cbn.
        pose proof (size_add_one (Browser.live (Browser.calls w)) (Browser.minted w)).
        lia.
    + (* a miss, the cache full *)
      assert (LRUCache.cache (urlCache this) ≠ ∅) as Hne.
      { intros H0. unfold LRUCache.size in *. rewrite H0, map_size_empty in Hfull. lia. }
      destruct (LRUCache.accessOrder (urlCache this)) as [|lru order] eqn:Horder.
      { apply map_choose in Hne as (k & v & Hk).
        assert (k ∈ []) as []%elem_of_nil. apply Hdom. rewrite Hk. eauto. }
      assert (is_Some (LRUCache.cache (urlCache this) !! lru)) as [old Hold].
      { apply Hdom. by left. }
      assert (lru ≠ f) as Hlru by (intros ->; congruence).
      apply NoDup_cons in Hnd as [Hlru_order Hnd].
      rewrite (getMediaURL_evict _ _ _ lru order)
        by (rewrite ?Hmedia; eauto; lia).
      rewrite Hold.
      assert (map_img (<[f:=Browser.minted w]>
                         (delete lru (LRUCache.cache (urlCache this))))
              = ({[Browser.minted w]} ∪ Browser.live (Browser.calls w)) ∖ {[old]}
                :> gset url) as Himg.
      { apply set_eq. intros x. rewrite Hlive.
        rewrite elem_of_difference, elem_of_union, elem_of_singleton,
          !elem_of_map_img, not_elem_of_singleton.
        split.
        - intros (k & Hk). destruct (decide (k = f)) as [->|Hkf].
          + rewrite lookup_insert_eq in Hk. injection Hk as <-.
            split; [by left|]. apply Hmint in Hold. lia.
          + rewrite lookup_insert_ne in Hk by done.
            destruct (decide (k = lru)) as [->|Hkl];
              [by rewrite lookup_delete_eq in Hk|].
            rewrite lookup_delete_ne in Hk by done.
            split; [right; eauto|]. intros ->. apply Hkl. by eapply Hinj.
        - intros [[->|(k & Hk)] Hx].
          + exists f. by rewrite lookup_insert_eq.
          + exists k. assert (k ≠ lru) by (intros ->; congruence).
            assert (k ≠ f) by (intros ->; congruence).
            by rewrite lookup_insert_ne, lookup_delete_ne. }
      split; [|done]. unfold safe, consistent. simpl. split.
      * split; [|split; [|split; [|split; [|split; [|split]]]]].
        -- apply NoDup_app. split; [done|]. split; [|apply NoDup_singleton].
           intros k Hk ->%list_elem_of_singleton.
           assert (is_Some (LRUCache.cache (urlCache this) !! f)) as [? ?];
             [apply Hdom; by right|congruence].
        -- intros k. rewrite elem_of_app, list_elem_of_singleton.
           destruct (decide (k = f)) as [->|Hkf].
           { rewrite lookup_insert_eq. split; [eauto|by right]. }
           rewrite lookup_insert_ne by done.
           destruct (decide (k = lru)) as [->|Hkl].
           { rewrite lookup_delete_eq. split; [by intros [?|?]|by intros [? ?]]. }
           rewrite lookup_delete_ne by done.
           rewrite <-Hdom, elem_of_cons. naive_solver.
        -- intros k u. destruct (decide (k = f)) as [->|Hkf].
           { rewrite lookup_insert_eq. intros [= <-]. lia. }
           rewrite lookup_insert_ne by done. intros Hk.
           apply lookup_delete_Some in Hk as [_ ?%Hmint]. lia.
        -- intros k1 k2 u.
           assert (∀ k, delete lru (LRUCache.cache (urlCache this)) !! k = Some u →
                        LRUCache.cache (urlCache this) !! k = Some u
                        ∧ u < Browser.minted w) as Hdel.
           { intros k [_ Hk]%lookup_delete_Some. split; [done|by eapply Hmint]. }
           destruct (decide (k1 = f)) as [->|H1], (decide (k2 = f)) as [->|H2];
             rewrite ?lookup_insert_eq, ?lookup_insert_ne by done; try done.
           ++ intros [= <-] [_ ?]%Hdel. lia.
           ++ intros [_ ?]%Hdel [= <-]. lia.
           ++ intros [? _]%Hdel [? _]%Hdel. by eapply Hinj.
        -- rewrite Himg, live_snoc2. cbn. by rewrite (comm_L (∪) (Browser.live _)).
        -- unfold LRUCache.size in *. cbn.
           rewrite map_size_insert_None by (by rewrite lookup_delete_ne).
           rewrite map_size_delete_Some by done.
           assert (size (LRUCache.cache (urlCache this)) ≠ 0)
             by (by apply map_size_non_empty_iff).
           lia.
        -- done.
      * rewrite (cons_middle _ (Browser.calls w) [_]), app_assoc.
        apply bounded_snoc; [apply bounded_snoc; [done|]|].
        -- rewrite live_snoc. cbn.
           pose proof (size_add_one (Browser.live (Browser.calls w)) (Browser.minted w)).
           lia.
        -- rewrite !live_snoc. cbn.
           rewrite (comm_L (∪) (Browser.live _)), <-Himg.
           etrans; [apply size_map_img|].
           rewrite map_size_insert_None by (by rewrite lookup_delete_ne).
           rewrite map_size_delete_Some by done.
           unfold LRUCache.size in *.
           assert (size (LRUCache.cache (urlCache this)) ≠ 0)
             by (by apply map_size_non_empty_iff).
           lia.
Qed.

Lemma filter_out_twice (f : jsstring) (l : list jsstring) :
  filter (λ k, k ≠ f) (filter (λ k, k ≠ f) l ++ [f]) = filter (λ k, k ≠ f) l.
Proof.
  rewrite filter_app, filter_cons, decide_False, filter_nil, app_nil_r by naive_solver.
  induction l as [|x l IH]; [done|].
  rewrite filter_cons. case_decide; [|done].
  rewrite filter_cons, decide_True by done. by rewrite IH.
Qed.

Lemma safe_evictFromCache this w f :
  safe (this, w) →
  safe (exec (this, w) (EvictFromCache f))
  ∧ maxCacheSize (exec (this, w) (EvictFromCache f)).1 = maxCacheSize this.
Proof.
  intros Hsafe. pose proof Hsafe as [Hcons Hbound].
  pose proof (consistent_live_size _ Hcons) as Hlivesize.
  destruct Hcons as (Hnd & Hdom & Hmint & Hinj & Hlive & Hsize & Hpos & Hmax).
  cbn [fst snd] in *. cbn [exec].
  unfold evictFromCache, LRUCache.get, LRUCache.has.
  destruct (LRUCache.cache (urlCache this) !! f) as [u|] eqn:Hc.
  - rewrite bool_decide_true by eauto. simpl.
    split; [|done]. unfold safe, consistent. simpl.
    assert (map_img (delete f (LRUCache.cache (urlCache this)))
            = Browser.live (Browser.calls w) ∖ {[u]} :> gset url) as Himg.
    { apply set_eq. intros x. rewrite Hlive.
      rewrite elem_of_difference, !elem_of_map_img, not_elem_of_singleton.
      split.
      - intros (k & Hk). destruct (decide (k = f)) as [->|Hkf];
          [by rewrite lookup_delete_eq in Hk|].
        rewrite lookup_delete_ne in Hk by done.
        split; [eauto|]. intros ->. apply Hkf. by eapply Hinj.
      - intros [(k & Hk) Hx]. exists k.
        rewrite lookup_delete_ne; [done|]. intros ->. congruence. }
    split.
    + rewrite filter_out_twice.
      split; [|split; [|split; [|split; [|split; [|split]]]]].
      * by apply NoDup_filter.
      * intros k. rewrite list_elem_of_filter.
        destruct (decide (k = f)) as [->|Hkf].
        { rewrite lookup_delete_eq. split; [by intros [? _]|by intros [? ?]]. }
        rewrite lookup_delete_ne by done. rewrite <-Hdom. naive_solver.
      * intros k v [_ Hk]%lookup_delete_Some. by eapply Hmint.
      * intros k1 k2 v [_ Hk1]%lookup_delete_Some [_ Hk2]%lookup_delete_Some.
        by eapply Hinj.
      * rewrite live_snoc. simpl. by rewrite Himg.
      * unfold LRUCache.size in *. simpl. rewrite map_size_delete_Some by done. lia.
      * done.
    + apply bounded_snoc; [done|]. rewrite live_snoc. simpl.
      etrans; [apply subseteq_size|]; [|etrans; [apply Hlivesize|lia]]. set_solver.
  - rewrite bool_decide_false by (by intros [? ?]). simpl.
    by rewrite withCache_same.
Qed.

Lemma clear_browser kvs : ∀ w,
  foldl (λ w (kv : jsstring * url), revokeEvicted (Some kv.1) (Some kv.2) w) w kvs
  = Browser.Build (Browser.minted w)
      (Browser.calls w ++ ((λ kv, Browser.revokeObjectURL (Some kv.2)) <$> kvs)).
Proof.
  induction kvs as [|kv kvs IH]; intros w; simpl.
  { rewrite app_nil_r. by destruct w. }
  rewrite IH. unfold revokeEvicted, Browser.revoke. simpl.
  by rewrite <-app_assoc.
Qed.

Lemma live_revokes (kvs : list (jsstring * url)) : ∀ cs,
  Browser.live (cs ++ ((λ kv, Browser.revokeObjectURL (Some kv.2)) <$> kvs))
  = Browser.live cs ∖ list_to_set (kvs.*2).
Proof.
  induction kvs as [|kv kvs IH]; intros cs; simpl.
  { rewrite app_nil_r. set_solver. }
  rewrite cons_middle, app_assoc. rewrite IH, live_snoc. simpl. set_solver.
Qed.

Lemma bounded_revokes n (kvs : list (jsstring * url)) : ∀ cs,
  bounded n cs →
  bounded n (cs ++ ((λ kv, Browser.revokeObjectURL (Some kv.2)) <$> kvs)).
Proof.
  induction kvs as [|kv kvs IH]; intros cs Hcs; simpl.
  { by rewrite app_nil_r. }
  rewrite cons_middle, app_assoc. apply IH, bounded_snoc; [done|].
  rewrite live_snoc. simpl.
  etrans; [apply subseteq_size|apply (bounded_all _ _ Hcs)]. set_solver.
Qed.

Lemma safe_clear this w :
  safe (this, w) →
  safe (clear this w) ∧ maxCacheSize (clear this w).1 = maxCacheSize this.
Proof.
  intros [Hcons Hbound].
  destruct Hcons as (Hnd & Hdom & Hmint & Hinj & Hlive & Hsize & Hpos & Hmax).
  cbn [fst snd] in *.
  unfold clear, LRUCache.clear. simpl. rewrite clear_browser.
  split; [|done]. unfold safe, consistent. simpl. split.
  - split; [|split; [|split; [|split; [|split; [|split]]]]]; try done.
    + apply NoDup_nil_2.
    + intros k. rewrite lookup_empty. split; [by intros ?%elem_of_nil|by intros [? ?]].
    + rewrite live_revokes, Hlive, map_img_empty_L.
      apply set_eq. intros x. rewrite elem_of_difference, elem_of_map_img.
      split; [|by intros ?%elem_of_empty].
      intros [(k & Hk) Hx]. destruct Hx.
      apply elem_of_list_to_set, list_elem_of_fmap. exists (k, x).
      split; [done|]. by apply elem_of_map_to_list.
    + unfold LRUCache.size. simpl. rewrite map_size_empty. lia.
  - by apply bounded_revokes.
Qed.

Lemma foldl_processEntry_cache entries : ∀ this,
  urlCache (foldl processEntry this entries) = urlCache this
  ∧ maxCacheSize (foldl processEntry this entries) = maxCacheSize this.
Proof.
  induction entries as [|[path data] entries IH]; intros this; cbn [foldl]; [done|].
  destruct (IH (processEntry this (path, data))) as [-> ->].
  unfold processEntry.
  destruct (_ && _); [done|]. by destruct (isMediaFile _).
Qed.

Lemma safe_loadZip this w f :
  safe (this, w) →
  safe (exec (this, w) (LoadZip f))
  ∧ maxCacheSize (exec (this, w) (LoadZip f)).1 = maxCacheSize this.
Proof.
  intros Hsafe. cbn [exec]. destruct f as [| |msg|entries]; try done.
  cbn [loadZip].
  destruct (safe_clear this w Hsafe) as [Hclear Hmax].
  destruct (clear this w) as [this0 w0]. cbn [fst snd] in *.
  destruct (foldl_processEntry_cache entries this0) as [Hc Hm].
  split; [|by rewrite Hm].
  unfold safe, consistent in *. cbn [fst snd urlCache maxCacheSize] in *.
  by rewrite Hc, Hm.
Qed.

Lemma safe_exec st o :
  safe st → safe (exec st o) ∧ maxCacheSize (exec st o).1 = maxCacheSize st.1.
Proof.
  destruct st as [this w]. destruct o as [f|f| |f].
  - apply safe_getMediaURL.
  - apply safe_evictFromCache.
  - apply safe_clear.
  - apply safe_loadZip.
Qed.

Lemma safe_run ops : ∀ st,
  safe st → safe (run st ops) ∧ maxCacheSize (run st ops).1 = maxCacheSize st.1.
Proof.
  induction ops as [|o ops IH]; intros st Hst; [done|].
  unfold run in *. simpl.
  destruct (safe_exec st o Hst) as [Ho <-]. by apply IH.
Qed.

Lemma safe_new size : safe (new size, Browser.start).
Proof.
  split; [|apply bounded_nil].
  unfold consistent, new. simpl.
  split; [apply NoDup_nil_2|].
  split; [intros k; rewrite lookup_empty; split;
            [by intros ?%elem_of_nil|by intros [? ?]]|].
  split; [by intros k u; rewrite lookup_empty|].
  split; [by intros k1 k2 u; rewrite lookup_empty|].
  split; [by rewrite map_img_empty_L|].
  unfold LRUCache.size. simpl. rewrite map_size_empty.
  destruct size as [[|n]|]; simpl; repeat split; lia.
Qed.

(** C4, as the source has it.  In every run of a handler from its
    construction on (archives loaded, names resolved, entries evicted, the
    handler cleared, in any order), after each completed call the live
    handles are exactly the cached URLs, at most [maxCacheSize] of them; and
    at every point in between, so also inside a call of [getMediaURL] that
    evicts (where the new URL is created before the evicted one is revoked:
    [getMediaURL_evict]), at most [maxCacheSize + 1] handles are live. *)
Theorem live_handles_bounded (size : option nat) (ops : list op) :
  let st := run (new size, Browser.start) ops in
  let capacity := maxCacheSize st.1 in
  capacity = maxCacheSize (new size)
  ∧ Browser.live (Browser.calls st.2) = map_img (LRUCache.cache (urlCache st.1))
  ∧ base.size (Browser.live (Browser.calls st.2)) ≤ capacity
  ∧ ∀ k, base.size (Browser.live (take k (Browser.calls st.2))) ≤ capacity + 1.
Proof.
  intros st capacity.
  destruct (safe_run ops _ (safe_new size)) as [[Hcons Hbound] Hmax].
  fold st in Hcons, Hbound, Hmax.
  split; [done|]. split; [apply Hcons|].
  split; [by apply consistent_live_size|apply Hbound].
Qed.

(** C4, as stated, fails: with a cache of one, resolving the second photo
    creates its URL while the URL of the first is still live, and revokes
    that one only afterwards; after the second of the three calls two
    handles are live. *)
Lemma two_handles_live_in_a_cache_of_one :
  let st := run (new (Some 1), Browser.start)
                [LoadZip twoPhotos; GetMediaURL (js "a.jpg"); GetMediaURL (js "b.jpg")] in
  maxCacheSize st.1 = 1
  ∧ Browser.calls st.2
    = [Browser.createObjectURL (Browser.Blob [1%N] (Browser.mime "image/jpeg")) 0;
       Browser.createObjectURL (Browser.Blob [2%N] (Browser.mime "image/jpeg")) 1;
       Browser.revokeObjectURL (Some 0)]
  ∧ Browser.live (take 2 (Browser.calls st.2)) = {[0; 1]}
  ∧ base.size (Browser.live (take 2 (Browser.calls st.2))) = 2.
Proof. by vm_compute. Qed.

End ZipFacts.

(** * Further properties *)

(** ** The parse pass, line by line *)

Section ParseOrder.
Import MessageParser.

(** The line number is only copied into the diagnostic. *)
Lemma parseLine_number line n :
  parseLine line n
  = match parseLine line 0 with
    | Some (Failed _ l r) => Some (Failed n l r)
    | other => other
    end.
Proof.
  unfold parseLine.
  repeat (match goal with
          | |- context [match ?x with _ => _ end] =>
              lazymatch x with
              | context [match _ with _ => _ end] => fail
              | _ => destruct x
              end
          end; try done).
Qed.

Lemma parseLine_trim line n : parseLine (Str.trim line) n = parseLine line n.
Proof. unfold parseLine. by rewrite trim_idem. Qed.

Lemma lineEvent_number line n :
  match parseLine line n with Some (Parsed msg) => Some msg | _ => None end
  = lineEvent line.
Proof.
  unfold lineEvent. rewrite (parseLine_number line n).
  by destruct (parseLine line 0) as [[]|].
Qed.

(** The loop of [parse], read as an accumulation over the lines. *)
Lemma parseLines_spec lines : ∀ i this messages st,
  parseLines lines i this messages st
  = (Parser (failedLines this
             ++ omap id (imap (λ j l, lineDiagnostic (i + j + 1) l) lines)),
     messages ++ omap lineEvent lines,
     Stats.Build
       (Stats.totalLines st)
       (Stats.parsedMessages st + length (omap lineEvent lines))
       (Stats.failedLines st
        + length (omap id (imap (λ j l, lineDiagnostic (i + j + 1) l) lines)))
       (Stats.emptyLines st + length (filter (λ l, blank l = true) lines))
       (Stats.mediaMessages st
        + length (filter (λ m, Message.hasMedia m = true) (omap lineEvent lines)))
       (Stats.systemMessages st
        + length (filter (λ m, Message.isSystem m = true) (omap lineEvent lines)))).
Proof.
  induction lines as [|l lines IH]; intros i this messages st.
  { simpl. rewrite !app_nil_r, !Nat.add_0_r. by destruct this, st. }
  cbn [parseLines]. rewrite parseLine_trim.
  assert (imap (λ j l0, lineDiagnostic (i + j + 1) l0) (l :: lines)
          = lineDiagnostic (i + 1) l
            :: imap (λ j l0, lineDiagnostic (S i + j + 1) l0) lines) as ->.
  { cbn [imap]. rewrite Nat.add_0_r. f_equal. apply imap_ext.
    intros j x _. simpl. f_equal. lia. }
  assert (∀ {A B} (f : A → option B) x xs,
    omap f (x :: xs)
    = match f x with Some y => y :: omap f xs | None => omap f xs end) as Hcons
    by done.
  rewrite !Hcons. cbn [id]. rewrite filter_cons. fold (blank l).
  pose proof (lineEvent_number l (i + 1)) as Hev.
  assert (lineDiagnostic (i + 1) l
          = match parseLine l (i + 1) with
            | Some (Failed n l' r) => Some (FailedLine.Build n l' r)
            | _ => None
            end) as Hdi by done.
  pose proof (parseLine_null l (i + 1)) as Hnull.
  destruct (parseLine l (i + 1)) as [[n l' r|msg]|];
    rewrite <-Hev, Hdi; clear Hev Hdi.
  - destruct (blank l); [by pose proof (proj2 Hnull eq_refl)|].
    rewrite decide_False by done.
    rewrite IH. destruct st; simpl. rewrite <-!app_assoc. simpl.
    repeat f_equal; lia.
  - destruct (blank l); [by pose proof (proj2 Hnull eq_refl)|].
    rewrite decide_False by done.
    rewrite IH. destruct st; simpl. rewrite <-!app_assoc. simpl.
    rewrite !filter_cons.
    destruct (Message.hasMedia msg), (Message.isSystem msg); simpl;
      repeat f_equal; lia.
  - rewrite (proj1 Hnull eq_refl). rewrite decide_True by done.
    rewrite IH. destruct st; simpl. repeat f_equal; lia.
Qed.

(** X1.  The events of a parse are the events of its lines, in the order
    of the lines, each a function of its own line; the diagnostics are those
    of its lines, in order, numbered from 1 by the position of the line. *)
Theorem parse_in_line_order (this : parser) (content : jsstring) :
  let lines := Str.split (Char.lit "010") content in
  let r := (parse this content).1 in
  Result.messages r = omap lineEvent lines
  ∧ Result.failedLines r
    = omap id (imap (λ j l, lineDiagnostic (j + 1) l) lines).
Proof.
  unfold parse. cbv zeta. rewrite parseLines_spec. by simpl.
Qed.

(** X2.  [mediaMessages] is the number of returned messages with media,
    [systemMessages] the number of returned system messages. *)
Theorem parse_counts_media_and_system (this : parser) (content : jsstring) :
  let r := (parse this content).1 in
  Stats.mediaMessages (Result.stats r)
  = length (filter (λ m, Message.hasMedia m = true) (Result.messages r))
  ∧ Stats.systemMessages (Result.stats r)
    = length (filter (λ m, Message.isSystem m = true) (Result.messages r)).
Proof.
  unfold parse. cbv zeta. rewrite parseLines_spec. by simpl.
Qed.

Lemma lineDiagnostic_shift k n l :
  lineDiagnostic (k + n) l = shiftLine k <$> lineDiagnostic n l.
Proof.
  unfold lineDiagnostic.
  rewrite (parseLine_number l (k + n)), (parseLine_number l n).
  by destruct (parseLine l 0) as [[]|].
Qed.

Lemma diagnostics_shift (lines : list jsstring) k : ∀ i,
  omap id (imap (λ j l, lineDiagnostic (k + (i + j + 1)) l) lines)
  = shiftLine k <$> omap id (imap (λ j l, lineDiagnostic (i + j + 1) l) lines).
Proof.
  induction lines as [|l lines IH]; intros i; [done|].
  assert (∀ c, imap (λ j l0, lineDiagnostic (c + (i + j + 1)) l0) (l :: lines)
               = lineDiagnostic (c + (i + 1)) l
                 :: imap (λ j l0, lineDiagnostic (c + (S i + j + 1)) l0) lines)
    as Himap.
  { intros c. cbn [imap]. rewrite Nat.add_0_r. f_equal. apply imap_ext.
    intros j x _. simpl. f_equal. lia. }
  rewrite (Himap k). specialize (Himap 0). cbn [Nat.add] in Himap.
  rewrite Himap.
  assert (∀ {A B} (f : A → option B) x xs,
    omap f (x :: xs)
    = match f x with Some y => y :: omap f xs | None => omap f xs end) as Hcons
    by done.
  rewrite !Hcons. cbn [id]. rewrite IH, lineDiagnostic_shift.
  by destruct (lineDiagnostic (i + 1) l).
Qed.

(** X3.  Parsing two texts joined by a newline gives the events of the
    first followed by those of the second, the diagnostics of the first
    followed by those of the second moved down by the number of lines of the
    first, and counters that are the sums: the lines are parsed
    independently of each other. *)
Theorem parse_concatenation (a b : jsstring) :
  let ra := (parse new a).1 in
  let rb := (parse new b).1 in
  let r := (parse new (a ++ 10%N :: b)).1 in
  let sum (f : Stats.t → nat) :=
    f (Result.stats r) = f (Result.stats ra) + f (Result.stats rb) in
  Result.messages r = Result.messages ra ++ Result.messages rb
  ∧ Result.failedLines r
    = Result.failedLines ra
      ++ (shiftLine (Stats.totalLines (Result.stats ra)) <$> Result.failedLines rb)
  ∧ sum Stats.totalLines ∧ sum Stats.parsedMessages ∧ sum Stats.failedLines
  ∧ sum Stats.emptyLines ∧ sum Stats.mediaMessages ∧ sum Stats.systemMessages.
Proof.
  unfold parse. cbv zeta. rewrite !parseLines_spec. cbn [fst].
  cbn [failedLines Result.messages Result.failedLines Result.stats
       Stats.totalLines Stats.parsedMessages Stats.failedLines
       Stats.emptyLines Stats.mediaMessages Stats.systemMessages
       app Nat.add].
  rewrite split_app_sep by done.
  set (la := Str.split (Char.lit "010") a).
  set (lb := Str.split (Char.lit "010") b).
  assert (omap id (imap (λ j l, lineDiagnostic (j + 1) l) (la ++ lb))
          = omap id (imap (λ j l, lineDiagnostic (j + 1) l) la)
            ++ (shiftLine (length la)
                  <$> omap id (imap (λ j l, lineDiagnostic (j + 1) l) lb)))
    as Hd.
  { rewrite imap_app, omap_app. f_equal.
    rewrite <-(diagnostics_shift lb (length la) 0 : _ = shiftLine (length la)
      <$> omap id (imap (λ j l, lineDiagnostic (j + 1) l) lb)).
    f_equal. apply imap_ext. intros j x _. simpl. f_equal. lia. }
  rewrite Hd, !omap_app, !filter_app, !length_app, length_fmap.
  repeat split; lia.
Qed.

End ParseOrder.

(** ** The shape of an event *)

Section EventShape.
Import MessageParser.

Lemma dropWhile_elem p (s : jsstring) c : c ∈ Str.dropWhile p s → c ∈ s.
Proof.
  induction s as [|x s IH]; simpl; [done|].
  destruct (p x); [|done]. intros H. right. by apply IH.
Qed.

Lemma trim_elem (s : jsstring) c : c ∈ Str.trim s → c ∈ s.
Proof.
  unfold Str.trim, Str.trimEnd, Str.trimStart.
  intros H. apply list_elem_of_In, in_rev, list_elem_of_In, dropWhile_elem in H.
  apply list_elem_of_In, in_rev, list_elem_of_In in H.
  by apply dropWhile_elem in H.
Qed.

Lemma includes_trim a (s : jsstring) :
  Str.includes a s = false → Str.includes a (Str.trim s) = false.
Proof.
  unfold Str.includes. intros H.
  apply not_true_iff_false. intros (c & Hc & Hlit)%existsb_exists.
  apply not_true_iff_false in H. apply H, existsb_exists.
  exists c. split; [|done].
  apply list_elem_of_In, trim_elem. by apply list_elem_of_In.
Qed.

Lemma extractMediaInfo_shape (body : jsstring) :
  let i := extractMediaInfo body in
  (MediaInfo.hasMedia i = true ↔ is_Some (MediaInfo.type i))
  ∧ (∀ name, MediaInfo.filename i = Some name →
       MediaInfo.hasMedia i = true
       ∧ MediaInfo.type i = Some (getMediaType name))
  ∧ (MediaInfo.hasMedia i = true → MediaInfo.filename i = None →
       MediaInfo.type i = Some omitted ∧ MediaInfo.text i = body)
  ∧ (MediaInfo.hasMedia i = false → MediaInfo.text i = body).
Proof.
  unfold extractMediaInfo.
  destruct (Regex.exec attachment body); simpl; [naive_solver|].
  destruct (leadingFilename body); simpl; [naive_solver|].
  destruct (Regex.test mediaOmitted body); simpl; [naive_solver|].
  split_and!; try done.
Qed.

(** X4.  An event that [parseLine] returns carries the trimmed line as its
    raw text, which is not empty; it has media exactly when it has a media
    type; a media file name comes with the type [getMediaType] gives that
    name; media without a file name is of type [omitted]; and a system event
    has the sender [System], no media, and a text without a colon. *)
Theorem parseLine_event_shape (line : jsstring) (n : nat) (msg : Message.t) :
  parseLine line n = Some (Parsed msg) →
  Message.raw msg = Str.trim line
  ∧ Message.raw msg ≠ []
  ∧ (Message.hasMedia msg = true ↔ is_Some (Message.mediaType msg))
  ∧ (∀ name, Message.mediaFilename msg = Some name →
       Message.hasMedia msg = true
       ∧ Message.mediaType msg = Some (getMediaType name))
  ∧ (Message.hasMedia msg = true → Message.mediaFilename msg = None →
       Message.mediaType msg = Some omitted)
  ∧ (Message.isSystem msg = true →
       Message.sender msg = js "System"
       ∧ Message.hasMedia msg = false
       ∧ Message.mediaFilename msg = None
       ∧ Str.includes ":" (Message.text msg) = false).
Proof.
  unfold parseLine.
  destruct (Str.truthy (Str.trim line)) eqn:Hne; simpl; [|done].
  assert (Str.trim line ≠ []) as Hraw by (by destruct (Str.trim line)).
  assert (∀ date m, let msg := userMessage date m (Str.trim line) in
    Message.raw msg = Str.trim line
    ∧ Message.raw msg ≠ []
    ∧ (Message.hasMedia msg = true ↔ is_Some (Message.mediaType msg))
    ∧ (∀ name, Message.mediaFilename msg = Some name →
         Message.hasMedia msg = true
         ∧ Message.mediaType msg = Some (getMediaType name))
    ∧ (Message.hasMedia msg = true → Message.mediaFilename msg = None →
         Message.mediaType msg = Some omitted)
    ∧ (Message.isSystem msg = true →
         Message.sender msg = js "System"
         ∧ Message.hasMedia msg = false
         ∧ Message.mediaFilename msg = None
         ∧ Str.includes ":" (Message.text msg) = false)) as Huser.
  { intros date m. unfold userMessage. cbn.
    destruct (extractMediaInfo_shape (default [] (Regex.group m 4)))
      as (H1 & H2 & H3 & _).
    split_and!; try done; naive_solver. }
  destruct (Regex.exec bracket (Str.trim line)) as [m|] eqn:Eb.
  { destruct (parseDate _ _) as [date|]; [|done]. intros [= <-].
    destruct (Huser date m) as (?&?&?&?&?&?).
    by split_and!. }
  destruct (Regex.exec dash (Str.trim line)) as [m|] eqn:Ed.
  { destruct (parseDate _ _) as [date|]; [|done]. intros [= <-].
    destruct (Huser date m) as (?&?&?&?&?&?).
    by split_and!. }
  destruct (Regex.exec systemDash (Str.trim line)) as [m|]; [|done].
  destruct (Str.includes ":" (default [] (Regex.group m 3))) eqn:Hc; simpl; [done|].
  destruct (parseDate _ _) as [date|]; [|done]. intros [= <-]. cbn.
  split_and!; try done. intros _. split_and!; try done. by apply includes_trim.
Qed.

Lemma parseLine_event_shape_witness :
  let line := js "  1/1/2024, 10:30 - Bob: <attached: photo.jpg> look  " in
  ∃ msg, parseLine line 1 = Some (Parsed msg)
         ∧ Message.raw msg = Str.trim line
         ∧ Message.mediaFilename msg = Some (js "photo.jpg")
         ∧ Message.mediaType msg = Some image.
Proof.
  set (line := js "  1/1/2024, 10:30 - Bob: <attached: photo.jpg> look  ").
  destruct (parseLine line 1) as [[|msg]|] eqn:E; try (by vm_compute in E).
  exists msg. split; [done|].
  destruct (parseLine_event_shape line 1 msg E) as (Hraw & _ & _ & Hname & _).
  split; [done|].
  assert (Message.mediaFilename msg = Some (js "photo.jpg")) as Hf.
  { assert (Some (Parsed msg) = parseLine line 1) as E' by done.
    vm_compute in E'. by injection E' as ->. }
  split; [done|]. by destruct (Hname _ Hf) as [_ ->].
Defined.

End EventShape.

(** ** Participants and date range *)

Section Summary.
Import MessageParser.

Lemma ltb_irrefl (a : jsstring) : Str.ltb a a = false.
Proof.
  induction a as [|x a IH]; simpl; [done|].
  rewrite IH, N.ltb_irrefl, N.eqb_refl. done.
Qed.

Lemma ltb_trichotomy (a : jsstring) : ∀ b,
  Str.ltb a b = true ∨ a = b ∨ Str.ltb b a = true.
Proof.
  induction a as [|x a IH]; intros [|y b]; simpl; auto.
  destruct (N.ltb_spec x y); simpl; [auto|].
  destruct (N.ltb_spec y x); simpl; [auto|].
  assert (x = y) as -> by lia. rewrite N.eqb_refl. simpl.
  destruct (IH b) as [?|[->|?]]; auto.
Qed.

Lemma ltb_asym (a : jsstring) : ∀ b,
  Str.ltb a b = true → Str.ltb b a = false.
Proof.
  induction a as [|x a IH]; intros [|y b]; simpl; try done.
  destruct (N.ltb_spec x y); simpl.
  { intros _. destruct (N.ltb_spec y x); [lia|]. simpl.
    destruct (N.eqb_spec y x); [lia|done]. }
  destruct (N.eqb_spec x y) as [->|]; simpl; [|done].
  intros Hlt%IH. rewrite Hlt, N.ltb_irrefl, N.eqb_refl. done.
Qed.

Lemma ltb_trans (a : jsstring) : ∀ b c,
  Str.ltb a b = true → Str.ltb b c = true → Str.ltb a c = true.
Proof.
  induction a as [|x a IH]; intros [|y b] [|z c]; simpl; try done.
  destruct (N.ltb_spec x y), (N.ltb_spec y z), (N.ltb_spec x z); simpl;
    try done; try lia.
  - destruct (N.eqb_spec y z); [lia|done].
  - destruct (N.eqb_spec x y); [lia|done].
  - destruct (N.eqb_spec x y) as [->|]; [|done].
    destruct (N.eqb_spec y z) as [->|]; [|done].
    simpl. apply IH.
Qed.

#[local] Instance le_total : Total Str.le.
Proof.
  intros a b. unfold Str.le.
  destruct (Str.ltb b a) eqn:E; [right; by apply ltb_asym|by left].
Qed.

#[local] Instance le_trans : Transitive Str.le.
Proof.
  intros a b c. unfold Str.le. intros Hab Hbc.
  destruct (Str.ltb c a) eqn:E; [|done].
  destruct (ltb_trichotomy a b) as [H|[->|H]]; [|congruence..].
  by rewrite (ltb_trans _ _ _ E H) in Hbc.
Qed.

#[local] Instance le_antisym : AntiSymm (=) Str.le.
Proof.
  intros a b. unfold Str.le. intros Hab Hba.
  destruct (ltb_trichotomy a b) as [H|[->|H]]; [congruence|done|congruence].
Qed.

(** Whatever the algorithm of [sort]: an arrangement of the same strings in
    ascending order is the one [Str.sort] gives. *)
Lemma sort_unique (l l' : list jsstring) :
  l' ≡ₚ l → Sorted Str.le l' → l' = Str.sort l.
Proof.
  intros Hp Hs. unfold Str.sort.
  apply (Sorted_unique Str.le); [done|apply Sorted_merge_sort, _|].
  by rewrite Hp, merge_sort_Permutation.
Qed.

Lemma strictly_ascending (l : list jsstring) :
  StronglySorted Str.le l → NoDup l →
  StronglySorted (λ a b, Str.ltb a b = true) l.
Proof.
  induction 1 as [|x l Hl IH Hx]; intros Hnd; [constructor|].
  apply NoDup_cons in Hnd as [Hnot Hnd].
  constructor; [by apply IH|].
  apply Forall_forall. intros y Hy.
  rewrite Forall_forall in Hx. specialize (Hx y Hy). unfold Str.le in Hx.
  destruct (ltb_trichotomy x y) as [H|[->|H]]; [done|done|congruence].
Qed.

Lemma setAdd_spec (set : list jsstring) x :
  NoDup set → NoDup (setAdd set x) ∧ ∀ y, y ∈ setAdd set x ↔ y ∈ set ∨ y = x.
Proof.
  intros Hnd. unfold setAdd. case_bool_decide as Hx.
  - split; [done|]. intros y. split; [auto|]. by intros [?| ->].
  - split.
    + apply NoDup_app. split_and!; [done| |apply NoDup_singleton].
      intros y Hy ->%list_elem_of_singleton. done.
    + intros y. by rewrite elem_of_app, list_elem_of_singleton.
Qed.

Lemma participants_fold (messages : list Message.t) : ∀ acc,
  NoDup acc →
  let acc' :=
    foldl (λ participants msg,
             if negb (Message.isSystem msg)
                && negb (bool_decide (Message.sender msg = js "System"))
             then setAdd participants (Message.sender msg)
             else participants) acc messages in
  NoDup acc'
  ∧ ∀ x, x ∈ acc' ↔ x ∈ acc ∨ ∃ msg, msg ∈ messages ∧ participant msg
                                      ∧ Message.sender msg = x.
Proof.
  induction messages as [|m ms IH]; intros acc Hnd; cbn [foldl].
  { split; [done|]. intros x. split; [auto|].
    intros [?|(msg & Hin & _)]; [done|]. by apply elem_of_nil in Hin. }
  set (acc1 := if _ && _ then setAdd acc _ else acc).
  assert (NoDup acc1 ∧ ∀ x, x ∈ acc1 ↔
            x ∈ acc ∨ (participant m ∧ Message.sender m = x)) as [Hnd1 Hacc1].
  { unfold acc1, participant.
    destruct (Message.isSystem m); simpl.
    { split; [done|]. intros x. split; [auto|]. by intros [?|[[? _] _]]. }
    case_bool_decide as Hs; simpl.
    { split; [done|]. intros x. split; [auto|]. by intros [?|[[_ ?] _]]. }
    destruct (setAdd_spec acc (Message.sender m) Hnd) as [? Hin].
    split; [done|]. intros x. rewrite Hin. naive_solver. }
  destruct (IH acc1 Hnd1) as [Hnd' Hin']. split; [done|].
  intros x. rewrite Hin', Hacc1. split.
  - intros [[?|[? ?]]|(msg & ? & ? & ?)]; [by left|right..].
    + exists m. split; [left|done].
    + exists msg. split; [by right|done].
  - intros [?|(msg & [->|?]%elem_of_cons & ? & ?)]; [by left; left|..].
    + left. by right.
    + right. by exists msg.
Qed.

(** X5.  [getParticipants] returns the senders of the events that are not
    system events and whose sender is not [System], each once, in strictly
    ascending order of their code units. *)
Theorem getParticipants_sorted_senders (messages : list Message.t) :
  let participants := getParticipants messages in
  StronglySorted (λ a b, Str.ltb a b = true) participants
  ∧ NoDup participants
  ∧ ∀ x, x ∈ participants
         ↔ ∃ msg, msg ∈ messages ∧ Message.isSystem msg = false
                  ∧ Message.sender msg = x ∧ x ≠ js "System".
Proof.
  unfold getParticipants. cbv zeta.
  destruct (participants_fold messages [] (NoDup_nil_2)) as [Hnd Hin].
  cbv zeta in Hnd, Hin. set (acc := foldl _ _ _) in *.
  assert (NoDup (Str.sort acc)) as Hnd'.
  { unfold Str.sort. by rewrite merge_sort_Permutation. }
  split_and!; [|done|].
  - apply strictly_ascending; [|done].
    unfold Str.sort. apply StronglySorted_merge_sort; apply _.
  - intros x. unfold Str.sort. rewrite merge_sort_Permutation, Hin.
    unfold participant. split.
    + intros [Hx|(msg & ? & [? ?] & <-)]; [by apply elem_of_nil in Hx|].
      by exists msg.
    + intros (msg & ? & ? & <- & ?). right. by exists msg.
Qed.

Lemma range_fold (messages : list Message.t) : ∀ s e,
  let r := foldl rangeStep (s, e) messages in
  (r.1 ≤ s)%Z ∧ (e ≤ r.2)%Z
  ∧ (∀ msg, msg ∈ messages → (r.1 ≤ Message.date msg ≤ r.2)%Z)
  ∧ (r.1 = s ∨ ∃ msg, msg ∈ messages ∧ Message.date msg = r.1)
  ∧ (r.2 = e ∨ ∃ msg, msg ∈ messages ∧ Message.date msg = r.2).
Proof.
  induction messages as [|m ms IH]; intros s e; cbn [foldl].
  { cbn. split_and!; try lia; auto. intros msg H. by apply elem_of_nil in H. }
  cbn [rangeStep].
  set (s1 := if (_ <? s)%Z then _ else s).
  set (e1 := if (e <? _)%Z then _ else e).
  destruct (IH s1 e1) as (H1 & H2 & H3 & H4 & H5). cbv zeta in *.
  set (r := foldl rangeStep (s1, e1) ms) in *.
  assert ((s1 ≤ s)%Z ∧ (s1 ≤ Message.date m)%Z ∧ (s1 = s ∨ s1 = Message.date m))
    as (? & ? & Hs1).
  { unfold s1. destruct (Z.ltb_spec (Message.date m) s); lia. }
  assert ((e ≤ e1)%Z ∧ (Message.date m ≤ e1)%Z ∧ (e1 = e ∨ e1 = Message.date m))
    as (? & ? & He1).
  { unfold e1. destruct (Z.ltb_spec e (Message.date m)); lia. }
  split_and!; try lia.
  - intros msg [->|Hin]%elem_of_cons; [lia|]. by apply H3.
  - destruct H4 as [->|(msg & ? & ?)].
    + destruct Hs1 as [?|?]; [by left|]. right. exists m. split; [left|done].
    + right. exists msg. split; [by right|done].
  - destruct H5 as [->|(msg & ? & ?)].
    + destruct He1 as [?|?]; [by left|]. right. exists m. split; [left|done].
    + right. exists msg. split; [by right|done].
Qed.

(** X6.  [getDateRange] gives no bounds exactly on an empty array, and
    otherwise the earliest and the latest date among the events: every event
    lies between them, and each bound is the date of one of the events. *)
Theorem getDateRange_earliest_latest (messages : list Message.t) :
  match getDateRange messages with
  | (Some start, Some end_) =>
      messages ≠ []
      ∧ (∀ msg, msg ∈ messages → (start ≤ Message.date msg ≤ end_)%Z)
      ∧ (∃ msg, msg ∈ messages ∧ Message.date msg = start)
      ∧ (∃ msg, msg ∈ messages ∧ Message.date msg = end_)
  | (None, None) => messages = []
  | _ => False
  end.
Proof.
  unfold getDateRange. destruct messages as [|first ms]; [done|].
  destruct (range_fold (first :: ms) (Message.date first) (Message.date first))
    as (H1 & H2 & H3 & H4 & H5). cbv zeta in *.
  destruct (foldl rangeStep _ _) as [s e]. cbn [fst snd] in *.
  split_and!; [done|done| |].
  - destruct H4 as [->|?]; [|done]. exists first. split; [left|done].
  - destruct H5 as [->|?]; [|done]. exists first. split; [left|done].
Qed.

End Summary.

(** ** File extensions: the pattern and the three tables *)

Section Extensions.
Import MessageParser.
Import Regex.

Lemma split_no_sep p (e : jsstring) :
  (∀ c, c ∈ e → p c = false) → Str.split p e = [e].
Proof.
  induction e as [|c e IH]; intros H; simpl; [done|].
  rewrite (H c) by left. rewrite IH; [done|]. intros x Hx. apply H. by right.
Qed.

Lemma split_last_piece p (pre e : jsstring) c :
  p c = true → (∀ x, x ∈ e → p x = false) →
  Str.pop (Str.split p (pre ++ c :: e)) = Some e.
Proof.
  intros Hc He. unfold Str.pop.
  rewrite (split_app_sep p pre c e Hc), (split_no_sep p e He).
  apply last_snoc.
Qed.

(** A code unit that the [i] flag lets match a lower-case letter or a digit
    of a pattern is that character or its upper case. *)
Lemma ci_toLower (a c : N) :
  Char.lower a || Char.digit a = true →
  Char.canonicalize c = Char.canonicalize a →
  Char.toLower c = [a] ∧ c ≠ 46%N.
Proof.
  unfold Char.canonicalize, Char.toLower, Char.lower, Char.upper, Char.digit,
    Char.between.
  intros Ha Hc.
  repeat match goal with
  | H : context [(?x <=? ?y)%N] |- _ => destruct (N.leb_spec x y); simpl in H
  | |- context [(?x <=? ?y)%N] => destruct (N.leb_spec x y); simpl
  | |- context [(?x =? ?y)%N] => destruct (N.eqb_spec x y); simpl
  end; try done; split; try lia; f_equal; lia.
Qed.

Lemma prefixCI_toLowerCase (x : jsstring) : ∀ e,
  (∀ a, a ∈ x → Char.lower a || Char.digit a = true) →
  prefixCI x e = true → length e ≤ length x →
  Str.toLowerCase e = x ∧ ∀ c, c ∈ e → c ≠ 46%N.
Proof.
  induction x as [|a x IH]; intros [|c e] Hx Hp Hlen; simpl in *;
    try done; try lia.
  { split; [done|]. intros c Hc. by apply elem_of_nil in Hc. }
  apply andb_prop in Hp as [Hc%N.eqb_eq Hp].
  destruct (ci_toLower a c) as [Hl Hdot]; [apply Hx; left|done|].
  destruct (IH e) as [IH1 IH2]; [intros; apply Hx; by right|done|lia|].
  unfold Str.toLowerCase in *.
  split.
  - change (Char.toLower c ++ (e ≫= Char.toLower) = a :: x).
    by rewrite Hl, IH1.
  - intros y [->|Hy]%elem_of_cons; [done|by apply IH2].
Qed.

(** The extensions of the pattern are in lower case. *)
Lemma extensions_lower ext a :
  ext ∈ extensions → a ∈ js ext → Char.lower a || Char.digit a = true.
Proof.
  intros Hext Ha.
  assert (Forall (λ ext, Forall (λ a, Char.lower a || Char.digit a = true)
                                (js ext)) extensions) as H.
  { unfold extensions. repeat constructor. }
  rewrite Forall_forall in H. specialize (H ext Hext).
  rewrite Forall_forall in H. by apply H.
Qed.

(** The pattern [mediaExtensions] matches from a dot that is followed, up to
    the end, by one of its extensions in any case of the letters. *)
Lemma mediaExtensions_run st :
  is_Some (run mediaExtensions st Some) →
  ∃ ext e, ext ∈ extensions ∧ rest st = 46%N :: e
           ∧ prefixCI (js ext) e = true ∧ length e ≤ length (js ext).
Proof.
  unfold mediaExtensions. cbn [seqs foldr run lit].
  destruct (rest st) as [|c e] eqn:Hrest; [by intros []|].
  unfold Char.lit at 1. destruct (N.eqb_spec c (N_of_ascii ".")) as [->|];
    [|by intros []].
  change (alts (map texti extensions))
    with (foldl Alt (texti "jpg") (map texti (tail extensions))).
  rewrite run_foldl_Alt.
  assert (∀ ext k0,
    is_Some (run (texti ext) (MState (S (pos st)) e (caps st))
               (λ st', match rest (capture 1 (MState (S (pos st)) e (caps st)) st') with
                       | [] => k0 st'
                       | _ :: _ => None
                       end)) →
    prefixCI (js ext) e = true ∧ length e ≤ length (js ext)) as Hone.
  { intros ext k0. unfold texti. rewrite run_texti. cbn [rest].
    unfold js. destruct (prefixCI _ e); [|by intros []].
    cbn [capture rest]. rewrite length_map.
    destruct (drop _ e) eqn:Hd; [|by intros []].
    intros _. split; [done|].
    apply (f_equal length) in Hd. rewrite length_drop in Hd. simpl in Hd. lia. }
  intros [H|(x & Hx & H)].
  - exists "jpg"%string, e. split; [left|]. split; [done|].
    by apply (Hone "jpg"%string (λ st', Some (capture 1 (MState (S (pos st)) e (caps st)) st'))).
  - apply list_elem_of_fmap in Hx as (ext & -> & Hext).
    exists ext, e. split; [by right|]. split; [done|].
    by apply (Hone ext (λ st', Some (capture 1 (MState (S (pos st)) e (caps st)) st'))).
Qed.

Lemma mediaExtensions_extension (name : jsstring) :
  test mediaExtensions name = true →
  name ≠ [] ∧ ∃ ext, ext ∈ extensions ∧ ZipHandler.extension name = js ext.
Proof.
  unfold test, exec. rewrite bool_decide_eq_true, search_is_Some.
  intros (j & Hj & (ext & e & Hext & Hrest & Hp & Hlen)%mediaExtensions_run).
  cbn [rest] in Hrest.
  assert (name = take j name ++ 46%N :: e) as Hname.
  { by rewrite <-Hrest, take_drop. }
  split; [rewrite Hname; by destruct (take j name)|].
  exists ext. split; [done|].
  destruct (prefixCI_toLowerCase (js ext) e) as [Hl Hdot];
    [intros a; by apply extensions_lower|done|done|].
  unfold ZipHandler.extension. rewrite Hname.
  rewrite (split_last_piece _ _ e); [done|done|].
  intros x Hx. unfold Char.lit. apply N.eqb_neq. by apply Hdot.
Qed.

(** The keys of the three tables are the extensions of the pattern. *)
Lemma tables_keys :
  map fst types = extensions
  ∧ ZipHandler.mediaExtensions = extensions
  ∧ map fst ZipHandler.mimeTypes = extensions.
Proof. done. Qed.

Lemma list_find_key {B} (l : list (string * B)) (ext : jsstring) :
  match list_find (λ kv, js kv.1 = ext) l with
  | Some (_, kv) => kv ∈ l ∧ js kv.1 = ext
  | None => ext ∉ map js (map fst l)
  end.
Proof.
  destruct (list_find _ l) as [[i kv]|] eqn:E.
  - apply list_find_Some in E as (Hi & ? & _). split; [|done].
    by apply list_elem_of_lookup_2 in Hi.
  - apply list_find_None in E. rewrite Forall_forall in E.
    intros (s & -> & (kv & -> & Hkv)%list_elem_of_fmap)%list_elem_of_fmap.
    by apply (E kv).
Qed.

Lemma typesLookup_kind (ext : jsstring) :
  ext ∈ map js extensions ↔ ∃ k, typesLookup ext = Some k ∧ k ∈ kinds.
Proof.
  unfold typesLookup. pose proof (list_find_key types ext) as H.
  destruct (list_find _ types) as [[i kv]|].
  - destruct H as [Hkv <-]. split.
    + intros _. exists kv.2. split; [done|].
      assert (Forall (λ kv : string * mediaType, kv.2 ∈ kinds) types) as Hall.
      { unfold types, kinds. repeat constructor. }
      rewrite Forall_forall in Hall. by apply Hall.
    + intros _. apply list_elem_of_fmap. exists kv.1. split; [done|].
      change extensions with (map fst types). by apply list_elem_of_fmap_2.
  - change (map fst types) with extensions in H. split; [done|].
    intros (k & Hk & Hin).
    destruct (bool_decide (ext = js "constructor") || bool_decide (ext = js "__proto__"));
      [|done].
    injection Hk as <-. unfold kinds in Hin.
    repeat (apply elem_of_cons in Hin as [?|Hin]; [done|]).
    by apply elem_of_nil in Hin.
Qed.

Lemma mimeTypes_table (ext : jsstring) :
  ext ∈ map js extensions
  ↔ ∃ s, match list_find (λ kv, js kv.1 = ext) ZipHandler.mimeTypes with
         | Some (_, kv) => Browser.mime kv.2
         | None =>
             if bool_decide (ext = js "constructor")
                || bool_decide (ext = js "__proto__")
             then Browser.inheritedMime ext
             else Browser.mime "application/octet-stream"
         end = Browser.mime s
         ∧ s ≠ "application/octet-stream"%string.
Proof.
  pose proof (list_find_key ZipHandler.mimeTypes ext) as H.
  destruct (list_find _ ZipHandler.mimeTypes) as [[i kv]|].
  - destruct H as [Hkv <-]. split.
    + intros _. exists kv.2. split; [done|].
      assert (Forall (λ kv : string * string,
                        kv.2 ≠ "application/octet-stream"%string)
                     ZipHandler.mimeTypes) as Hall.
      { unfold ZipHandler.mimeTypes. repeat constructor; done. }
      rewrite Forall_forall in Hall. by apply Hall.
    + intros _. apply list_elem_of_fmap. exists kv.1. split; [done|].
      change extensions with (map fst ZipHandler.mimeTypes).
      by apply list_elem_of_fmap_2.
  - change (map fst ZipHandler.mimeTypes) with extensions in H.
    split; [done|]. intros (s & Hs & Hne).
    destruct (bool_decide (ext = js "constructor") || bool_decide (ext = js "__proto__"));
      [done|]. by injection Hs as <-.
Qed.

(** X8.  A file name is a media file for the archive manager exactly when
    its MIME type comes from the table (not the fallback), and exactly when
    the parser gives it one of the five kinds of its table: the three
    tables have the same keys and read the extension in the same way. *)
Theorem extension_tables_agree (filename : jsstring) :
  (ZipHandler.isMediaFile filename = true
   ↔ ∃ s, ZipHandler.getMimeType filename = Browser.mime s
          ∧ s ≠ "application/octet-stream"%string)
  ∧ (ZipHandler.isMediaFile filename = true
     ↔ getMediaType filename ∈ kinds).
Proof.
  destruct filename as [|c filename].
  { split; (split; [done|]).
    - intros (s & Hs & Hne). vm_compute in Hs. by injection Hs as <-.
    - cbn. unfold kinds. intros H.
      repeat (apply elem_of_cons in H as [?|H]; [done|]).
      by apply elem_of_nil in H. }
  unfold ZipHandler.isMediaFile, ZipHandler.getMimeType, getMediaType.
  cbn [Str.truthy negb]. fold (ZipHandler.extension (c :: filename)).
  rewrite bool_decide_eq_true.
  change ZipHandler.mediaExtensions with extensions.
  split; [apply mimeTypes_table|].
  rewrite typesLookup_kind.
  destruct (typesLookup _) as [k|]; simpl.
  - split; [by intros (? & [= <-] & ?)|]. intros ?. by exists k.
  - split; [by intros (? & ? & ?)|]. unfold kinds. intros H.
    repeat (apply elem_of_cons in H as [?|H]; [done|]).
    by apply elem_of_nil in H.
Qed.

(** X9.  A file name that [extractMediaInfo] reads from the start of a
    text has one of the five kinds of the parser's table (never [file]),
    and the archive manager takes it for a media file. *)
Theorem leadingFilename_known_kind (body name : jsstring) :
  leadingFilename body = Some name →
  getMediaType name ∈ kinds ∧ ZipHandler.isMediaFile name = true.
Proof.
  unfold leadingFilename. intros H.
  destruct (exec filenamePattern body) as [m|]; [|done]. simpl in H.
  destruct (group m 1) as [name'|]; [|done]. simpl in H.
  destruct (test mediaExtensions name') eqn:Ht; [|done].
  injection H as ->.
  apply mediaExtensions_extension in Ht as (Hne & ext & Hext & Hx).
  assert (ZipHandler.isMediaFile name = true) as Hm.
  { unfold ZipHandler.isMediaFile. destruct name; [done|]. cbn [Str.truthy negb].
    rewrite bool_decide_eq_true, Hx.
    change ZipHandler.mediaExtensions with extensions.
    by apply list_elem_of_fmap_2. }
  split; [|done].
  destruct name as [|c name]; [done|].
  unfold getMediaType. cbn [Str.truthy negb].
  fold (ZipHandler.extension (c :: name)). rewrite Hx.
  destruct (proj1 (typesLookup_kind (js ext))) as (k & -> & Hk); [|done].
  by apply list_elem_of_fmap_2.
Qed.

Lemma leadingFilename_known_kind_witness :
  getMediaType (js "IMG-0001.JPG") ∈ kinds
  ∧ ZipHandler.isMediaFile (js "IMG-0001.JPG") = true.
Proof.
  apply (leadingFilename_known_kind (js "IMG-0001.JPG shared")).
  vm_compute. reflexivity.
Defined.

End Extensions.

(** ** The archive manager, continued *)

Section Handles.
Import ZipHandler.

Lemma exec_getMediaURL this w f :
  exec (this, w) (GetMediaURL f)
  = ((getMediaURL this f w).1.2, (getMediaURL this f w).2).
Proof. cbn [exec]. by destruct (getMediaURL this f w) as [[? ?] ?]. Qed.

Lemma exec_loadZip this w f :
  exec (this, w) (LoadZip f) = ((loadZip this f w).1.2, (loadZip this f w).2).
Proof. cbn [exec]. by destruct (loadZip this f w) as [[? ?] ?]. Qed.

(** The three ways [getMediaURL] goes for a known name, in a state where
    the cache and the browser agree. *)
Lemma getMediaURL_cases this w f :
  consistent (this, w) → f ≠ [] → is_Some (mediaFiles this !! f) →
  let c := urlCache this in
  (∃ u, LRUCache.cache c !! f = Some u
        ∧ f ∈ LRUCache.accessOrder c
        ∧ getMediaURL this f w
          = (Some u,
             withCache this
               (LRUCache.Build (LRUCache.maxSize c) (LRUCache.cache c)
                  (filter (λ k, k ≠ f) (LRUCache.accessOrder c) ++ [f])),
             w))
  ∨ (LRUCache.cache c !! f = None
     ∧ (f ∉ LRUCache.accessOrder c)
     ∧ LRUCache.size c < LRUCache.maxSize c
     ∧ getMediaURL this f w
       = (Some (Browser.minted w),
          withCache this
            (LRUCache.Build (LRUCache.maxSize c)
               (<[f := Browser.minted w]> (LRUCache.cache c))
               (LRUCache.accessOrder c ++ [f])),
          Browser.Build (S (Browser.minted w))
            (Browser.calls w ++
             [Browser.createObjectURL
                (Browser.Blob (default [] (mediaFiles this !! f)) (getMimeType f))
                (Browser.minted w)])))
  ∨ (∃ lru order old,
       LRUCache.cache c !! f = None
       ∧ (f ∉ LRUCache.accessOrder c)
       ∧ LRUCache.maxSize c ≤ LRUCache.size c
       ∧ LRUCache.accessOrder c = lru :: order
       ∧ LRUCache.cache c !! lru = Some old
       ∧ lru ≠ f ∧ (lru ∉ order)
       ∧ getMediaURL this f w
         = (Some (Browser.minted w),
            withCache this
              (LRUCache.Build (LRUCache.maxSize c)
                 (<[f := Browser.minted w]> (delete lru (LRUCache.cache c)))
                 (order ++ [f])),
            Browser.Build (S (Browser.minted w))
              (Browser.calls w ++
               [Browser.createObjectURL
                  (Browser.Blob (default [] (mediaFiles this !! f)) (getMimeType f))
                  (Browser.minted w);
                Browser.revokeObjectURL (Some old)]))).
Proof.
  intros (Hnd & Hdom & Hmint & Hinj & Hlive & Hsize & Hpos & Hmax) Hf Hm.
  cbn [fst snd] in *. cbv zeta. set (c := urlCache this) in *.
  destruct (LRUCache.cache c !! f) as [u|] eqn:Hc.
  { left. exists u. split; [done|]. split; [apply Hdom; rewrite Hc; eauto|].
    by apply getMediaURL_hit. }
  right.
  assert (f ∉ LRUCache.accessOrder c) as Hnotin.
  { rewrite Hdom, Hc. by intros [? ?]. }
  destruct (decide (LRUCache.size c < LRUCache.maxSize c)) as [Hroom|Hfull].
  { left. split; [done|]. split; [done|]. split; [done|].
    by apply getMediaURL_store. }
  right.
  assert (LRUCache.cache c ≠ ∅) as Hne.
  { intros H0. unfold LRUCache.size in *. rewrite H0, map_size_empty in Hfull. lia. }
  destruct (LRUCache.accessOrder c) as [|lru order] eqn:Horder.
  { apply map_choose in Hne as (k & v & Hk).
    assert (k ∈ []) as []%elem_of_nil. apply Hdom. rewrite Hk. eauto. }
  assert (is_Some (LRUCache.cache c !! lru)) as [old Hold].
  { apply Hdom. by left. }
  exists lru, order, old.
  apply NoDup_cons in Hnd as [Hlru_order Hnd].
  split_and!; try done; [lia|by intros ->; congruence|].
  subst c.
  rewrite (getMediaURL_evict _ _ _ lru order) by (done || lia).
  by rewrite Hold.
Qed.

(** [getMediaURL] leaves the archive data as it is, whatever the state. *)
Lemma getMediaURL_archive this f w :
  let this' := (getMediaURL this f w).1.2 in
  mediaFiles this' = mediaFiles this
  ∧ chatContent this' = chatContent this
  ∧ chatFilename this' = chatFilename this
  ∧ isLoaded this' = isLoaded this
  ∧ maxCacheSize this' = maxCacheSize this.
Proof.
  unfold getMediaURL.
  destruct (negb (Str.truthy f) || negb (hasMedia this f)); [done|].
  destruct (LRUCache.get (urlCache this) f) as [[u|] c]; [done|].
  cbn [mediaFiles withCache].
  destruct (Browser.create _ w) as [u w'].
  by destruct (LRUCache.set _ _ _ _ _) as [c' w''].
Qed.

(** It returns a URL exactly for a known name that is not empty. *)
Lemma getMediaURL_defined this f w :
  is_Some (getMediaURL this f w).1.1
  ↔ f ≠ [] ∧ is_Some (mediaFiles this !! f).
Proof.
  unfold getMediaURL, hasMedia.
  destruct f as [|x f]; cbn [Str.truthy negb orb].
  { split; [by intros [? ?]|by intros [? _]]. }
  case_bool_decide as Hm; cbn [negb]; last first.
  { split; [by intros [? ?]|by intros [_ ?]]. }
  split; [done|]. intros _.
  destruct (LRUCache.get (urlCache this) (x :: f)) as [[u|] c]; [by eexists|].
  destruct (Browser.create _ w) as [u w'].
  destruct (LRUCache.set _ _ _ _ _) as [c' w'']. by eexists.
Qed.

Lemma evictFromCache_archive this f w :
  let this' := (evictFromCache this f w).1 in
  mediaFiles this' = mediaFiles this
  ∧ chatContent this' = chatContent this
  ∧ chatFilename this' = chatFilename this
  ∧ isLoaded this' = isLoaded this
  ∧ maxCacheSize this' = maxCacheSize this.
Proof.
  unfold evictFromCache.
  by destruct (LRUCache.get (urlCache this) f) as [[u|] c].
Qed.

(** After [getMediaURL] the cache holds names it held before, and the name
    asked for. *)
Lemma getMediaURL_cached this f w k :
  is_Some (LRUCache.cache (urlCache (getMediaURL this f w).1.2) !! k) →
  is_Some (LRUCache.cache (urlCache this) !! k)
  ∨ (k = f ∧ is_Some (mediaFiles this !! f)).
Proof.
  unfold getMediaURL, hasMedia.
  destruct (negb (Str.truthy f)); cbn [orb]; [by left|].
  case_bool_decide as Hm; cbn [negb]; [|by left].
  unfold LRUCache.get, LRUCache.has.
  case_bool_decide as Hc; cbn [negb].
  { destruct Hc as [u Hc]. rewrite Hc. by left. }
  cbn [withCache urlCache].
  destruct (Browser.create _ w) as [u w'].
  unfold LRUCache.set, LRUCache.has. cbn [LRUCache.cache].
  rewrite bool_decide_false by done.
  case_bool_decide; cbn.
  - destruct (decide (k = f)) as [->|Hk]; [by right|].
    rewrite lookup_insert_ne by done.
    destruct (head _) as [lru|]; [|by left].
    intros [v [_ Hv]%lookup_delete_Some]. left. eauto.
  - destruct (decide (k = f)) as [->|Hk]; [by right|].
    rewrite lookup_insert_ne by done. by left.
Qed.

Lemma stocked_new size : stocked (new size).
Proof.
  split; intros k; cbn; rewrite lookup_empty; by intros [? ?].
Qed.

Lemma stocked_clear this w : stocked (clear this w).1.
Proof.
  unfold clear. destruct (LRUCache.clear _ _ _) as [c w'] eqn:E.
  unfold LRUCache.clear in E. injection E as <- _.
  split; intros k; cbn; rewrite lookup_empty; by intros [? ?].
Qed.

Lemma processEntry_stored this entry k :
  is_Some (mediaFiles (processEntry this entry) !! k) →
  is_Some (mediaFiles this !! k) ∨ isMediaFile k = true.
Proof.
  unfold processEntry. destruct entry as [path data].
  destruct (_ && _); [by left|].
  destruct (isMediaFile (basename path)) eqn:Hm; [|by left].
  cbn [mediaFiles]. destruct (decide (k = basename path)) as [->|Hk]; [by right|].
  rewrite lookup_insert_ne by done. by left.
Qed.

Lemma foldl_processEntry_stored entries : ∀ this k,
  is_Some (mediaFiles (foldl processEntry this entries) !! k) →
  is_Some (mediaFiles this !! k) ∨ isMediaFile k = true.
Proof.
  induction entries as [|e entries IH]; intros this k; cbn [foldl]; [by left|].
  intros [H|H]%IH; [|by right]. by apply processEntry_stored in H.
Qed.

Lemma stocked_exec st o : stocked st.1 → stocked (exec st o).1.
Proof.
  destruct st as [this w]. intros [Hmedia Hcache]. cbn [fst] in *.
  destruct o as [f|f| |file].
  - rewrite exec_getMediaURL. cbn [fst].
    destruct (getMediaURL_archive this f w) as (Hm & _). cbv zeta in Hm.
    split; intros k; rewrite Hm; [apply Hmedia|].
    intros [H|[-> H]]%getMediaURL_cached; [by apply Hcache|done].
  - cbn [exec]. destruct (evictFromCache_archive this f w) as (Hm & _).
    cbv zeta in Hm. split; intros k; rewrite Hm; [apply Hmedia|].
    unfold evictFromCache, LRUCache.get, LRUCache.has.
    case_bool_decide as Hc; cbn [negb].
    + destruct Hc as [u Hc]. rewrite Hc. cbn.
      intros [v [_ Hv]%lookup_delete_Some]. apply Hcache. eauto.
    + cbn. apply Hcache.
  - cbn [exec]. apply stocked_clear.
  - rewrite exec_loadZip. cbn [fst].
    destruct file as [| |message|entries]; try done.
    unfold loadZip.
    pose proof (stocked_clear this w) as Hclear.
    destruct (clear this w) as [this' w'] eqn:E. cbn [fst snd] in *.
    destruct (foldl_processEntry_cache entries this') as [Hcache' _].
    destruct Hclear as [Hm' Hc'].
    split; intros k; cbn [mediaFiles urlCache].
    + intros [H|H]%foldl_processEntry_stored; [by apply Hm'|done].
    + rewrite Hcache'. intros H. exfalso.
      unfold clear, LRUCache.clear in E. injection E as <- _.
      cbn in H. rewrite lookup_empty in H. by destruct H.
Qed.

(** What holds of every state a new handler reaches by the calls of a
    consumer. *)
Lemma reached size ops :
  let st := run (new size, Browser.start) ops in
  safe st ∧ stocked st.1 ∧ maxCacheSize st.1 = maxCacheSize (new size).
Proof.
  cbv zeta.
  assert (∀ st, stocked st.1 → stocked (run st ops).1) as H.
  { unfold run. induction ops as [|o ops IH]; intros st Hst; [done|].
    cbn [foldl]. by apply IH, stocked_exec. }
  destruct (safe_run ops _ (safe_new size)) as [Hsafe Hmax].
  split; [done|]. split; [|done].
  apply H, stocked_new.
Qed.

Lemma reached_getMediaURL size ops f :
  let st := run (new size, Browser.start) ops in
  let r := getMediaURL st.1 f st.2 in
  consistent st ∧ consistent (r.1.2, r.2).
Proof.
  cbv zeta. destruct (reached size ops) as ([Hc _] & _ & _). split; [done|].
  destruct (reached size (ops ++ [GetMediaURL f])) as ([Hc' _] & _ & _).
  unfold run in Hc'. rewrite foldl_snoc in Hc'.
  fold (run (new size, Browser.start) ops) in Hc'.
  destruct (run (new size, Browser.start) ops) as [this w].
  by rewrite exec_getMediaURL in Hc'.
Qed.

Lemma cached_live st k u :
  consistent st → LRUCache.cache (urlCache st.1) !! k = Some u →
  u ∈ Browser.live (Browser.calls st.2).
Proof.
  intros (_ & _ & _ & _ & Hlive & _) Hk. rewrite Hlive.
  apply elem_of_map_img. eauto.
Qed.

Lemma getMediaURL_caches this w f u :
  consistent (this, w) → (getMediaURL this f w).1.1 = Some u →
  f ≠ [] ∧ is_Some (mediaFiles this !! f)
  ∧ LRUCache.cache (urlCache (getMediaURL this f w).1.2) !! f = Some u.
Proof.
  intros Hc Hu.
  destruct (proj1 (getMediaURL_defined this f w)) as [Hf Hknown];
    [rewrite Hu; eauto|].
  split; [done|]. split; [done|]. revert Hu.
  destruct (getMediaURL_cases this w f Hc Hf Hknown)
    as [(v & Hv & _ & ->)|[(_ & _ & _ & ->)
        |(lru & order & old & _ & _ & _ & _ & _ & _ & _ & ->)]];
    cbn; intros [= <-]; by rewrite ?lookup_insert_eq.
Qed.

(** X10.  In every state a new handler reaches, [getMediaURL] returns
    [null] exactly for the empty name and for names that are not stored, and
    then changes nothing; otherwise it returns a URL that the cache then holds
    for the name and that is a live handle. *)
Theorem getMediaURL_resolves (size : option nat) (ops : list op) (f : jsstring) :
  let st := run (new size, Browser.start) ops in
  let r := getMediaURL st.1 f st.2 in
  match r.1.1 with
  | None => (f = [] ∨ mediaFiles st.1 !! f = None) ∧ r.1.2 = st.1 ∧ r.2 = st.2
  | Some u =>
      f ≠ [] ∧ is_Some (mediaFiles st.1 !! f)
      ∧ LRUCache.cache (urlCache r.1.2) !! f = Some u
      ∧ u ∈ Browser.live (Browser.calls r.2)
  end.
Proof.
  cbv zeta. destruct (reached_getMediaURL size ops f) as [Hc Hc'].
  cbv zeta in Hc'. destruct (run (new size, Browser.start) ops) as [this w].
  cbn [fst snd] in *.
  destruct ((getMediaURL this f w).1.1) as [u|] eqn:Hr.
  - destruct (getMediaURL_caches this w f u Hc Hr) as (? & ? & Hcached).
    split_and!; try done. by eapply (cached_live (_, _)).
  - destruct (decide (f = [])) as [->|Hf]; [cbn; auto|].
    destruct (mediaFiles this !! f) as [data|] eqn:Hm.
    { destruct (proj2 (getMediaURL_defined this f w)) as [? ?];
        [by rewrite Hm; eauto|congruence]. }
    rewrite getMediaURL_absent by done. cbn. auto.
Qed.

Lemma filter_out_absent (f : jsstring) (l : list jsstring) :
  f ∉ l → filter (λ k, k ≠ f) (l ++ [f]) = l.
Proof.
  intros Hf. rewrite filter_app, filter_cons_False, filter_nil, app_nil_r by tauto.
  induction l as [|x l IH]; [done|].
  apply not_elem_of_cons in Hf as [? ?].
  rewrite filter_cons_True by done. f_equal. by apply IH.
Qed.

(** X11.  Asking again for the name just asked for gives the same answer
    and changes nothing: no call into the browser, and the same cache. *)
Theorem getMediaURL_again (size : option nat) (ops : list op) (f : jsstring) :
  let st := run (new size, Browser.start) ops in
  let r := getMediaURL st.1 f st.2 in
  getMediaURL r.1.2 f r.2 = r.
Proof.
  cbv zeta. destruct (reached_getMediaURL size ops f) as [Hc Hc'].
  cbv zeta in Hc'. destruct (run (new size, Browser.start) ops) as [this w].
  cbn [fst snd] in *.
  destruct (decide (f = [])) as [->|Hf]; [done|].
  destruct (mediaFiles this !! f) as [data|] eqn:Hm; last first.
  { rewrite (getMediaURL_absent this f w Hm). cbn [fst snd].
    by rewrite getMediaURL_absent. }
  assert (is_Some (mediaFiles this !! f)) as Hknown by (rewrite Hm; eauto).
  destruct (getMediaURL_cases this w f Hc Hf Hknown)
    as [(u & Hu & Hin & Hr)|[(Hu & Hnotin & _ & Hr)
        |(lru & order & old & Hu & Hnotin & _ & Horder & _ & _ & _ & Hr)]];
    rewrite Hr; cbn [fst snd].
  - rewrite (getMediaURL_hit _ _ _ u) by done.
    cbn. by rewrite filter_out_twice.
  - rewrite (getMediaURL_hit _ _ _ (Browser.minted w))
      by (done || by cbn; rewrite lookup_insert_eq).
    cbn. by rewrite filter_out_absent.
  - rewrite (getMediaURL_hit _ _ _ (Browser.minted w))
      by (done || by cbn; rewrite lookup_insert_eq).
    cbn. rewrite filter_out_absent; [done|].
    rewrite Horder in Hnotin. by apply not_elem_of_cons in Hnotin as [_ ?].
Qed.

Lemma consistent_order_length st :
  consistent st →
  length (LRUCache.accessOrder (urlCache st.1)) = LRUCache.size (urlCache st.1).
Proof.
  intros (Hnd & Hdom & _). unfold LRUCache.size.
  rewrite <-size_dom, <-(size_list_to_set (C := gset jsstring)) by done.
  f_equal. apply set_eq. intros k.
  by rewrite elem_of_list_to_set, elem_of_dom.
Qed.

(** X12.  With a cache of two or more, the name asked for last is not the
    one the next request evicts: after [getMediaURL f] and then
    [getMediaURL g], the URL returned for [f] is still cached for [f] and is
    still live. *)
Theorem latest_survives_next (size : option nat) (ops : list op)
    (f g : jsstring) (u : url) :
  let st := run (new size, Browser.start) ops in
  let r1 := getMediaURL st.1 f st.2 in
  let r2 := getMediaURL r1.1.2 g r1.2 in
  2 ≤ maxCacheSize st.1 →
  r1.1.1 = Some u →
  LRUCache.cache (urlCache r2.1.2) !! f = Some u
  ∧ u ∈ Browser.live (Browser.calls r2.2).
Proof.
  cbv zeta. intros Hcap Hu.
  destruct (reached_getMediaURL size ops f) as [Hc Hc1]. cbv zeta in Hc1.
  destruct (reached_getMediaURL (size) (ops ++ [GetMediaURL f]) g) as [_ Hc2].
  cbv zeta in Hc2. unfold run in Hc2. rewrite foldl_snoc in Hc2.
  fold (run (new size, Browser.start) ops) in Hc2.
  destruct (run (new size, Browser.start) ops) as [this w].
  rewrite exec_getMediaURL in Hc2. cbn [fst snd] in *.
  destruct (getMediaURL_caches this w f u Hc Hu) as (Hf & Hknown & Hcached).
  (* the order of use ends with [f] *)
  assert (∃ pre, LRUCache.accessOrder (urlCache (getMediaURL this f w).1.2)
                 = pre ++ [f]) as [pre Hpre].
  { destruct (getMediaURL_cases this w f Hc Hf Hknown)
      as [(? & _ & _ & ->)|[(_ & _ & _ & ->)
          |(lru & order & old & _ & _ & _ & _ & _ & _ & _ & ->)]];
      cbn; eauto. }
  assert (maxCacheSize (getMediaURL this f w).1.2 = maxCacheSize this) as Hmax1.
  { by destruct (getMediaURL_archive this f w) as (_ & _ & _ & _ & ?). }
  set (this1 := (getMediaURL this f w).1.2) in *.
  set (w1 := (getMediaURL this f w).2) in *.
  assert (LRUCache.cache (urlCache (getMediaURL this1 g w1).1.2) !! f = Some u)
    as Hkept.
  { destruct (decide (g = [])) as [->|Hg]; [done|].
    destruct (mediaFiles this1 !! g) as [data|] eqn:Hm; last first.
    { by rewrite getMediaURL_absent. }
    assert (is_Some (mediaFiles this1 !! g)) as Hgknown by (rewrite Hm; eauto).
    pose proof (consistent_order_length _ Hc1) as Hlen.
    pose proof Hc1 as (Hnd & _ & _ & _ & _ & _ & _ & Hmax). cbn [fst snd] in *.
    destruct (getMediaURL_cases this1 w1 g Hc1 Hg Hgknown)
      as [(v & _ & _ & ->)|[(Hgc & _ & _ & ->)
          |(lru & order & old & Hgc & _ & Hfull & Horder & _ & _ & _ & ->)]];
      cbn; [done| |].
    - rewrite lookup_insert_ne; [done|]. intros ->. congruence.
    - rewrite lookup_insert_ne by (intros ->; congruence).
      rewrite lookup_delete_ne; [done|]. intros ->.
      rewrite Horder in Hpre, Hlen, Hnd. destruct pre as [|x pre].
      + cbn in Hpre. injection Hpre as Ho. subst order. cbn in Hlen. lia.
      + cbn in Hpre. injection Hpre as Hx Ho. subst x order.
        apply NoDup_cons in Hnd as [Hnot _].
        apply Hnot. apply elem_of_app. right. left. }
  split; [done|]. by eapply (cached_live (_, _)).
Qed.

Lemma latest_survives_next_witness :
  let st := run (new (Some 2), Browser.start) [LoadZip twoPhotos] in
  let r1 := getMediaURL st.1 (js "a.jpg") st.2 in
  let r2 := getMediaURL r1.1.2 (js "b.jpg") r1.2 in
  LRUCache.cache (urlCache r2.1.2) !! js "a.jpg" = Some 0
  ∧ 0 ∈ Browser.live (Browser.calls r2.2).
Proof.
  apply (latest_survives_next (Some 2) [LoadZip twoPhotos]
           (js "a.jpg") (js "b.jpg") 0).
  - vm_compute. lia.
  - vm_compute. reflexivity.
Defined.

End Handles.

(** ** Loading and clearing *)

Section Archive.
Import ZipHandler.

Lemma clear_eq this w :
  clear this w
  = (Build (maxCacheSize this)
       (LRUCache.Build (LRUCache.maxSize (urlCache this)) ∅ []) ∅ None None false,
     Browser.Build (Browser.minted w)
       (Browser.calls w
        ++ ((λ kv : jsstring * url, Browser.revokeObjectURL (Some kv.2))
              <$> map_to_list (LRUCache.cache (urlCache this))))).
Proof. unfold clear, LRUCache.clear. by rewrite clear_browser. Qed.

Lemma new_eq size :
  new size
  = Build (maxCacheSize (new size))
      (LRUCache.Build (maxCacheSize (new size)) ∅ []) ∅ None None false.
Proof. by destruct size as [[|n]|]. Qed.

(** Clearing a state a new handler has reached gives the new handler. *)
Lemma reached_clear size ops :
  let st := run (new size, Browser.start) ops in
  (clear st.1 st.2).1 = new size.
Proof.
  cbv zeta. destruct (reached size ops) as ([Hc _] & _ & Hmax).
  destruct Hc as (_ & _ & _ & _ & _ & _ & _ & Hsize).
  rewrite clear_eq. cbn [fst]. rewrite Hsize, Hmax. by rewrite <-new_eq.
Qed.

(** X13.  [clear] revokes every live handle, each once, and nothing else,
    after which no handle is live; and it returns the handler to the state of
    a new one. *)
Theorem clear_releases_all (size : option nat) (ops : list op) :
  let st := run (new size, Browser.start) ops in
  let r := clear st.1 st.2 in
  (∃ revoked : list url,
     Browser.calls r.2
     = Browser.calls st.2 ++ ((λ u, Browser.revokeObjectURL (Some u)) <$> revoked)
     ∧ NoDup revoked
     ∧ list_to_set revoked = Browser.live (Browser.calls st.2))
  ∧ Browser.live (Browser.calls r.2) = ∅
  ∧ r.1 = new size.
Proof.
  cbv zeta. pose proof (reached_clear size ops) as Hnew. cbv zeta in Hnew.
  destruct (reached size ops) as (Hsafe & _ & _).
  destruct (run (new size, Browser.start) ops) as [this w]. cbn [fst snd] in *.
  destruct (safe_clear this w Hsafe) as [[Hc' _] _].
  pose proof Hsafe as [(_ & _ & _ & Hinj & Hlive & _) _]. cbn [fst snd] in *.
  split_and!; [| |done].
  - exists (map_to_list (LRUCache.cache (urlCache this))).*2.
    split_and!.
    + rewrite clear_eq. cbn [snd Browser.calls]. f_equal.
      by rewrite <-list_fmap_compose.
    + apply NoDup_fmap_2_strong; [|apply NoDup_map_to_list].
      intros [k1 u1] [k2 u2] H1%elem_of_map_to_list H2%elem_of_map_to_list.
      cbn. intros <-. f_equal. by eapply Hinj.
    + rewrite Hlive. apply set_eq. intros u.
      rewrite elem_of_list_to_set, list_elem_of_fmap, elem_of_map_img. split.
      * intros ([k v] & -> & Hkv%elem_of_map_to_list). by exists k.
      * intros (k & Hk). exists (k, u). split; [done|].
        by apply elem_of_map_to_list.
  - destruct Hc' as (_ & _ & _ & _ & Hlive' & _).
    rewrite Hlive', Hnew. rewrite new_eq. cbn. apply map_img_empty_L.
Qed.

Lemma clear_new size : clear (new size) Browser.start = (new size, Browser.start).
Proof. rewrite clear_eq, (new_eq size). cbn. by rewrite map_to_list_empty. Qed.

(** X14.  Loading an archive discards what the handler held: the outcome
    and the handler afterwards are those of loading the archive into a new
    handler, and no handle made before is live any more. *)
Theorem loadZip_replaces_archive (size : option nat) (ops : list op)
    (entries : list (jsstring * bytes)) :
  let st := run (new size, Browser.start) ops in
  let r := loadZip st.1 (Unzipped entries) st.2 in
  let fresh := loadZip (new size) (Unzipped entries) Browser.start in
  r.1.1 = fresh.1.1 ∧ r.1.2 = fresh.1.2
  ∧ Browser.live (Browser.calls r.2) = ∅.
Proof.
  cbv zeta. pose proof (reached_clear size ops) as Hnew. cbv zeta in Hnew.
  destruct (reached size ops) as (Hsafe & _ & _).
  destruct (run (new size, Browser.start) ops) as [this w]. cbn [fst snd] in *.
  destruct (safe_clear this w Hsafe) as [[Hc' _] _].
  destruct Hc' as (_ & _ & _ & _ & Hlive' & _).
  rewrite Hnew in Hlive'. unfold loadZip. rewrite clear_new.
  destruct (clear this w) as [this' w'] eqn:E. cbn [fst snd] in *. subst this'.
  split_and!; [done|done|].
  rewrite Hlive', new_eq. cbn. apply map_img_empty_L.
Qed.

Lemma processEntry_chat this path data :
  let this' := processEntry this (path, data) in
  (Str.endsWith (js ".txt") (basename path) = true
   ∧ from_option Str.truthy false (chatContent this) = false
   ∧ chatContent this' = Some (TextDecoder.decode data)
   ∧ chatFilename this' = Some (basename path)
   ∧ mediaFiles this' = mediaFiles this)
  ∨ ((from_option Str.truthy false (chatContent this) = false →
      Str.endsWith (js ".txt") (basename path) = false)
     ∧ chatContent this' = chatContent this
     ∧ chatFilename this' = chatFilename this
     ∧ mediaFiles this' = storeMedia (mediaFiles this) (path, data)).
Proof.
  unfold processEntry, storeMedia. cbn [fst snd].
  destruct (Str.endsWith _ _) eqn:He; cbn [andb].
  - destruct (from_option Str.truthy false (chatContent this)) eqn:Hc; cbn [negb].
    + right. by destruct (isMediaFile _).
    + left. done.
  - right. by destruct (isMediaFile _).
Qed.

Lemma storeMedia_lookup m path data k d :
  storeMedia m (path, data) !! k = Some d →
  m !! k = Some d
  ∨ (isMediaFile k = true ∧ k = basename path ∧ d = data).
Proof.
  unfold storeMedia. cbn [fst snd].
  destruct (isMediaFile (basename path)) eqn:Hm; [|by left].
  destruct (decide (k = basename path)) as [->|Hk].
  - rewrite lookup_insert_eq. intros [= <-]. by right.
  - rewrite lookup_insert_ne by done. by left.
Qed.

Lemma foldl_processEntry_inv entries : ∀ this,
  let this' := foldl processEntry this entries in
  (∀ k d, mediaFiles this' !! k = Some d →
     mediaFiles this !! k = Some d
     ∨ (isMediaFile k = true ∧ ∃ p, (p, d) ∈ entries ∧ basename p = k))
  ∧ ((chatContent this' = chatContent this
      ∧ chatFilename this' = chatFilename this
      ∧ (from_option Str.truthy false (chatContent this) = false →
         ∀ p d, (p, d) ∈ entries →
                Str.endsWith (js ".txt") (basename p) = false))
     ∨ (∃ p d, (p, d) ∈ entries
               ∧ Str.endsWith (js ".txt") (basename p) = true
               ∧ chatContent this' = Some (TextDecoder.decode d)
               ∧ chatFilename this' = Some (basename p))).
Proof.
  induction entries as [|[path data] entries IH]; intros this; cbn [foldl].
  { split; [by left|]. left. split_and!; try done.
    intros _ p d H. by apply elem_of_nil in H. }
  destruct (IH (processEntry this (path, data))) as [IHm IHc]. cbv zeta in *.
  set (this1 := processEntry this (path, data)) in *.
  set (this' := foldl processEntry this1 entries) in *.
  destruct (processEntry_chat this path data)
    as [(He & Hfalsy & Hc1 & Hn1 & Hm1)|(He & Hc1 & Hn1 & Hm1)];
    cbv zeta in *; fold this1 in Hc1, Hn1, Hm1.
  - split.
    + intros k d [H|(? & p & ? & ?)]%IHm.
      * left. by rewrite <-Hm1.
      * right. split; [done|]. exists p. split; [by right|done].
    + right. destruct IHc as [(Hc & Hn & _)|(p & d & Hin & ? & ? & ?)].
      * exists path, data. split; [left|]. split; [done|].
        by rewrite Hc, Hn, Hc1, Hn1.
      * exists p, d. split; [by right|done].
  - split.
    + intros k d [H|(? & p & ? & ?)]%IHm.
      * rewrite Hm1 in H.
        apply storeMedia_lookup in H as [?|(? & -> & ->)]; [by left|].
        right. split; [done|]. exists path. split; [left|done].
      * right. split; [done|]. exists p. split; [by right|done].
    + destruct IHc as [(Hc & Hn & Hno)|(p & d & Hin & ? & ? & ?)].
      * left. rewrite Hc, Hn, Hc1, Hn1. split_and!; try done.
        intros Hfalsy p d [[= -> ->]|Hin]%elem_of_cons; [by apply He|].
        eapply Hno; [by rewrite Hc1|done].
      * right. exists p, d. split; [by right|done].
Qed.

(** X15.  After [loadZip] every stored name is a media file name, stored
    with the content of an entry that has this name as its last path segment;
    the transcript's name and text come from one entry whose name ends in
    [.txt], and there is no transcript only when no entry's name does; the
    handler is marked as loaded and the summary returned describes it. *)
Theorem loadZip_stores_entries (this : t) (w : Browser.t)
    (entries : list (jsstring * bytes)) :
  let r := loadZip this (Unzipped entries) w in
  let this' := r.1.2 in
  (∀ k d, mediaFiles this' !! k = Some d →
     isMediaFile k = true ∧ ∃ p, (p, d) ∈ entries ∧ basename p = k)
  ∧ match chatFilename this', chatContent this' with
    | Some name, Some content =>
        ∃ p d, (p, d) ∈ entries ∧ basename p = name
               ∧ Str.endsWith (js ".txt") name = true
               ∧ TextDecoder.decode d = content
    | None, None =>
        ∀ p d, (p, d) ∈ entries →
               Str.endsWith (js ".txt") (basename p) = false
    | _, _ => False
    end
  ∧ isLoaded this' = true
  ∧ r.1.1 = inr (Loaded true
                   (from_option Str.truthy false (chatContent this'))
                   (chatFilename this') (base.size (mediaFiles this'))
                   (dom (mediaFiles this'))).
Proof.
  cbv zeta. unfold loadZip. rewrite clear_eq.
  set (cleared := Build _ _ ∅ None None false).
  destruct (foldl_processEntry_inv entries cleared) as [Hm Hc].
  cbv zeta in *. cbn [fst snd mediaFiles chatContent chatFilename isLoaded].
  split_and!; [| |done|done].
  - intros k d [H|?]%Hm; [|done]. unfold cleared in H. cbn in H.
    by rewrite lookup_empty in H.
  - destruct Hc as [(-> & -> & Hno)|(p & d & ? & ? & -> & ->)].
    + unfold cleared. cbn. by apply Hno.
    + by exists p, d.
Qed.

End Archive.

(** ** Blobs, preloading, statistics and eviction *)

Section CacheCalls.
Import ZipHandler.

Lemma isMediaFile_mime f :
  isMediaFile f = true →
  ∃ s, getMimeType f = Browser.mime s ∧ s ∈ mimeTypes.*2.
Proof.
  unfold isMediaFile, getMimeType. destruct (Str.truthy f); [|done]. cbn [negb].
  intros Hin%bool_decide_eq_true.
  pose proof (list_find_key mimeTypes (extension f)) as H.
  destruct (list_find _ mimeTypes) as [[i kv]|].
  - destruct H as [Hkv _]. exists kv.2. split; [done|].
    by apply list_elem_of_fmap_2.
  - by destruct H.
Qed.

(** The calls [getMediaURL] adds: at most one creation, for a blob of the
    type of the name, followed by at most one revocation. *)
Lemma getMediaURL_calls this f w :
  ∃ extra,
    Browser.calls (getMediaURL this f w).2 = Browser.calls w ++ extra
    ∧ Forall (λ c, match c with
                   | Browser.createObjectURL b _ =>
                       is_Some (mediaFiles this !! f)
                       ∧ Browser.type b = getMimeType f
                   | Browser.revokeObjectURL _ => True
                   | _ => False
                   end) extra.
Proof.
  unfold getMediaURL, hasMedia.
  destruct (negb (Str.truthy f)); cbn [orb].
  { exists []. by rewrite app_nil_r. }
  case_bool_decide as Hm; cbn [negb]; last first.
  { exists []. by rewrite app_nil_r. }
  destruct (LRUCache.get (urlCache this) f) as [[u|] c] eqn:Hget.
  { exists []. by rewrite app_nil_r. }
  cbn [withCache urlCache mediaFiles Browser.create].
  unfold LRUCache.set. destruct (LRUCache.has c f).
  { cbn. eexists [_]. split; [done|]. by repeat constructor. }
  case_bool_decide; cbn.
  - unfold revokeEvicted, Browser.revoke. cbn. rewrite <-app_assoc. cbn.
    eexists [_; _]. split; [done|]. by repeat constructor.
  - eexists [_]. split; [done|]. by repeat constructor.
Qed.

Lemma fromTable_exec st o :
  stocked st.1 → Forall fromTable (Browser.calls st.2) →
  Forall fromTable (Browser.calls (exec st o).2).
Proof.
  destruct st as [this w]. intros [Hmedia _] Hall. cbn [fst snd] in *.
  destruct o as [f|f| |file].
  - rewrite exec_getMediaURL. cbn [snd].
    destruct (getMediaURL_calls this f w) as (extra & -> & Hextra).
    apply Forall_app. split; [done|].
    eapply Forall_impl; [exact Hextra|]. intros [b u|u|?|?]; cbn; try done.
    intros [Hknown ->]. by apply isMediaFile_mime, Hmedia.
  - cbn [exec]. unfold evictFromCache.
    destruct (LRUCache.get (urlCache this) f) as [[u|] c]; [|done].
    cbn. apply Forall_app. split; [done|]. by repeat constructor.
  - cbn [exec]. rewrite clear_eq. cbn. apply Forall_app. split; [done|].
    apply Forall_fmap, Forall_forall. by intros [k u] _.
  - rewrite exec_loadZip. cbn [snd].
    destruct file as [| |message|entries]; try done.
    unfold loadZip. rewrite clear_eq. cbn. apply Forall_app. split; [done|].
    apply Forall_fmap, Forall_forall. by intros [k u] _.
Qed.

(** X16.  Every URL a handler creates is created for a blob whose type is a
    value of the [mimeTypes] table, never the fallback
    [application/octet-stream]: only names that [isMediaFile] accepts are
    stored, and these have an entry in the table. *)
Theorem blobs_have_table_types (size : option nat) (ops : list op) :
  let st := run (new size, Browser.start) ops in
  Forall fromTable (Browser.calls st.2)
  ∧ "application/octet-stream"%string ∉ mimeTypes.*2.
Proof.
  cbv zeta. split; [|by vm_compute; intros H; repeat (apply elem_of_cons in H as [?|H]; [done|]); apply elem_of_nil in H].
  assert (∀ st, stocked st.1 → Forall fromTable (Browser.calls st.2) →
                stocked (run st ops).1
                ∧ Forall fromTable (Browser.calls (run st ops).2)) as H.
  { unfold run. induction ops as [|o ops IH]; intros st Hst Hall; [done|].
    cbn [foldl]. apply IH; [by apply stocked_exec|by apply fromTable_exec]. }
  apply H; [apply stocked_new|constructor].
Qed.

(** X17.  [preloadMedia] is [getMediaURL] for each name in turn: it leaves
    the handler and the browser as these calls do, and returns one entry per
    name, in order, marked as cached exactly when the name is not empty and
    is stored, and then with the URL. *)
Theorem preloadMedia_each (filenames : list jsstring) :
  ∀ (this : t) (w : Browser.t),
  let r := preloadMedia this filenames w in
  (r.1.2, r.2) = run (this, w) (GetMediaURL <$> filenames)
  ∧ filename <$> r.1.1 = filenames
  ∧ Forall (λ p, cached p = bool_decide (is_Some (preloadedUrl p))
                 ∧ (cached p = true
                    ↔ filename p ≠ [] ∧ is_Some (mediaFiles this !! filename p)))
           r.1.1.
Proof.
  induction filenames as [|f fs IH]; intros this w; cbn [preloadMedia].
  { cbn. split_and!; try done. }
  pose proof (getMediaURL_defined this f w) as Hdef.
  destruct (getMediaURL_archive this f w) as (Hmedia & _).
  cbv zeta in Hmedia.
  unfold run. cbn [fmap list_fmap foldl]. rewrite exec_getMediaURL.
  destruct (getMediaURL this f w) as [[u this1] w1]. cbn [fst snd] in *.
  destruct (IH this1 w1) as (Hrun & Hnames & Hall). cbv zeta in *.
  destruct (preloadMedia this1 fs w1) as [[results this2] w2].
  cbn [fst snd] in *. split_and!.
  - done.
  - cbn. by rewrite Hnames.
  - constructor.
    + cbn. split; [done|]. by rewrite bool_decide_eq_true.
    + eapply Forall_impl; [exact Hall|]. intros p. cbn. by rewrite Hmedia.
Qed.


(** X19.  [evictFromCache] of a name that is cached removes it, and only
    it, from the cache and revokes its URL, which is live until then and not
    afterwards; for a name that is not cached it changes nothing. *)
Theorem evictFromCache_revokes (size : option nat) (ops : list op)
    (f : jsstring) :
  let st := run (new size, Browser.start) ops in
  let r := evictFromCache st.1 f st.2 in
  match LRUCache.cache (urlCache st.1) !! f with
  | Some u =>
      LRUCache.cache (urlCache r.1) = delete f (LRUCache.cache (urlCache st.1))
      ∧ Browser.calls r.2
        = Browser.calls st.2 ++ [Browser.revokeObjectURL (Some u)]
      ∧ u ∈ Browser.live (Browser.calls st.2)
      ∧ Browser.live (Browser.calls r.2)
        = Browser.live (Browser.calls st.2) ∖ {[u]}
  | None => r = st
  end.
Proof.
  cbv zeta. destruct (reached size ops) as ([Hc _] & _ & _).
  destruct (run (new size, Browser.start) ops) as [this w]. cbn [fst snd] in *.
  unfold evictFromCache, LRUCache.get, LRUCache.has.
  destruct (LRUCache.cache (urlCache this) !! f) as [u|] eqn:Hf.
  - rewrite bool_decide_true by eauto. cbn.
    split_and!; try done.
    + by eapply (cached_live (this, w)).
    + by rewrite live_snoc.
  - rewrite bool_decide_false by (by intros [? ?]). cbn.
    by rewrite withCache_same.
Qed.

Lemma isCacheCall_archive st o :
  isCacheCall o = true →
  mediaFiles (exec st o).1 = mediaFiles st.1
  ∧ chatContent (exec st o).1 = chatContent st.1
  ∧ chatFilename (exec st o).1 = chatFilename st.1
  ∧ isLoaded (exec st o).1 = isLoaded st.1
  ∧ maxCacheSize (exec st o).1 = maxCacheSize st.1.
Proof.
  destruct st as [this w]. destruct o as [f|f| |file]; try done; intros _.
  - rewrite exec_getMediaURL. apply getMediaURL_archive.
  - cbn [exec]. apply evictFromCache_archive.
Qed.

(** X20.  Looking up and evicting URLs never touches the archive: the
    stored files, the transcript, its name, the loaded flag and the capacity
    stay as they are, and with them the answers of [hasMedia] and the memory
    estimate. *)
Theorem cache_calls_keep_archive (st : t * Browser.t) (ops : list op) :
  forallb isCacheCall ops = true →
  let st' := run st ops in
  mediaFiles st'.1 = mediaFiles st.1
  ∧ chatContent st'.1 = chatContent st.1
  ∧ chatFilename st'.1 = chatFilename st.1
  ∧ isLoaded st'.1 = isLoaded st.1
  ∧ maxCacheSize st'.1 = maxCacheSize st.1
  ∧ (∀ f, hasMedia st'.1 f = hasMedia st.1 f)
  ∧ getMemoryEstimate st'.1 = getMemoryEstimate st.1.
Proof.
  intros Hops. cbv zeta.
  assert (mediaFiles (run st ops).1 = mediaFiles st.1
          ∧ chatContent (run st ops).1 = chatContent st.1
          ∧ chatFilename (run st ops).1 = chatFilename st.1
          ∧ isLoaded (run st ops).1 = isLoaded st.1
          ∧ maxCacheSize (run st ops).1 = maxCacheSize st.1)
    as (Hm & Hc & Hn & Hl & Hx).
  { revert st. unfold run.
    induction ops as [|o ops IH]; intros st; cbn [foldl]; [done|].
    cbn [forallb] in Hops. apply andb_prop in Hops as [Ho Hops].
    destruct (IH Hops (exec st o)) as (-> & -> & -> & -> & ->).
    by apply isCacheCall_archive. }
  split_and!; try done.
  - intros f. unfold hasMedia. by rewrite Hm.
  - unfold getMemoryEstimate. by rewrite Hm, Hc.
Qed.

Lemma cache_calls_keep_archive_witness :
  let st := run (new (Some 1), Browser.start) [LoadZip twoPhotos] in
  let st' := run st [GetMediaURL (js "a.jpg"); GetMediaURL (js "b.jpg");
                     EvictFromCache (js "b.jpg")] in
  mediaFiles st'.1 = mediaFiles st.1
  ∧ chatContent st'.1 = chatContent st.1
  ∧ chatFilename st'.1 = chatFilename st.1
  ∧ isLoaded st'.1 = isLoaded st.1
  ∧ maxCacheSize st'.1 = maxCacheSize st.1
  ∧ (∀ f, hasMedia st'.1 f = hasMedia st.1 f)
  ∧ getMemoryEstimate st'.1 = getMemoryEstimate st.1.
Proof.
  apply (cache_calls_keep_archive
           (run (new (Some 1), Browser.start) [LoadZip twoPhotos])
           [GetMediaURL (js "a.jpg"); GetMediaURL (js "b.jpg");
            EvictFromCache (js "b.jpg")]).
  reflexivity.
Defined.

End CacheCalls.

(** ** The viewer's media elements *)

Section Viewer.
Import ZipHandler.

(** Lower case does not move the dots. *)
Lemma toLower_dot (c : N) :
  if Char.lit "." c then Char.toLower c = [c]
  else ∀ x, x ∈ Char.toLower c → Char.lit "." x = false.
Proof.
  unfold Char.lit, Char.toLower, Char.upper, Char.between.
  destruct (N.eqb_spec c (N_of_ascii ".")) as [->|Hc]; [done|].
  change (N_of_ascii ".") with 46%N in Hc.
  repeat match goal with
  | |- context [(?x <=? ?y)%N] => destruct (N.leb_spec x y); cbn [andb]
  | |- context [(?x =? 8490)%N] => destruct (N.eqb_spec x 8490); cbn [andb]
  | |- context [(?x =? 304)%N] => destruct (N.eqb_spec x 304); cbn [andb]
  end;
  intros x Hx;
  repeat (apply elem_of_cons in Hx as [->|Hx]; [apply N.eqb_neq; cbn; lia|]);
  by apply elem_of_nil in Hx.
Qed.

Lemma split_prepend p (a s : jsstring) :
  (∀ x, x ∈ a → p x = false) →
  Str.split p (a ++ s)
  = match Str.split p s with
    | piece :: rest => (a ++ piece) :: rest
    | [] => [a]
    end.
Proof.
  induction a as [|x a IH]; intros Ha; cbn.
  { by destruct (Str.split p s) eqn:E; [destruct (split_nonempty p s)|]. }
  rewrite (Ha x) by left. rewrite IH by (intros y Hy; apply Ha; by right).
  by destruct (Str.split p s).
Qed.

Lemma split_toLowerCase (s : jsstring) :
  Str.split (Char.lit ".") (Str.toLowerCase s)
  = Str.toLowerCase <$> Str.split (Char.lit ".") s.
Proof.
  induction s as [|c s IH]; [done|].
  change (Str.toLowerCase (c :: s)) with (Char.toLower c ++ Str.toLowerCase s).
  pose proof (toLower_dot c) as Hc. cbn [Str.split].
  destruct (Char.lit "." c) eqn:Hdot.
  - rewrite Hc. cbn [app Str.split]. rewrite Hdot. cbn. by rewrite IH.
  - rewrite split_prepend by done. rewrite IH.
    destruct (Str.split (Char.lit ".") s) as [|piece rest]; cbn.
    + change (Str.toLowerCase [c]) with (Char.toLower c ++ []).
      by rewrite app_nil_r.
    + done.
Qed.

Lemma pop_toLowerCase (s : jsstring) :
  default [] (Str.pop (Str.split (Char.lit ".") (Str.toLowerCase s)))
  = extension s.
Proof.
  unfold extension, Str.pop. rewrite split_toLowerCase, fmap_last.
  by destruct (last _).
Qed.

Ltac each_member H :=
  repeat (apply elem_of_cons in H as [->|H]); [..|by apply elem_of_nil in H].

(** For a name the archive manager stores, the viewer's type is the
    parser's, a contact card being shown as a document. *)
Lemma isMediaFile_shown (f : jsstring) :
  isMediaFile f = true →
  MediaHandler.shown (MessageParser.getMediaType f)
  = Some (MediaHandler.getMediaType f)
  ∧ MediaHandler.getMediaType f
    ∈ [MediaHandler.image; MediaHandler.video; MediaHandler.audio;
       MediaHandler.document].
Proof.
  unfold isMediaFile, MediaHandler.getMediaType, MessageParser.getMediaType.
  destruct (Str.truthy f); [|done]. cbn [negb].
  rewrite pop_toLowerCase. fold (extension f).
  intros Hin%bool_decide_eq_true. revert Hin.
  generalize (extension f). intros ext Hin.
  unfold mediaExtensions in Hin. cbn [map] in Hin.
  each_member Hin; (split; [by vm_compute|]); vm_compute;
    repeat first [by left | right].
Qed.

(** X21.  The viewer and the parser classify file names alike: for a name
    the archive manager takes for a media file, the viewer's type is the
    parser's, a contact card being shown as a document, and it is never
    [file] or [unknown]; for any other name the viewer answers [file] or
    [unknown], except for the four extensions only its own table has. *)
Theorem viewer_and_parser_types (f : jsstring) :
  (isMediaFile f = true →
   MediaHandler.shown (MessageParser.getMediaType f)
   = Some (MediaHandler.getMediaType f)
   ∧ MediaHandler.getMediaType f
     ∈ [MediaHandler.image; MediaHandler.video; MediaHandler.audio;
        MediaHandler.document])
  ∧ (isMediaFile f = false →
     MediaHandler.getMediaType f ∈ [MediaHandler.file; MediaHandler.unknown]
     ∨ extension f ∈ map js ["bmp"; "wmv"; "ogg"; "wma"]%string).
Proof.
  split; [apply isMediaFile_shown|].
  unfold isMediaFile, MediaHandler.getMediaType.
  destruct (Str.truthy f); cbn [negb]; [|intros _; left; right; left].
  rewrite pop_toLowerCase. intros Hnot%bool_decide_eq_false.
  destruct (list_find _ MediaHandler.types) as [[i entry]|] eqn:E;
    [|left; left].
  right. apply list_find_Some in E as (Hi & Hext & _).
  apply list_elem_of_lookup_2 in Hi. revert Hnot Hext.
  generalize (extension f). intros ext Hnot Hext.
  unfold MediaHandler.types in Hi.
  each_member Hi; cbn [snd map] in Hext; each_member Hext;
    try solve [exfalso; apply Hnot; vm_compute; repeat first [by left | right]];
    vm_compute; repeat first [by left | right].
Qed.

(** X22.  [createMediaElement], in a state a new handler has reached: for
    a name that is not stored it builds the element for missing media and
    leaves the archive manager and the browser alone; for a stored name it
    does what [getMediaURL] does and builds the element of the kind the
    parser gives the name, with a URL that is cached for the name and live
    (never [null]), documents and contact cards with the type [document]. *)
Theorem createMediaElement_stored (size : option nat) (ops : list op)
    (f : jsstring) :
  let st := run (new size, Browser.start) ops in
  let r := MediaHandler.createMediaElement st.1 f st.2 in
  if hasMedia st.1 f
  then ∃ u, (r.1.2, r.2) = exec st (GetMediaURL f)
            ∧ LRUCache.cache (urlCache r.1.2) !! f = Some u
            ∧ u ∈ Browser.live (Browser.calls r.2)
            ∧ r.1.1
              = match MessageParser.getMediaType f with
                | MessageParser.image =>
                    MediaHandler.createImageElement (Some u) f
                | MessageParser.video =>
                    MediaHandler.createVideoElement (Some u) f
                | MessageParser.audio =>
                    MediaHandler.createAudioElement (Some u) f
                | _ =>
                    MediaHandler.createDocumentElement (Some u) f
                      MediaHandler.document
                end
  else r = (MediaHandler.createMissingElement f, st.1, st.2).
Proof.
  cbv zeta. destruct (reached_getMediaURL size ops f) as [Hc Hc'].
  destruct (reached size ops) as (_ & [Hstock _] & _). cbv zeta in Hc'.
  destruct (run (new size, Browser.start) ops) as [this w]. cbn [fst snd] in *.
  unfold MediaHandler.createMediaElement.
  destruct (hasMedia this f) eqn:Hhas; cbn [negb]; [|done].
  apply bool_decide_eq_true in Hhas.
  pose proof (Hstock f Hhas) as Hmedia.
  assert (f ≠ []) as Hf by (by intros ->).
  destruct (proj2 (getMediaURL_defined this f w) (conj Hf Hhas)) as [u Hu].
  destruct (getMediaURL_caches this w f u Hc Hu) as (_ & _ & Hcached).
  pose proof (cached_live (_, _) f u Hc' Hcached) as Hlive.
  rewrite exec_getMediaURL.
  destruct (getMediaURL this f w) as [[u' this'] w']. cbn [fst snd] in *.
  subst u'. exists u. split_and!; try done.
  destruct (isMediaFile_shown f Hmedia) as [Hshown Hkind].
  destruct (MessageParser.getMediaType f); cbn in Hshown;
    try discriminate Hshown; injection Hshown as Hs; rewrite <-Hs in *;
    try done.
  all: exfalso; repeat (apply elem_of_cons in Hkind as [?|Hkind]; [done|]);
    by apply elem_of_nil in Hkind.
Qed.

End Viewer.

(** ** The state manager *)

Section StateFacts.
Import StateManager.

Variable toLowerCase : jsstring → jsstring.

Lemma filter_filter_comm {A} (p q : A → bool) (l : list A) :
  List.filter p (List.filter q l) = List.filter (λ x, q x && p x) l.
Proof.
  induction l as [|x l IH]; [done|]. cbn.
  destruct (q x); cbn; [|done]. destruct (p x); by rewrite IH.
Qed.

Lemma filter_true {A} (l : list A) : List.filter (λ _, true) l = l.
Proof. induction l as [|x l IH]; [done|]. cbn. by rewrite IH. Qed.

Lemma filter_ext_bool {A} (p q : A → bool) (l : list A) :
  (∀ x, p x = q x) → List.filter p l = List.filter q l.
Proof.
  intros H. induction l as [|x l IH]; [done|]. cbn. by rewrite H, IH.
Qed.

(** The three filters in a row keep what passes the three tests. *)
Lemma filterMessages_passes messages filter :
  filterMessages toLowerCase messages filter
  = List.filter (passes toLowerCase filter) messages.
Proof.
  unfold filterMessages, passes.
  destruct filter as [text type range]. cbn [Filter.text Filter.type Filter.dateRange].
  set (t := if Str.truthy text then _ else messages).
  assert (t = List.filter (λ msg, if Str.truthy text
                                  then matchesText toLowerCase (toLowerCase text) msg
                                  else true) messages) as ->.
  { unfold t. destruct (Str.truthy text); [done|by rewrite filter_true]. }
  set (p1 := λ msg, if Str.truthy text then _ else true).
  set (p2 := λ msg, if bool_decide (type = js "media") then isMedia msg
                    else if bool_decide (type = js "documents")
                    then isDocument msg else true).
  set (u := if bool_decide (type ≠ js "all") then _ else _).
  assert (u = List.filter p2 (List.filter p1 messages)) as ->.
  { unfold u, p2. case_bool_decide as Hall.
    - case_bool_decide; [done|]. case_bool_decide; [done|].
      by rewrite filter_true.
    - subst type.
      rewrite !bool_decide_false by done. by rewrite filter_true. }
  destruct range as [range|].
  - rewrite !filter_filter_comm. apply filter_ext_bool. intros x.
    by rewrite andb_assoc.
  - rewrite filter_filter_comm. apply filter_ext_bool. intros x.
    by rewrite andb_true_r.
Qed.

Lemma filter_out_absent' (c : nat) (l : list nat) :
  c ∉ l → base.filter (λ k, k ≠ c) (l ++ [c]) = l.
Proof.
  intros Hc. rewrite filter_app, filter_cons_False, filter_nil, app_nil_r by tauto.
  induction l as [|x l IH]; [done|].
  apply not_elem_of_cons in Hc as [? ?].
  rewrite filter_cons_True by done. f_equal. by apply IH.
Qed.

Lemma filter_sublist {A} (p : A → bool) (l : list A) :
  List.filter p l `sublist_of` l.
Proof.
  induction l as [|x l IH]; [done|]. cbn.
  destruct (p x); [by apply sublist_skip|by apply sublist_cons].
Qed.

Lemma filter_idem {A} (p : A → bool) (l : list A) :
  List.filter p (List.filter p l) = List.filter p l.
Proof.
  rewrite filter_filter_comm. apply filter_ext_bool. intros x. by destruct (p x).
Qed.

(** X23.  [filterMessages] keeps, in their order, exactly the messages
    that pass the text, type and date tests of the filter; so filtering twice
    with one filter is filtering once, two filters can be applied in either
    order, filtering a concatenation is filtering its parts, and the initial
    filter keeps everything. *)
Theorem filterMessages_one_test
    (messages more : list MessageParser.Message.t) (f g : Filter.t) :
  filterMessages toLowerCase messages f `sublist_of` messages
  ∧ (∀ msg, msg ∈ filterMessages toLowerCase messages f
            ↔ msg ∈ messages ∧ passes toLowerCase f msg = true)
  ∧ filterMessages toLowerCase (filterMessages toLowerCase messages f) f
    = filterMessages toLowerCase messages f
  ∧ filterMessages toLowerCase (filterMessages toLowerCase messages f) g
    = filterMessages toLowerCase (filterMessages toLowerCase messages g) f
  ∧ filterMessages toLowerCase (messages ++ more) f
    = filterMessages toLowerCase messages f
      ++ filterMessages toLowerCase more f
  ∧ filterMessages toLowerCase messages initialFilter = messages.
Proof.
  rewrite !filterMessages_passes. split_and!.
  - apply filter_sublist.
  - intros msg. by rewrite !list_elem_of_In, filter_In.
  - apply filter_idem.
  - rewrite !filter_filter_comm. apply filter_ext_bool. intros x.
    apply andb_comm.
  - apply List.filter_app.
  - rewrite <-(filter_true messages) at 2. by apply filter_ext_bool.
Qed.

Lemma includesType_disjoint type :
  includesType [MessageParser.image; MessageParser.video; MessageParser.audio]
               type = true →
  includesType [MessageParser.document; MessageParser.file] type = false.
Proof.
  unfold includesType. destruct type as [[]|]; by vm_compute.
Qed.

(** The counters, the set of senders and the bounds of [calculateStats]
    after the loop, from any values before it. *)
Lemma statsStep_fold (messages : list MessageParser.Message.t) :
  ∀ total mediaCount documentCount participants range,
  foldl statsStep
        (Stats.Build total mediaCount documentCount participants range) messages
  = Stats.Build total
      (mediaCount + length (List.filter isMedia messages))
      (documentCount + length (List.filter isDocument messages))
      (foldl (λ participants msg,
                if negb (MessageParser.Message.isSystem msg)
                   && negb (bool_decide (MessageParser.Message.sender msg = js "System"))
                then MessageParser.setAdd participants (MessageParser.Message.sender msg)
                else participants) participants messages)
      (foldl (λ '(start, end_) msg,
                let date := MessageParser.Message.date msg in
                (match start with
                 | Some s => if (date <? s)%Z then Some date else Some s
                 | None => Some date
                 end,
                 match end_ with
                 | Some e => if (e <? date)%Z then Some date else Some e
                 | None => Some date
                 end)) range messages).
Proof.
  induction messages as [|msg messages IH];
    intros total mediaCount documentCount participants [start end_];
    cbn [foldl List.filter length].
  { by rewrite !Nat.add_0_r. }
  assert (statsStep
            (Stats.Build total mediaCount documentCount participants (start, end_))
            msg
          = Stats.Build total
              (if isMedia msg then S mediaCount else mediaCount)
              (if isDocument msg then S documentCount else documentCount)
              (if negb (MessageParser.Message.isSystem msg)
                  && negb (bool_decide (MessageParser.Message.sender msg = js "System"))
               then MessageParser.setAdd participants (MessageParser.Message.sender msg)
               else participants)
              (match start with
               | Some s => if (MessageParser.Message.date msg <? s)%Z
                           then Some (MessageParser.Message.date msg) else Some s
               | None => Some (MessageParser.Message.date msg)
               end,
               match end_ with
               | Some e => if (e <? MessageParser.Message.date msg)%Z
                           then Some (MessageParser.Message.date msg) else Some e
               | None => Some (MessageParser.Message.date msg)
               end)) as ->.
  { cbn [statsStep]. unfold isMedia, isDocument.
    destruct (MessageParser.Message.hasMedia msg); cbn [andb]; [|done].
    destruct (includesType [MessageParser.image; _; _] _) eqn:Hm.
    - by rewrite (includesType_disjoint _ Hm).
    - by destruct (includesType [MessageParser.document; _] _). }
  rewrite IH.
  destruct (isMedia msg), (isDocument msg); cbn [length]; f_equal; lia.
Qed.

Lemma range_fold_Some (messages : list MessageParser.Message.t) : ∀ s e,
  foldl (λ '(start, end_) msg,
           let date := MessageParser.Message.date msg in
           (match start with
            | Some s => if (date <? s)%Z then Some date else Some s
            | None => Some date
            end,
            match end_ with
            | Some e => if (e <? date)%Z then Some date else Some e
            | None => Some date
            end)) (Some s, Some e) messages
  = (Some (foldl MessageParser.rangeStep (s, e) messages).1,
     Some (foldl MessageParser.rangeStep (s, e) messages).2).
Proof.
  induction messages as [|msg messages IH]; intros s e; cbn [foldl]; [done|].
  cbn [MessageParser.rangeStep].
  destruct (MessageParser.Message.date msg <? s)%Z,
    (e <? MessageParser.Message.date msg)%Z; by rewrite IH.
Qed.

(** X24.  The statistics of [calculateStats]: the number of messages; the
    numbers of messages the [media] and the [documents] filters keep; and the
    participants and the date range that [MessageParser.getParticipants] and
    [MessageParser.getDateRange] give for the same messages. *)
Theorem calculateStats_summary (messages : list MessageParser.Message.t) :
  let stats := calculateStats messages in
  Stats.totalMessages stats = length messages
  ∧ Stats.mediaCount stats
    = length (filterMessages toLowerCase messages
                (Filter.Build [] (js "media") None))
  ∧ Stats.documentCount stats
    = length (filterMessages toLowerCase messages
                (Filter.Build [] (js "documents") None))
  ∧ Stats.mediaCount stats + Stats.documentCount stats ≤ length messages
  ∧ Stats.participants stats = MessageParser.getParticipants messages
  ∧ Stats.dateRange stats = MessageParser.getDateRange messages.
Proof.
  unfold calculateStats. cbv zeta. rewrite statsStep_fold.
  cbn [Stats.totalMessages Stats.mediaCount Stats.documentCount
       Stats.participants Stats.dateRange Nat.add].
  assert (length (List.filter isMedia messages)
          + length (List.filter isDocument messages) ≤ length messages) as Hsum.
  { induction messages as [|msg messages IH]; [done|]. cbn [List.filter length].
    assert (isMedia msg && isDocument msg = false) as Hdisj.
    { unfold isMedia, isDocument.
      destruct (MessageParser.Message.hasMedia msg); [|done]. cbn [andb].
      destruct (includesType [MessageParser.image; _; _] _) eqn:Hm; [|done].
      by rewrite (includesType_disjoint _ Hm). }
    destruct (isMedia msg), (isDocument msg); cbn [length] in *; try done; lia. }
  split_and!; try done.
  unfold MessageParser.getDateRange.
  destruct messages as [|first messages]; [done|].
  cbn [foldl]. rewrite range_fold_Some.
  cbn [MessageParser.rangeStep]. rewrite Z.ltb_irrefl.
  by destruct (foldl MessageParser.rangeStep _ _).
Qed.

Lemma emit_state this event d :
  getState (emit this event d) = getState this
  ∧ subscribers (emit this event d) = subscribers this
  ∧ (Forall (λ e, counted e.2) (delivered this) → counted d →
     Forall (λ e, counted e.2) (delivered (emit this event d))).
Proof.
  unfold emit. destruct (subscribers this !! event) as [callbacks|]; [|done].
  cbn. split_and!; try done. intros Hall Hd.
  apply Forall_app. split; [done|]. apply Forall_fmap, Forall_forall.
  by intros.
Qed.

Lemma filterMessages_length messages f :
  length (filterMessages toLowerCase messages f) ≤ length messages.
Proof. rewrite filterMessages_passes. apply sublist_length, filter_sublist. Qed.

(** What the calls keep: the filtered messages are the messages filtered
    by the filter, the statistics are those of the messages, the events
    delivered carry the counts of their messages, and the sets of callbacks
    are tidy. *)
Lemma coherent_exec this o :
  let ok this :=
    filteredMessages (getState this)
    = filterMessages toLowerCase (messages (getState this)) (filter (getState this))
    ∧ stats (getState this) = calculateStats (messages (getState this))
    ∧ Forall (λ e, counted e.2) (delivered this)
    ∧ tidy this in
  ok this → ok (exec toLowerCase this o).
Proof.
  cbv zeta. intros (Hf & Hs & Hd & Ht).
  assert (∀ change,
    let this' := applyFilter toLowerCase this change in
    filteredMessages (getState this')
    = filterMessages toLowerCase (messages (getState this')) (filter (getState this'))
    ∧ stats (getState this') = calculateStats (messages (getState this'))
    ∧ Forall (λ e, counted e.2) (delivered this')
    ∧ tidy this') as Happly.
  { intros change. cbv zeta. unfold applyFilter.
    match goal with |- context [emit ?a ?b ?c] =>
      destruct (emit_state a b c) as (Hst & Hsub & Hdel) end.
    unfold tidy. rewrite Hst, Hsub. cbn. split_and!; try done.
    apply Hdel; [done|]. split; [done|apply filterMessages_length]. }
  destruct o as [messages|change|filterType| |event callback|event callback];
    cbn [exec].
  - unfold setMessages.
    match goal with |- context [emit ?a ?b ?c] =>
      destruct (emit_state a b c) as (Hst & Hsub & Hdel) end.
    unfold tidy. rewrite Hst, Hsub. cbn. split_and!; try done.
    apply Hdel; [done|]. split; [done|apply filterMessages_length].
  - apply Happly.
  - unfold clearFilter. repeat case_bool_decide; apply Happly.
  - unfold clear.
    match goal with |- context [emit ?a ?b ?c] =>
      destruct (emit_state a b c) as (Hst & Hsub & Hdel) end.
    unfold tidy. rewrite Hst, Hsub. cbn. split_and!; try done.
    by apply Hdel.
  - unfold subscribe, tidy. cbn. split_and!; try done.
    intros e cbs. destruct (decide (e = event)) as [->|He].
    + rewrite lookup_insert_eq. intros [= <-].
      destruct (subscribers this !! event) as [cbs|] eqn:E; cbn.
      * destruct (Ht _ _ E) as [Hne Hnd]. case_bool_decide as Hin; [done|].
        split; [by destruct cbs|]. apply NoDup_app. split_and!; [done| |apply NoDup_singleton].
        intros x Hx ->%list_elem_of_singleton. done.
      * rewrite bool_decide_false by apply not_elem_of_nil.
        split; [done|apply NoDup_singleton].
    + rewrite lookup_insert_ne by done. apply Ht.
  - unfold unsubscribe.
    destruct (subscribers this !! event) as [cbs|] eqn:E; [|done].
    unfold tidy. cbn. split_and!; try done.
    intros e cbs'. case_bool_decide as Hlen.
    + intros [_ H]%lookup_delete_Some. by apply Ht in H.
    + destruct (decide (e = event)) as [->|He].
      * rewrite lookup_insert_eq. intros [= <-].
        split; [by intros H; rewrite H in Hlen|].
        apply NoDup_filter. by apply (Ht _ _ E).
      * rewrite lookup_insert_ne by done. apply Ht.
Qed.

Lemma coherent_run ops :
  let this := run toLowerCase new ops in
  filteredMessages (getState this)
  = filterMessages toLowerCase (messages (getState this)) (filter (getState this))
  ∧ stats (getState this) = calculateStats (messages (getState this))
  ∧ Forall (λ e, counted e.2) (delivered this)
  ∧ tidy this.
Proof.
  cbv zeta. unfold run.
  induction ops as [|o ops IH] using rev_ind.
  - cbn. by split_and!.
  - rewrite foldl_snoc. by apply (coherent_exec _ o).
Qed.

(** X25.  Whatever is called, in whatever order, on a new manager (setting
    messages, applying and clearing filters, clearing the state, subscribing
    and unsubscribing): the filtered messages are the messages filtered by
    the current filter, the statistics are those of the messages, and every
    event delivered carries the number of messages it carries, which does not
    exceed the total it reports. *)
Theorem manager_state_coherent (ops : list op) :
  let this := run toLowerCase new ops in
  filteredMessages (getState this)
  = filterMessages toLowerCase (messages (getState this)) (filter (getState this))
  ∧ stats (getState this) = calculateStats (messages (getState this))
  ∧ Forall (λ e, counted e.2) (delivered this).
Proof.
  cbv zeta. by destruct (coherent_run ops) as (? & ? & ? & _).
Qed.

(** X26.  Subscriptions, on a manager reached from a new one.  The function
    [subscribe] returns undoes the subscription: when the callback was not
    subscribed to the event before, the manager is as it was.  Subscribing a
    callback twice is subscribing it once.  After subscribing, an event of
    that name is delivered to the callback among the subscribers, to each
    once; after unsubscribing, it is not delivered to it. *)
Theorem unsubscribe_undoes_subscribe (ops : list op) (event : jsstring)
    (callback : nat) :
  let this := run toLowerCase new ops in
  (callback ∉ default [] (subscribers this !! event) →
   unsubscribe (subscribe this event callback) event callback = this)
  ∧ subscribe (subscribe this event callback) event callback
    = subscribe this event callback
  ∧ (∀ d, ∃ callbacks,
       NoDup callbacks ∧ callback ∈ callbacks
       ∧ delivered (emit (subscribe this event callback) event d)
         = delivered this ++ ((λ c, (c, event, d)) <$> callbacks))
  ∧ (∀ d, ∃ callbacks,
       (callback ∉ callbacks)
       ∧ delivered (emit (unsubscribe this event callback) event d)
         = delivered this ++ ((λ c, (c, event, d)) <$> callbacks)).
Proof.
  cbv zeta. destruct (coherent_run ops) as (_ & _ & _ & Ht).
  destruct (run toLowerCase new ops) as [st subs del]. unfold tidy in Ht.
  cbn [subscribers] in *.
  split_and!.
  - intros Hnot. unfold subscribe. cbn [subscribers getState delivered].
    rewrite (bool_decide_false _ Hnot). unfold unsubscribe.
    cbn [subscribers getState delivered]. rewrite lookup_insert_eq.
    rewrite filter_out_absent' by done.
    destruct (subs !! event) as [cbs|] eqn:E; cbn [default].
    + destruct (Ht _ _ E) as [Hne _].
      rewrite bool_decide_false by (by destruct cbs).
      by rewrite insert_insert_eq, insert_id.
    + rewrite bool_decide_true by done. by rewrite delete_insert_eq, delete_id.
  - unfold subscribe. cbn. rewrite lookup_insert_eq. cbn.
    rewrite insert_insert_eq. do 2 f_equal.
    destruct (decide (callback ∈ default [] (subs !! event))) as [Hin|Hnot].
    + by rewrite !(bool_decide_true _ Hin).
    + rewrite !(bool_decide_false _ Hnot).
      rewrite bool_decide_true; [done|]. apply elem_of_app. right. left.
  - intros d. unfold emit, subscribe. cbn. rewrite lookup_insert_eq. cbn.
    eexists. split_and!; [| |done].
    + destruct (subs !! event) as [cbs|] eqn:E; cbn.
      * destruct (Ht _ _ E) as [_ Hnd]. case_bool_decide; [done|].
        apply NoDup_app. split_and!; [done| |apply NoDup_singleton].
        intros x Hx ->%list_elem_of_singleton. done.
      * rewrite bool_decide_false by apply not_elem_of_nil. apply NoDup_singleton.
    + case_bool_decide; [done|]. apply elem_of_app. right. left.
  - intros d. unfold emit, unsubscribe. cbn.
    destruct (subs !! event) as [cbs|] eqn:E; cbn.
    + case_bool_decide as Hlen; cbn.
      * rewrite lookup_delete_eq. exists []. split; [apply not_elem_of_nil|].
        by rewrite app_nil_r.
      * rewrite lookup_insert_eq. eexists. split; [|done].
        rewrite list_elem_of_filter. by intros [? _].
    + rewrite E. exists []. split; [apply not_elem_of_nil|]. by rewrite app_nil_r.
Qed.

End StateFacts.

(** ** Decoding the transcript *)

Section Decoding.

Lemma codePoints_ascii (data : bytes) :
  Forall (λ b, (b < 128)%N) data → TextDecoder.codePoints None data = data.
Proof.
  induction 1 as [|b data Hb _ IH]; [done|].
  cbn [TextDecoder.codePoints]. unfold TextDecoder.lead.
  destruct (N.leb_spec b 127); [|lia]. cbn. by rewrite IH.
Qed.

(** Bytes below 128 decode to themselves. *)
Lemma decode_ascii (data : bytes) :
  Forall (λ b, (b < 128)%N) data → TextDecoder.decode data = data.
Proof.
  intros Hall. unfold TextDecoder.decode.
  assert (match data with
          | 239%N :: 187%N :: 191%N :: data' => data'
          | _ => data
          end = data) as ->.
  { destruct Hall as [|b data Hb Hall]; [done|].
    destruct b as [|p]; [done|].
    do 8 (destruct p as [p|p|]; try done). all: lia. }
  rewrite codePoints_ascii by done.
  induction Hall as [|b data Hb _ IH]; [done|].
  change ((b :: data) ≫= TextDecoder.codeUnits)
    with (TextDecoder.codeUnits b ++ (data ≫= TextDecoder.codeUnits)).
  rewrite IH. unfold TextDecoder.codeUnits.
  destruct (N.ltb_spec b 65536); [done|lia].
Qed.

(** X27.  An ASCII transcript is read as it is written: when the first
    entry whose name ends in [.txt] holds bytes below 128, and at least one,
    the transcript of the handler after [loadZip] is these bytes, one code
    unit per byte, under the last path segment of the entry. *)
Theorem ascii_transcript_as_written (this : ZipHandler.t) (w : Browser.t)
    (before after : list (jsstring * bytes)) (path : jsstring) (data : bytes) :
  (∀ e, e ∈ before →
        Str.endsWith (js ".txt") (ZipHandler.basename e.1) = false) →
  Str.endsWith (js ".txt") (ZipHandler.basename path) = true →
  data ≠ [] →
  Forall (λ b, (b < 128)%N) data →
  let this' :=
    (ZipHandler.loadZip this
       (ZipHandler.Unzipped (before ++ (path, data) :: after)) w).1.2 in
  ZipHandler.chatContent this' = Some data
  ∧ ZipHandler.chatFilename this' = Some (ZipHandler.basename path).
Proof.
  intros Hbefore Hpath Hdata Hascii. cbv zeta.
  unfold ZipHandler.loadZip. rewrite clear_eq. cbn [fst snd].
  rewrite foldl_app. cbn [foldl].
  rewrite (foldl_processEntry_media before) by (by right).
  cbn [ZipHandler.chatContent ZipHandler.chatFilename ZipHandler.mediaFiles
       ZipHandler.maxCacheSize ZipHandler.urlCache ZipHandler.isLoaded].
  set (m := foldl ZipHandler.storeMedia ∅ before).
  assert (∀ c f,
    ZipHandler.processEntry (ZipHandler.Build c f m None None false) (path, data)
    = ZipHandler.Build c f m (Some data) (Some (ZipHandler.basename path)) false)
    as ->.
  { intros. unfold ZipHandler.processEntry. cbn [ZipHandler.chatContent].
    by rewrite Hpath, decode_ascii. }
  rewrite foldl_processEntry_media; [done|].
  left. cbn. by destruct data.
Qed.

Lemma ascii_transcript_as_written_witness :
  let this' :=
    (ZipHandler.loadZip (ZipHandler.new None)
       (ZipHandler.Unzipped ZipHandler.twoTexts) Browser.start).1.2 in
  ZipHandler.chatContent this' = Some [72; 105]%N
  ∧ ZipHandler.chatFilename this' = Some (js "chat.txt").
Proof.
  apply (ascii_transcript_as_written (ZipHandler.new None) Browser.start
           [(js "WhatsApp/photo.jpg", [1; 2; 3]%N)]
           [(js "WhatsApp/notes.txt", [79; 75]%N)]
           (js "WhatsApp/chat.txt") [72; 105]%N).
  - intros e ->%list_elem_of_singleton. reflexivity.
  - reflexivity.
  - discriminate.
  - repeat constructor.
Defined.

End Decoding.

(** ** Lines and stored names *)

Section LinesAndNames.
Import MessageParser.

(** X28.  [parseLine] reads a line through its trimmed text only, and the
    line number only labels the diagnostic: white space around the line
    changes nothing, a line gives an event under one number exactly when it
    does under any other, and then the same event. *)
Theorem parseLine_padding_and_number (line : jsstring) (n m : nat) :
  parseLine (Str.trim line) n = parseLine line n
  ∧ match parseLine line n, parseLine line m with
    | None, None => True
    | Some (Parsed a), Some (Parsed b) => a = b
    | Some (Failed i l r), Some (Failed j l' r') =>
        i = n ∧ j = m ∧ l = l' ∧ r = r' ∧ l = Str.trim line
    | _, _ => False
    end.
Proof.
  split; [apply parseLine_trim|].
  rewrite (parseLine_number line n), (parseLine_number line m).
  destruct (parseLine line 0) as [[i l r|a]|] eqn:E; try done.
  split_and!; try done.
  revert E. unfold parseLine.
  destruct (negb (Str.truthy (Str.trim line))); [done|].
  repeat (first [ destruct (Regex.exec _ _) as [?|]
                | destruct (parseDate _ _) as [?|]
                | destruct (negb _) ]; cbv zeta);
    intros [= ? ? ?]; done.
Qed.

Lemma split_last_no_sep p (s : jsstring) :
  ∀ x, x ∈ default [] (last (Str.split p s)) → p x = false.
Proof.
  induction s as [|c s IH]; intros x; cbn [Str.split].
  { cbn. by intros ?%elem_of_nil. }
  destruct (p c) eqn:Hc.
  - destruct (Str.split p s) as [|piece rest] eqn:E;
      [by destruct (split_nonempty p s)|].
    change (last ([] :: piece :: rest)) with (last (piece :: rest)).
    apply IH.
  - destruct (Str.split p s) as [|piece rest] eqn:E;
      [by destruct (split_nonempty p s)|].
    destruct rest as [|piece' rest].
    + cbn in *. intros [->|Hx]%elem_of_cons; [done|by apply IH].
    + change (last ((c :: piece) :: piece' :: rest)) with (last (piece' :: rest)).
      change (last (piece :: piece' :: rest)) with (last (piece' :: rest)) in IH.
      apply IH.
Qed.

(** X29.  What a load reports can be shown: after [loadZip], [getMediaURL]
    returns a URL exactly for the names in the list of media files the load
    returns, and these names are not empty and contain no slash. *)
Theorem loaded_names_resolve (this : ZipHandler.t) (w : Browser.t)
    (entries : list (jsstring * bytes)) (name : jsstring) :
  let r := ZipHandler.loadZip this (ZipHandler.Unzipped entries) w in
  match r.1.1 with
  | inr summary =>
      (is_Some (ZipHandler.getMediaURL r.1.2 name r.2).1.1
       ↔ name ∈ ZipHandler.loadedMediaFiles summary)
      ∧ (name ∈ ZipHandler.loadedMediaFiles summary →
         name ≠ [] ∧ Str.includes "/" name = false
         ∧ ZipHandler.isMediaFile name = true)
  | inl _ => False
  end.
Proof.
  cbv zeta. unfold ZipHandler.loadZip. rewrite clear_eq.
  set (cleared := ZipHandler.Build _ _ ∅ None None false).
  cbn [fst snd ZipHandler.loadedMediaFiles].
  rewrite getMediaURL_defined. cbn [ZipHandler.mediaFiles].
  rewrite elem_of_dom.
  assert (is_Some (ZipHandler.mediaFiles (foldl ZipHandler.processEntry cleared entries)
                   !! name) →
          name ≠ [] ∧ Str.includes "/" name = false
          ∧ ZipHandler.isMediaFile name = true) as Hname.
  { intros [d Hd].
    destruct (foldl_processEntry_inv entries cleared) as [Hm _]. cbv zeta in Hm.
    destruct (Hm name d Hd) as [H|(Hmedia & p & _ & <-)].
    { unfold cleared in H. cbn in H. by rewrite lookup_empty in H. }
    split_and!; [by intros E; rewrite E in Hmedia| |done].
    apply not_true_iff_false. intros (x & Hx%list_elem_of_In & Hlit)%existsb_exists.
    unfold ZipHandler.basename, Str.pop in Hx.
    by rewrite (split_last_no_sep _ _ _ Hx) in Hlit. }
  split; [|done]. split; [by intros [_ ?]|].
  intros H. split; [by apply Hname|done].
Qed.

End LinesAndNames.

(** ** What the groups of a match hold *)

Section Captures.
Import Regex.

Lemma ahead_refl st : ahead 0 st st.
Proof. unfold ahead. rewrite Nat.add_0_r, drop_0. split_and!; [done|done|lia]. Qed.

Lemma ahead_trans n m st1 st2 st3 :
  ahead n st1 st2 → ahead m st2 st3 → ahead (n + m) st1 st3.
Proof.
  unfold ahead. intros (? & Hr & ?) (? & Hr' & Hm).
  rewrite Hr, length_drop in Hm. rewrite Hr', Hr, drop_drop.
  split_and!; [lia|done|lia].
Qed.

Lemma capsWithin_reset Φ ids caps :
  capsWithin Φ caps → capsWithin Φ (foldr delete caps ids).
Proof.
  intros H. induction ids as [|j ids IH]; [done|]. cbn [foldr].
  intros i g [_ Hg]%lookup_delete_Some. by apply (IH i g).
Qed.

(** A quantified pattern: what its rounds consume, and capture, is what the
    body does. *)
Lemma loop_outcome Φ (C : jsstring → Prop) body ids greedy :
  C [] → (∀ a b, C a → C b → C (a ++ b)) →
  (∀ st k res, body st k = Some res →
     ∃ st' n, k st' = Some res ∧ ahead n st st' ∧ C (take n (rest st))
              ∧ (capsWithin Φ (caps st) → capsWithin Φ (caps st'))) →
  ∀ fuel min max st k res,
    loop fuel body ids greedy min max st k = Some res →
    ∃ st' n, k st' = Some res ∧ ahead n st st' ∧ C (take n (rest st))
             ∧ (capsWithin Φ (caps st) → capsWithin Φ (caps st')).
Proof.
  intros Hnil Happ Hbody fuel.
  induction fuel as [|fuel IH]; intros min max st k res; simpl; [done|].
  set (st0 := MState (pos st) (rest st) (foldr delete (caps st) ids)).
  assert (∀ res,
    body st0 (λ st', if bool_decide (min = 0) && bool_decide (pos st' = pos st)
                     then None
                     else loop fuel body ids greedy (pred min) (pred <$> max) st' k)
    = Some res →
    ∃ st' n, k st' = Some res ∧ ahead n st st' ∧ C (take n (rest st))
             ∧ (capsWithin Φ (caps st) → capsWithin Φ (caps st'))) as Hiter.
  { intros res' (st1 & n1 & H1 & Ha1 & Hc1 & Hk1)%Hbody.
    destruct (_ && _); [done|].
    apply IH in H1 as (st' & n2 & H' & Ha2 & Hc2 & Hk2).
    exists st', (n1 + n2). split; [done|]. split_and!.
    - by apply (ahead_trans n1 n2 st0 st1 st').
    - rewrite <-take_take_drop. apply Happ; [done|].
      destruct Ha1 as (_ & Hr1 & _). cbn in Hr1. by rewrite <-Hr1.
    - intros H. by apply Hk2, Hk1, capsWithin_reset. }
  assert (∀ res, k st = Some res →
    ∃ st' n, k st' = Some res ∧ ahead n st st' ∧ C (take n (rest st))
             ∧ (capsWithin Φ (caps st) → capsWithin Φ (caps st'))) as Hstop.
  { intros res' H'. exists st, 0. split; [done|].
    split; [apply ahead_refl|]. by rewrite take_0. }
  destruct (bool_decide (max = Some 0)); [by apply Hstop|].
  destruct (bool_decide (min ≠ 0)); [by apply Hiter|].
  destruct greedy.
  - destruct (body st0 _) eqn:E; [intros [= <-]; by apply Hiter|by apply Hstop].
  - destruct (k st) eqn:E; [intros [= <-]; by apply Hstop|by apply Hiter].
Qed.

(** A successful match hands its continuation a state further on in the
    input; what it has consumed satisfies whatever all its classes do, and
    what its groups have captured satisfies what their classes do. *)
Lemma run_outcome Φ r : groupsWithin Φ r → ∀ st k res,
  run r st k = Some res →
  ∃ st' n, k st' = Some res ∧ ahead n st st'
           ∧ (∀ P, within P r → ∀ c, c ∈ take n (rest st) → P c = true)
           ∧ (capsWithin Φ (caps st) → capsWithin Φ (caps st')).
Proof.
  assert (∀ r st (k : continuation) res, k st = Some res →
    ∃ st' n, k st' = Some res ∧ ahead n st st'
             ∧ (∀ P, within P r → ∀ c, c ∈ take n (rest st) → P c = true)
             ∧ (capsWithin Φ (caps st) → capsWithin Φ (caps st'))) as Hstay.
  { intros r' st k res H. exists st, 0. split; [done|].
    split; [apply ahead_refl|]. split; [|done].
    intros P _ c. rewrite take_0. by intros ?%elem_of_nil. }
  induction r as [p| |a IHa b IHb|a IHa b IHb|greedy min max a IHa|i a IHa| |];
    intros Hg st k res; cbn [run].
  - destruct (rest st) as [|c s] eqn:E; [done|].
    destruct (p c) eqn:Hc; [|done]. intros H.
    exists (MState (S (pos st)) s (caps st)), 1. split; [done|]. split_and!.
    + unfold ahead. cbn. rewrite E. cbn. rewrite drop_0. split_and!; [lia|done|lia].
    + intros P HP x. cbn. rewrite take_0. intros ->%list_elem_of_singleton.
      by apply HP.
    + done.
  - apply Hstay.
  - destruct Hg as [Hga Hgb].
    intros (st1 & n1 & H1 & Ha1 & Hc1 & Hk1)%IHa; [|done].
    apply IHb in H1 as (st2 & n2 & H2 & Ha2 & Hc2 & Hk2); [|done].
    exists st2, (n1 + n2). split; [done|]. split_and!.
    + by eapply ahead_trans.
    + intros P [HPa HPb] c. rewrite <-take_take_drop.
      intros [Hc|Hc]%elem_of_app; [by eapply Hc1|].
      destruct Ha1 as (_ & Hr1 & _). rewrite <-Hr1 in Hc. by eapply Hc2.
    + intros H. by apply Hk2, Hk1.
  - destruct Hg as [Hga Hgb].
    destruct (run a st k) eqn:E.
    + intros [= <-]. apply IHa in E as (st' & n & H' & Ha' & Hc' & Hk'); [|done].
      exists st', n. split_and!; try done. intros P [HPa _]. by apply Hc'.
    + intros (st' & n & H' & Ha' & Hc' & Hk')%IHb; [|done].
      exists st', n. split_and!; try done. intros P [_ HPb]. by apply Hc'.
  - cbn in Hg.
    intros (st' & n & H' & Ha' & Hc' & Hk')%(loop_outcome Φ
      (λ s, ∀ P, within P a → ∀ c, c ∈ s → P c = true)).
    + exists st', n. split_and!; try done.
    + intros P _ c. by intros ?%elem_of_nil.
    + intros s1 s2 H1 H2 P HP c [?|?]%elem_of_app; [by eapply H1|by eapply H2].
    + intros st1 k1 res1 H1. by apply IHa.
  - destruct Hg as [Hi Hga].
    intros (st1 & n & H1 & Ha1 & Hc1 & Hk1)%IHa; [|done].
    exists (capture i st st1), n. split; [done|]. split_and!.
    + unfold ahead, capture. cbn. apply Ha1.
    + intros P HP. by apply Hc1.
    + intros H j g. unfold capture. cbn.
      destruct (decide (j = i)) as [->|Hj].
      * rewrite lookup_insert_eq. intros [= <-].
        destruct Ha1 as (-> & _ & _).
        replace (pos st + n - pos st) with n by lia. by apply Hc1.
      * rewrite lookup_insert_ne by done. by apply Hk1.
  - case_bool_decide; [|done]. apply Hstay.
  - destruct (rest st) eqn:E; [|done]. intros H. exists st, 0.
    split; [done|]. split; [apply ahead_refl|]. split; [|done].
    intros P _ c. rewrite take_0. by intros ?%elem_of_nil.
Qed.

(** In a successful [exec], the text of every group satisfies what the
    classes of the group do. *)
Lemma exec_within Φ r s m :
  groupsWithin Φ r → exec r s = Some m → capsWithin Φ (captures m).
Proof.
  intros Hg. unfold exec. generalize 0.
  assert (capsWithin Φ ∅) as Hempty.
  { intros i g. by rewrite lookup_empty. }
  induction s as [|c s IH]; intros n; cbn [search].
  - destruct (run r _ Some) as [st|] eqn:E; [|done]. intros [= <-].
    apply (run_outcome Φ r Hg) in E as (st' & ? & [= <-] & _ & _ & Hk).
    by apply Hk.
  - destruct (run r _ Some) as [st|] eqn:E; [|by apply IH]. intros [= <-].
    apply (run_outcome Φ r Hg) in E as (st' & ? & [= <-] & _ & _ & Hk).
    by apply Hk.
Qed.

Lemma line_groups_within :
  let Φ (i : nat) : N → bool :=
    match i with 3 => Char.isnt ":" | 4 => Char.dot | _ => λ _, true end in
  groupsWithin Φ MessageParser.bracket ∧ groupsWithin Φ MessageParser.dash.
Proof. cbv zeta. split; cbn; by split_and!. Qed.

Lemma system_groups_within :
  groupsWithin (λ i, match i with 3 => Char.dot | _ => λ _, true end)
               MessageParser.systemDash.
Proof. cbn. by split_and!. Qed.

Lemma extractMediaInfo_text_elem (body : jsstring) c :
  c ∈ MessageParser.MediaInfo.text (MessageParser.extractMediaInfo body) →
  c ∈ body.
Proof.
  unfold MessageParser.extractMediaInfo.
  destruct (exec MessageParser.attachment body) as [m|] eqn:E.
  { cbn [MessageParser.MediaInfo.text]. intros H%trim_elem. revert H.
    unfold remove. rewrite E.
    intros [H|H]%elem_of_app.
    - by eapply subseteq_take.
    - by eapply subseteq_drop. }
  destruct (MessageParser.leadingFilename body) as [name|].
  { cbn [MessageParser.MediaInfo.text]. intros H%trim_elem.
    by eapply subseteq_drop. }
  by destruct (test MessageParser.mediaOmitted body).
Qed.

(** X30.  In an event [parseLine] returns, the sender contains no colon,
    and the text contains no line terminator (line feed, carriage return,
    U+2028, U+2029): the sender is read by [[^:]+?] and the text by [.*],
    which stops at a line terminator inside the line. *)
Theorem event_sender_and_text (line : jsstring) (n : nat)
    (msg : MessageParser.Message.t) :
  MessageParser.parseLine line n = Some (MessageParser.Parsed msg) →
  Str.includes ":" (MessageParser.Message.sender msg) = false
  ∧ (∀ c, c ∈ MessageParser.Message.text msg → Char.lineTerminator c = false).
Proof.
  unfold MessageParser.parseLine.
  destruct (negb (Str.truthy (Str.trim line))); [done|].
  destruct line_groups_within as [Hb Hd]. cbv zeta in Hb, Hd.
  assert (∀ r m date,
    groupsWithin (λ i, match i with 3 => Char.isnt ":" | 4 => Char.dot
                                | _ => λ _, true end) r →
    exec r (Str.trim line) = Some m →
    let msg := MessageParser.userMessage date m (Str.trim line) in
    Str.includes ":" (MessageParser.Message.sender msg) = false
    ∧ (∀ c, c ∈ MessageParser.Message.text msg → Char.lineTerminator c = false))
    as Huser.
  { intros r m date Hg Hm. cbv zeta.
    pose proof (exec_within _ r _ m Hg Hm) as Hcaps.
    unfold MessageParser.userMessage. cbn. split.
    - apply includes_trim. unfold Str.includes.
      apply not_true_iff_false. intros (c & Hc%list_elem_of_In & Hlit)%existsb_exists.
      unfold group in Hc. destruct (captures m !! 3) as [g|] eqn:E;
        [|by apply elem_of_nil in Hc].
      pose proof (Hcaps 3 g E c Hc) as Hnot. unfold Char.isnt in Hnot.
      by rewrite Hlit in Hnot.
    - intros c Hc%extractMediaInfo_text_elem.
      unfold group in Hc. destruct (captures m !! 4) as [g|] eqn:E;
        [|by apply elem_of_nil in Hc].
      pose proof (Hcaps 4 g E c Hc) as Hdot. unfold Char.dot in Hdot.
      by apply negb_true_iff in Hdot. }
  destruct (exec MessageParser.bracket (Str.trim line)) as [m|] eqn:Eb.
  { destruct (MessageParser.parseDate _ _) as [date|]; [|done].
    intros [= <-]. exact (Huser _ m date Hb Eb). }
  destruct (exec MessageParser.dash (Str.trim line)) as [m|] eqn:Ed.
  { destruct (MessageParser.parseDate _ _) as [date|]; [|done].
    intros [= <-]. exact (Huser _ m date Hd Ed). }
  destruct (exec MessageParser.systemDash (Str.trim line)) as [m|] eqn:Es; [|done].
  cbv zeta. destruct (negb _); [|done].
  destruct (MessageParser.parseDate _ _) as [date|]; [|done].
  intros [= <-]. cbn. split; [done|].
  intros c Hc%trim_elem.
  pose proof (exec_within _ _ _ m system_groups_within Es) as Hcaps.
  unfold group in Hc. destruct (captures m !! 3) as [g|] eqn:E;
    [|by apply elem_of_nil in Hc].
  pose proof (Hcaps 3 g E c Hc) as Hdot. unfold Char.dot in Hdot.
  by apply negb_true_iff in Hdot.
Qed.

Lemma event_sender_and_text_witness :
  ∃ msg,
    MessageParser.parseLine (js "1/1/2024, 10:30 - Bob: see you at 10:45") 1
    = Some (MessageParser.Parsed msg)
    ∧ MessageParser.Message.sender msg = js "Bob"
    ∧ Str.includes ":" (MessageParser.Message.sender msg) = false
    ∧ (∀ c, c ∈ MessageParser.Message.text msg → Char.lineTerminator c = false).
Proof.
  set (line := js "1/1/2024, 10:30 - Bob: see you at 10:45").
  destruct (MessageParser.parseLine line 1) as [[|msg]|] eqn:E;
    try (by vm_compute in E).
  exists msg. split; [done|]. split.
  - assert (Some (MessageParser.Parsed msg) = MessageParser.parseLine line 1)
      as E' by done.
    vm_compute in E'. by injection E' as ->.
  - exact (event_sender_and_text line 1 msg E).
Defined.

End Captures.
